(** * Quantum Buckshot Roulette: the bullet engine and the game controller

    A shallow embedding of [src/game_logic.py].  The two classes
    [QuantumBulletSystem] and [QuantumBuckshotGame] become records with
    explicit state passing; every method takes the state and returns the
    new one next to its Python return value.

    Conventions.
    - Python [int] is [Z]; a Python list is a [list] read and written with
      Python's indexing rules ([py_get], [py_set]: negative indices count
      from the end, anything else out of range raises [IndexError]).
    - A result of type [option _] is [None] exactly when a Python
      exception ([IndexError], [AttributeError]) escapes the method.
    - The two dictionaries of the engine are [gmap Z Z].
    - The Qiskit simulator is outside the repository.  Its one random
      output, the bit sampled by a one-shot run, is an explicit argument
      of [measure_bullet]; its arithmetic on amplitudes is the interface
      [Simulator]. *)

From Stdlib Require Import ZArith QArith Lia.
From stdpp Require Import gmap strings list list_numbers fin_maps sorting.

Local Open Scope Z_scope.

(** ** Python list indexing *)

(** [py_norm n i] is the position Python reads for index [i] in a sequence
    of length [n], or [None] where Python raises [IndexError]. *)
Definition py_norm (n i : Z) : option Z :=
  if decide (0 ≤ i < n) then Some i
  else if decide (- n ≤ i < 0) then Some (n + i)
  else None.

Definition py_get {A} (l : list A) (i : Z) : option A :=
  k ← py_norm (Z.of_nat (length l)) i; l !! Z.to_nat k.

Definition py_set {A} (l : list A) (i : Z) (v : A) : option (list A) :=
  k ← py_norm (Z.of_nat (length l)) i; Some (<[Z.to_nat k := v]> l).

(** ** Gates *)

Module GateType.
Inductive t := X | Y | Z | H | RX | RY | RZ | CNOT.

Definition is_two_qubit (g : t) : bool :=
  match g with CNOT => true | _ => false end.

#[global] Instance eq_dec : EqDecision t.
Proof. solve_decision. Defined.
End GateType.

Record Gate := mkGate { gate_type : GateType.t; used : bool }.

#[global] Instance Gate_eq_dec : EqDecision Gate.
Proof. solve_decision. Defined.

(** [Gate(gt)]: the dataclass default [used = False]. *)
Definition new_gate (gt : GateType.t) : Gate := mkGate gt false.

(** ** The circuit *)

(** The single-position unitaries the engine appends; the rotations are
    always by [pi/2]. *)
Inductive Unitary1 := UX | UY | UZ | UH | URX | URY | URZ.

Inductive Instr :=
| I1 (u : Unitary1) (q : Z)
| ICX (control target : Z)
| IMeasure (q : Z).

(** ** The simulator interface

    The Qiskit statevector simulator is not part of the repository.
    Its numeric side is a parameter, so that what is proved holds for
    floating point and for exact arithmetic alike: the amplitudes, the
    2x2 matrices of the unitaries, [abs(a) ** 2], the sums of
    probabilities and the two threshold tests of the classifier.
    [runs n] tells whether a statevector run on [n] positions returns
    (the [try] of [get_probabilities]) or raises (its [except]). *)
Class Simulator := {
  amp : Type;
  prob : Type;
  amp_zero : amp;
  amp_one : amp;
  (** [matrix u a0 a1]: the unitary [u] applied to the amplitude pair of
      a position (bit clear, bit set). *)
  matrix : Unitary1 → amp → amp → amp * amp;
  abs2 : amp → prob;
  prob_zero : prob;   (* 0.0 *)
  prob_one : prob;    (* 1.0 *)
  prob_half : prob;   (* 0.5 *)
  prob_add : prob → prob → prob;
  gt_099 : prob → bool;   (* p > 0.99 *)
  lt_001 : prob → bool;   (* p < 0.01 *)
  runs : Z → bool
}.

Inductive Category :=
| live | blank | superposition | entangled | fired_live | fired_blank.

#[global] Instance Category_eq_dec : EqDecision Category.
Proof. solve_decision. Defined.

Section Statevector.
Context `{Sim : Simulator}.

(** Amplitudes indexed by basis state; bit [q] of the index is the
    value of position [q], as in [(i >> qubit) & 1]. *)
Definition statevec := Z → amp.

Definition ket0 : statevec := λ i, if decide (i = 0) then amp_one else amp_zero.

Definition flip_bit (q i : Z) : Z := Z.lxor i (Z.shiftl 1 q).

(** Modelled from the spec: what the simulator does with one
    instruction of the circuit is not in the repository.  By section
    4.1 of the spec a gate is its unitary embedded at the target
    positions of the joint vector; Pauli-X is the bit flip, which
    exchanges the two amplitudes of the position, and Controlled-X
    flips the target where the control bit is set.  A measurement does
    not enter the vector [get_probabilities] asks for. *)
Definition apply_instr (ins : Instr) (sv : statevec) : statevec :=
  match ins with
  | I1 UX q => λ i, sv (flip_bit q i)
  | I1 u q => λ i,
      if Z.testbit i q
      then snd (matrix u (sv (flip_bit q i)) (sv i))
      else fst (matrix u (sv i) (sv (flip_bit q i)))
  | ICX c t => λ i, if Z.testbit i c then sv (flip_bit t i) else sv i
  | IMeasure _ => sv   (* dropped by [remove_final_measurements] *)
  end.

(** Modelled from the spec: the simulator's run of a circuit from the
    all-blank basis state, "recomputed from the full gate history". *)
Definition run_statevector (c : list Instr) : statevec :=
  fold_left (λ sv ins, apply_instr ins sv) c ket0.

(** The inner loop of [get_probabilities] over [enumerate(statevector)]. *)
Definition marginal (n : Z) (sv : statevec) (qubit : Z) : prob * prob :=
  fold_left
    (λ (acc : prob * prob) i,
       let pr := abs2 (sv i) in
       if Z.testbit i qubit
       then (acc.1, prob_add acc.2 pr)
       else (prob_add acc.1 pr, acc.2))
    (seqZ 0 (2 ^ n)) (prob_zero, prob_zero).
End Statevector.

(** ** QuantumBulletSystem *)

Module QuantumBulletSystem.

Record t := mk {
  num_bullets : Z;
  circuit : list Instr;
  entanglements : gmap Z Z;
  measured : list bool;
  measurement_results : list (option Z);
  initial_live_positions : list Z;
  current_bullet_index : Z;
  (** [_collapsed_states]; [None] while the attribute does not exist
      (it is created by [initialize_bullets], not by [__init__]). *)
  collapsed_states : option (gmap Z Z)
}.

(** [__init__(num_bullets)]; the register constructor raises on a
    negative size. *)
Definition init (n : Z) : option t :=
  if decide (n < 0) then None else
  Some {| num_bullets := n;
          circuit := [];
          entanglements := ∅;
          measured := replicate (Z.to_nat n) false;
          measurement_results := replicate (Z.to_nat n) None;
          initial_live_positions := [];
          current_bullet_index := 0;
          collapsed_states := None |}.

(** Python's [sorted] on a list of integers. *)
Definition sorted (l : list Z) : list Z := merge_sort Z.le l.

Definition initialize_bullets (live_positions : list Z) (s : t) : t :=
  {| num_bullets := num_bullets s;
     circuit := (λ pos, I1 UX pos) <$> filter (λ pos, 0 ≤ pos < num_bullets s) live_positions;
     entanglements := ∅;
     measured := replicate (Z.to_nat (num_bullets s)) false;
     measurement_results := replicate (Z.to_nat (num_bullets s)) None;
     initial_live_positions := sorted live_positions;
     current_bullet_index := 0;
     collapsed_states := Some ∅ |}.

(** [_break_entanglement] on the ledger alone. *)
Definition break_ledger (qubit : Z) (e : gmap Z Z) : gmap Z Z :=
  match e !! qubit with
  | Some partner => delete partner (delete qubit e)
  | None => e
  end.

Definition with_ledger (e : gmap Z Z) (s : t) : t :=
  {| num_bullets := num_bullets s;
     circuit := circuit s;
     entanglements := e;
     measured := measured s;
     measurement_results := measurement_results s;
     initial_live_positions := initial_live_positions s;
     current_bullet_index := current_bullet_index s;
     collapsed_states := collapsed_states s |}.

Definition _break_entanglement (qubit : Z) (s : t) : t :=
  with_ledger (break_ledger qubit (entanglements s)) s.

Definition append_instr (i : Instr) (s : t) : t :=
  {| num_bullets := num_bullets s;
     circuit := circuit s ++ [i];
     entanglements := entanglements s;
     measured := measured s;
     measurement_results := measurement_results s;
     initial_live_positions := initial_live_positions s;
     current_bullet_index := current_bullet_index s;
     collapsed_states := collapsed_states s |}.

(** The [try] block of [apply_gate]: the dispatch on the gate kind.
    No instruction appended here can raise once the targets passed the
    checks, and every member of the enumeration has a branch. *)
Definition dispatch (gate_type : GateType.t) (target1 target2 : Z) (s : t) : t :=
  match gate_type with
  | GateType.X => append_instr (I1 UX target1) s
  | GateType.Y => append_instr (I1 UY target1) s
  | GateType.Z => append_instr (I1 UZ target1) s
  | GateType.H => append_instr (I1 UH target1) s
  | GateType.RX => append_instr (I1 URX target1) s
  | GateType.RY => append_instr (I1 URY target1) s
  | GateType.RZ => append_instr (I1 URZ target1) s
  | GateType.CNOT =>
      let s1 := _break_entanglement target2 s in
      let s2 := append_instr (ICX target1 target2) s1 in
      with_ledger (<[target2 := target1]> (<[target1 := target2]> (entanglements s2))) s2
  end.

Definition apply_gate (gate_type : GateType.t) (target1 target2 : Z) (s : t)
  : option (bool * t) :=
  if decide (target1 < 0 ∨ num_bullets s ≤ target1) then Some (false, s) else
  m1 ← py_get (measured s) target1;
  if m1 : bool then Some (false, s) else
  if GateType.is_two_qubit gate_type then
    if decide (target2 < 0 ∨ num_bullets s ≤ target2) then Some (false, s) else
    m2 ← py_get (measured s) target2;
    if m2 : bool then Some (false, s) else
    if decide (target1 = target2) then Some (false, s) else
    Some (true, dispatch gate_type target1 target2 s)
  else Some (true, dispatch gate_type target1 target2 s).

Definition get_current_bullet (s : t) : Z := current_bullet_index s.

(** The loop
    [while current_bullet_index < num_bullets and measured[current_bullet_index]]
    run from index [i]; [fuel] bounds the iterations, [advance] gives
    it the number the loop can need. *)
Fixpoint skip_measured (fuel : nat) (ms : list bool) (n i : Z) : option Z :=
  match fuel with
  | O => Some i
  | S fuel' =>
      if decide (i < n) then
        b ← py_get ms i;
        if b : bool then skip_measured fuel' ms n (i + 1) else Some i
      else Some i
  end.

Definition advance (ms : list bool) (n i : Z) : option Z :=
  skip_measured (Z.to_nat (n - i)) ms n i.

(** [measure_bullet(qubit)].  [sample] is the bit the one-shot simulator
    run returns for [qubit]; it is read only on the sampling path. *)
Definition measure_bullet (qubit : Z) (sample : bool) (s : t)
  : option (option Z * t) :=
  m ← py_get (measured s) qubit;
  if m : bool then
    r ← py_get (measurement_results s) qubit; Some (r, s)
  else
    match collapsed_states s ≫= (λ c, c !! qubit) with
    | Some result_value =>
        ms ← py_set (measured s) qubit true;
        rs ← py_set (measurement_results s) qubit (Some result_value);
        idx ← advance ms (num_bullets s) (current_bullet_index s + 1);
        Some (Some result_value,
              {| num_bullets := num_bullets s;
                 circuit := circuit s;
                 entanglements := entanglements s;
                 measured := ms;
                 measurement_results := rs;
                 initial_live_positions := initial_live_positions s;
                 current_bullet_index := idx;
                 collapsed_states := delete qubit <$> collapsed_states s |})
    | None =>
        let had_entanglement := bool_decide (is_Some (entanglements s !! qubit)) in
        let partner := default (-1) (entanglements s !! qubit) in
        q ← py_norm (num_bullets s) qubit;
        let result_value := Z.b2z sample in
        ms ← py_set (measured s) qubit true;
        rs ← py_set (measurement_results s) qubit (Some result_value);
        collapse ←
          (if had_entanglement && bool_decide (0 ≤ partner)
           then negb <$> py_get ms partner else Some false);
        idx ← advance ms (num_bullets s) (current_bullet_index s + 1);
        Some (Some result_value,
              {| num_bullets := num_bullets s;
                 circuit := circuit s ++ [IMeasure q];
                 entanglements :=
                   if collapse : bool then break_ledger qubit (entanglements s)
                   else entanglements s;
                 measured := ms;
                 measurement_results := rs;
                 initial_live_positions := initial_live_positions s;
                 current_bullet_index := idx;
                 collapsed_states :=
                   if collapse : bool
                   then Some (<[partner := result_value]> (default ∅ (collapsed_states s)))
                   else collapsed_states s |})
    end.

Definition fire_next_bullet (sample : bool) (s : t)
  : option ((Z * option Z) * t) :=
  let bullet_idx := current_bullet_index s in
  if decide (num_bullets s ≤ bullet_idx) then Some ((-1, Some (-1)), s) else
  '(result, s') ← measure_bullet bullet_idx sample s;
  Some ((bullet_idx, result), s').

Definition all_measured (s : t) : bool := forallb id (measured s).

Section Probabilities.
Context `{Sim : Simulator}.

Definition certain (is_zero : bool) : prob * prob :=
  if is_zero then (prob_one, prob_zero) else (prob_zero, prob_one).

(** One iteration of either loop of [get_probabilities]; [free] is
    what the loop appends for a position that is neither measured
    nor deferred-collapsed. *)
Definition prob_entry (free : Z → prob * prob) (s : t) (qubit : Z)
  : option (prob * prob) :=
  m ← py_get (measured s) qubit;
  if m : bool then
    r ← py_get (measurement_results s) qubit;
    Some (certain (bool_decide (r = Some 0)))
  else
    match collapsed_states s ≫= (λ c, c !! qubit) with
    | Some v => Some (certain (bool_decide (v = 0)))
    | None => Some (free qubit)
    end.

Definition get_probabilities (s : t) : option (list (prob * prob)) :=
  if runs (num_bullets s)
  then mapM (prob_entry (marginal (num_bullets s) (run_statevector (circuit s))) s)
            (seqZ 0 (num_bullets s))
  else mapM (prob_entry (λ _, (prob_half, prob_half)) s)
            (seqZ 0 (num_bullets s)).

Definition get_bullet_state_category (qubit : Z) (s : t) : option Category :=
  m ← py_get (measured s) qubit;
  if m : bool then
    r ← py_get (measurement_results s) qubit;
    Some (if decide (r = Some 1) then fired_live else fired_blank)
  else
    match collapsed_states s ≫= (λ c, c !! qubit) with
    | Some v => Some (if decide (v = 1) then live else blank)
    | None =>
        probs ← get_probabilities s;
        '(p_blank, p_live) ← py_get probs qubit;
        let is_entangled := bool_decide (is_Some (entanglements s !! qubit)) in
        Some (if gt_099 p_live then (if is_entangled then entangled else live)
              else if lt_001 p_live then (if is_entangled then entangled else blank)
              else (if is_entangled then entangled else superposition))
    end.
End Probabilities.

End QuantumBulletSystem.

(** ** Player *)

Record Player := mkPlayer {
  name : string;
  player_id : Z;
  lives : Z;
  gates : list Gate;
  peek_available : bool;
  applied_gates_history : list (GateType.t * Z * Z)
}.

#[global] Instance Player_eq_dec : EqDecision Player.
Proof. solve_decision. Defined.

Definition is_alive (p : Player) : bool := bool_decide (0 < lives p).

Definition take_damage (p : Player) : bool * Player :=
  let p' := mkPlayer (name p) (player_id p) (Z.max 0 (lives p - 1)) (gates p)
                     (peek_available p) (applied_gates_history p) in
  (is_alive p', p').

Definition get_available_gates (p : Player) : list Gate :=
  filter (λ g, used g = false) (gates p).

Definition matches (gt : GateType.t) (g : Gate) : bool :=
  bool_decide (gate_type g = gt) && negb (used g).

Definition has_gate (gt : GateType.t) (p : Player) : bool :=
  existsb (matches gt) (gates p).

(** The loop of [use_gate]: marks the first unused gate of the kind. *)
Fixpoint mark_used (gt : GateType.t) (gs : list Gate) : bool * list Gate :=
  match gs with
  | [] => (false, [])
  | g :: rest =>
      if matches gt g then (true, mkGate (gate_type g) true :: rest)
      else let '(found, rest') := mark_used gt rest in (found, g :: rest')
  end.

Definition use_gate (gt : GateType.t) (p : Player) : bool * Player :=
  let '(found, gs) := mark_used gt (gates p) in
  (found, mkPlayer (name p) (player_id p) (lives p) gs
                   (peek_available p) (applied_gates_history p)).

Definition reset_for_new_round (p : Player) : Player :=
  mkPlayer (name p) (player_id p) (lives p) [] true [].

Definition set_gates (gate_types : list GateType.t) (p : Player) : Player :=
  mkPlayer (name p) (player_id p) (lives p) (new_gate <$> gate_types)
           (peek_available p) (applied_gates_history p).

Definition record_gate_application (gt : GateType.t) (target1 target2 : Z)
    (p : Player) : Player :=
  mkPlayer (name p) (player_id p) (lives p) (gates p) (peek_available p)
           (applied_gates_history p ++ [(gt, target1, target2)]).

Definition spend_peek (p : Player) : Player :=
  mkPlayer (name p) (player_id p) (lives p) (gates p) false
           (applied_gates_history p).

(** ** QuantumBuckshotGame *)

(** [current_player] and [winner] are references to one of the two player
    objects of the game, not copies: they are modelled as [PlayerRef]s
    into the record that holds both players. *)
Inductive PlayerRef := P1 | P2.

#[global] Instance PlayerRef_eq_dec : EqDecision PlayerRef.
Proof. solve_decision. Defined.

Inductive Phase := gate_selection | show_bullets | playing.

#[global] Instance Phase_eq_dec : EqDecision Phase.
Proof. solve_decision. Defined.

(** The messages of the controller, by the text they carry. *)
Inductive Message :=
| msg_gates_outside_playing   (* "Cannot apply gates outside playing phase" *)
| msg_game_is_over            (* "Game is over" *)
| msg_one_gate_per_turn       (* "You can only apply one gate per turn" *)
| msg_not_available (gt : GateType.t)       (* "You don't have ... available" *)
| msg_applied_two (gt : GateType.t) (t1 t2 : Z)  (* "Applied ... to bullets t1 and t2" *)
| msg_applied_one (gt : GateType.t) (t1 : Z)     (* "Applied ... to bullet t1" *)
| msg_failed_to_apply         (* "Failed to apply gate (invalid target?)" *)
| msg_shoot_outside_playing   (* "Cannot shoot outside playing phase" *)
| msg_no_more_bullets.        (* "No more bullets to fire" *)

(** The dictionary [shoot] returns when it succeeds. *)
Record ShotInfo := mkShotInfo {
  shooter_name : string;
  shooter_id : Z;
  target_name : string;
  target_id : Z;
  bullet_index : Z;
  is_live : bool;
  shot_self : bool;
  extra_turn : bool;
  damage_dealt : bool;
  target_lives_remaining : Z;
  round_over : bool;
  info_game_over : bool;
  info_winner : option string
}.

Inductive ShotResult :=
| ShotFailed (m : Message)      (* {"success": False, "message": m} *)
| ShotOk (info : ShotInfo).     (* {"success": True, ...} *)

Module QuantumBuckshotGame.

Record t := mk {
  num_bullets : Z;
  num_gates : Z;
  initial_lives : Z;
  player1 : Player;
  player2 : Player;
  current_player : PlayerRef;
  bullet_system : option QuantumBulletSystem.t;
  round_number : Z;
  game_over : bool;
  winner : option PlayerRef;
  phase : Phase;
  gate_selection_player : Z;
  gate_applied_this_turn : bool
}.

(** [__init__(num_bullets, num_gates, num_lives)] *)
Definition init (n g l : Z) : t :=
  {| num_bullets := n; num_gates := g; initial_lives := l;
     player1 := mkPlayer "Player 1" 1 l [] true [];
     player2 := mkPlayer "Player 2" 2 l [] true [];
     current_player := P1;
     bullet_system := None;
     round_number := 0;
     game_over := false;
     winner := None;
     phase := gate_selection;
     gate_selection_player := 1;
     gate_applied_this_turn := false |}.

Definition deref (r : PlayerRef) (g : t) : Player :=
  match r with P1 => player1 g | P2 => player2 g end.

(** [player2 if player == player1 else player1]; [==] on a dataclass
    compares the fields. *)
Definition get_opponent (r : PlayerRef) (g : t) : PlayerRef :=
  if decide (deref r g = player1 g) then P2 else P1.

Definition set_player (r : PlayerRef) (p : Player) (g : t) : t :=
  {| num_bullets := num_bullets g; num_gates := num_gates g;
     initial_lives := initial_lives g;
     player1 := match r with P1 => p | P2 => player1 g end;
     player2 := match r with P1 => player2 g | P2 => p end;
     current_player := current_player g;
     bullet_system := bullet_system g;
     round_number := round_number g;
     game_over := game_over g;
     winner := winner g;
     phase := phase g;
     gate_selection_player := gate_selection_player g;
     gate_applied_this_turn := gate_applied_this_turn g |}.

Definition set_bullet_system (b : QuantumBulletSystem.t) (g : t) : t :=
  {| num_bullets := num_bullets g; num_gates := num_gates g;
     initial_lives := initial_lives g;
     player1 := player1 g; player2 := player2 g;
     current_player := current_player g;
     bullet_system := Some b;
     round_number := round_number g;
     game_over := game_over g;
     winner := winner g;
     phase := phase g;
     gate_selection_player := gate_selection_player g;
     gate_applied_this_turn := gate_applied_this_turn g |}.

(** The turn bookkeeping [shoot], [apply_gate] and the phase changes
    write: current player, flag, phase, selecting player, outcome. *)
Definition set_turn (cur : PlayerRef) (flag : bool) (g : t) : t :=
  {| num_bullets := num_bullets g; num_gates := num_gates g;
     initial_lives := initial_lives g;
     player1 := player1 g; player2 := player2 g;
     current_player := cur;
     bullet_system := bullet_system g;
     round_number := round_number g;
     game_over := game_over g;
     winner := winner g;
     phase := phase g;
     gate_selection_player := gate_selection_player g;
     gate_applied_this_turn := flag |}.

Definition set_phase (ph : Phase) (sel : Z) (g : t) : t :=
  {| num_bullets := num_bullets g; num_gates := num_gates g;
     initial_lives := initial_lives g;
     player1 := player1 g; player2 := player2 g;
     current_player := current_player g;
     bullet_system := bullet_system g;
     round_number := round_number g;
     game_over := game_over g;
     winner := winner g;
     phase := ph;
     gate_selection_player := sel;
     gate_applied_this_turn := gate_applied_this_turn g |}.

Definition end_game (w : PlayerRef) (g : t) : t :=
  {| num_bullets := num_bullets g; num_gates := num_gates g;
     initial_lives := initial_lives g;
     player1 := player1 g; player2 := player2 g;
     current_player := current_player g;
     bullet_system := bullet_system g;
     round_number := round_number g;
     game_over := true;
     winner := Some w;
     phase := phase g;
     gate_selection_player := gate_selection_player g;
     gate_applied_this_turn := gate_applied_this_turn g |}.

(** [start_new_round()].  [live_positions] is the outcome of the two
    random draws ([randint] for the count, [sample] for the places).
    With fewer than two bullets the range [max(1, int(0.3 n)) .. n - 1]
    is empty and [randint] raises. *)
Definition start_new_round (live_positions : list Z) (g : t) : option t :=
  if decide (num_bullets g < 2) then None else
  sys ← QuantumBulletSystem.init (num_bullets g);
  Some {| num_bullets := num_bullets g; num_gates := num_gates g;
          initial_lives := initial_lives g;
          player1 := reset_for_new_round (player1 g);
          player2 := reset_for_new_round (player2 g);
          current_player := current_player g;
          bullet_system :=
            Some (QuantumBulletSystem.initialize_bullets live_positions sys);
          round_number := round_number g + 1;
          game_over := game_over g;
          winner := winner g;
          phase := gate_selection;
          gate_selection_player := 1;
          gate_applied_this_turn := false |}.

Definition submit_gate_selection (player_id : Z) (selected_gates : list GateType.t)
    (g : t) : bool * t :=
  if decide (Z.of_nat (length selected_gates) ≠ num_gates g) then (false, g) else
  let r := if decide (player_id = 1) then P1 else P2 in
  let g1 := set_player r (set_gates selected_gates (deref r g)) g in
  let g2 := if decide (player_id = 1)
            then set_phase (phase g1) 2 g1
            else set_phase show_bullets (gate_selection_player g1) g1 in
  (true, g2).

Definition start_playing_phase (g : t) : t :=
  set_turn P1 false (set_phase playing (gate_selection_player g) g).

Definition apply_gate (gate_type : GateType.t) (target1 target2 : Z) (g : t)
  : option ((bool * Message) * t) :=
  if decide (phase g ≠ playing) then Some ((false, msg_gates_outside_playing), g) else
  if game_over g then Some ((false, msg_game_is_over), g) else
  if gate_applied_this_turn g then Some ((false, msg_one_gate_per_turn), g) else
  let player := current_player g in
  if negb (has_gate gate_type (deref player g))
  then Some ((false, msg_not_available gate_type), g) else
  sys ← bullet_system g;
  '(ok, sys') ← QuantumBulletSystem.apply_gate gate_type target1 target2 sys;
  if ok : bool then
    let g1 := set_bullet_system sys' g in
    let g2 := set_player player (use_gate gate_type (deref player g1)).2 g1 in
    let g3 := set_player player
                (record_gate_application gate_type target1 target2 (deref player g2)) g2 in
    let g4 := set_turn (current_player g3) true g3 in
    Some ((true, if GateType.is_two_qubit gate_type
                 then msg_applied_two gate_type target1 target2
                 else msg_applied_one gate_type target1), g4)
  else Some ((false, msg_failed_to_apply), set_bullet_system sys' g).

Definition shoot (shoot_self : bool) (sample : bool) (g : t)
  : option (ShotResult * t) :=
  if decide (phase g ≠ playing) then Some (ShotFailed msg_shoot_outside_playing, g) else
  if game_over g then Some (ShotFailed msg_game_is_over, g) else
  let shooter := current_player g in
  let target := if shoot_self then shooter else get_opponent shooter g in
  sys ← bullet_system g;
  '((bullet_idx, result), sys') ← QuantumBulletSystem.fire_next_bullet sample sys;
  let g0 := set_bullet_system sys' g in
  if decide (bullet_idx < 0) then Some (ShotFailed msg_no_more_bullets, g0) else
  let live_shot := bool_decide (result = Some 1) in
  let g1 :=
    if live_shot then
      let '(still_alive, target') := take_damage (deref target g0) in
      let gd := set_player target target' g0 in
      if negb still_alive then end_game (get_opponent target gd) gd
      else set_turn (get_opponent shooter gd) false gd
    else if shoot_self then set_turn (current_player g0) false g0
    else set_turn (get_opponent shooter g0) false g0 in
  let info :=
    {| shooter_name := name (deref shooter g);
       shooter_id := player_id (deref shooter g);
       target_name := name (deref target g);
       target_id := player_id (deref target g);
       bullet_index := bullet_idx;
       is_live := live_shot;
       shot_self := shoot_self;
       extra_turn := negb live_shot && shoot_self;
       damage_dealt := live_shot;
       target_lives_remaining := lives (deref target g1);
       round_over := QuantumBulletSystem.all_measured sys' && negb (game_over g1);
       info_game_over := game_over g1;
       info_winner :=
         if game_over g1 then (λ w, name (deref w g1)) <$> winner g1 else None |} in
  Some (ShotOk info, g1).

Definition use_peek (g : t) : (bool * list Gate) * t :=
  if decide (phase g ≠ playing) then ((false, []), g) else
  let player := current_player g in
  let opponent := get_opponent player g in
  if negb (peek_available (deref player g)) then ((false, []), g) else
  let g1 := set_player player (spend_peek (deref player g)) g in
  ((true, get_available_gates (deref opponent g1)), g1).

(** [any(t1 == i or t2 == i for _, t1, t2 in history)] *)
Definition player_modified (i : Z) (p : Player) : bool :=
  existsb (λ rec : GateType.t * Z * Z, bool_decide (rec.1.2 = i ∨ rec.2 = i))
          (applied_gates_history p).

Section Visibility.
Context `{Sim : Simulator}.

(** The body of the loop of [get_visible_bullet_states]. *)
Definition visible_state (player : Player) (sys : QuantumBulletSystem.t) (i : Z)
  : option Category :=
  m ← py_get (QuantumBulletSystem.measured sys) i;
  if m : bool then
    r ← py_get (QuantumBulletSystem.measurement_results sys) i;
    Some (if decide (r = Some 1) then fired_live else fired_blank)
  else if player_modified i player
  then QuantumBulletSystem.get_bullet_state_category i sys
  else Some (if decide (i ∈ QuantumBulletSystem.initial_live_positions sys)
             then live else blank).

Definition get_visible_bullet_states (for_player_id : Z) (g : t)
  : option (list Category) :=
  match bullet_system g with
  | None => Some []
  | Some sys =>
      let player := if decide (for_player_id = 1) then player1 g else player2 g in
      mapM (visible_state player sys) (seqZ 0 (num_bullets g))
  end.
End Visibility.

Definition get_initial_bullet_config (g : t) : Z * list Z :=
  match bullet_system g with
  | Some sys => (num_bullets g, QuantumBulletSystem.initial_live_positions sys)
  | None => (num_bullets g, [])
  end.

End QuantumBuckshotGame.

(** ** An exact simulator

    Every amplitude a circuit of these gates can reach lies in the
    rationals extended by [w = exp(i pi / 4)], where [w^4 = -1]: [i] is
    [w^2] and [sqrt 2] is [w - w^3].  [Cyc] holds the four rational
    coordinates; a probability is [x + y * sqrt 2] with [x], [y]
    rational.  This instance runs the definitions above on concrete
    chambers. *)
Module Exact.
Local Open Scope Q_scope.

Record Cyc := cyc { c0 : Q; c1 : Q; c2 : Q; c3 : Q }.

Definition czero : Cyc := cyc 0 0 0 0.
Definition cone : Cyc := cyc 1 0 0 0.
Definition ci : Cyc := cyc 0 0 1 0.
Definition cw : Cyc := cyc 0 1 0 0.
Definition cw_inv : Cyc := cyc 0 0 0 (-1).
(** [1 / sqrt 2 = (w - w^3) / 2] *)
Definition cinv_sqrt2 : Cyc := cyc 0 (1 # 2) 0 (- (1 # 2)).

Definition cadd (a b : Cyc) : Cyc :=
  cyc (Qred (c0 a + c0 b)) (Qred (c1 a + c1 b))
      (Qred (c2 a + c2 b)) (Qred (c3 a + c3 b)).

Definition cneg (a : Cyc) : Cyc :=
  cyc (Qred (- c0 a)) (Qred (- c1 a)) (Qred (- c2 a)) (Qred (- c3 a)).

Definition cmul (a b : Cyc) : Cyc :=
  cyc (Qred (c0 a * c0 b - c1 a * c3 b - c2 a * c2 b - c3 a * c1 b))
      (Qred (c0 a * c1 b + c1 a * c0 b - c2 a * c3 b - c3 a * c2 b))
      (Qred (c0 a * c2 b + c1 a * c1 b + c2 a * c0 b - c3 a * c3 b))
      (Qred (c0 a * c3 b + c1 a * c2 b + c2 a * c1 b + c3 a * c0 b)).

Definition cconj (a : Cyc) : Cyc :=
  cyc (c0 a) (Qred (- c3 a)) (Qred (- c2 a)) (Qred (- c1 a)).

(** A real of the form [x + y * sqrt 2]. *)
Definition Real2 : Type := Q * Q.

Definition cabs2 (a : Cyc) : Real2 :=
  let r := cmul a (cconj a) in (c0 r, c1 r).

Definition radd (p q : Real2) : Real2 := (Qred (p.1 + q.1), Qred (p.2 + q.2)).

Definition Qpos (x : Q) : bool := negb (Qle_bool x 0).

(** [0 < x + y * sqrt 2] *)
Definition rpos (p : Real2) : bool :=
  let '(x, y) := p in
  if Qle_bool 0 x then
    if Qle_bool 0 y then Qpos x || Qpos y
    else Qpos (x * x - 2 * (y * y))
  else
    if Qle_bool y 0 then false
    else Qpos (2 * (y * y) - x * x).

Definition scale (a : Cyc) : Cyc := cmul cinv_sqrt2 a.

Definition cmatrix (u : Unitary1) (a0 a1 : Cyc) : Cyc * Cyc :=
  match u with
  | UX => (a1, a0)
  | UY => (cneg (cmul ci a1), cmul ci a0)
  | UZ => (a0, cneg a1)
  | UH => (scale (cadd a0 a1), scale (cadd a0 (cneg a1)))
  | URX => (scale (cadd a0 (cneg (cmul ci a1))), scale (cadd (cneg (cmul ci a0)) a1))
  | URY => (scale (cadd a0 (cneg a1)), scale (cadd a0 a1))
  | URZ => (cmul cw_inv a0, cmul cw a1)
  end.

#[global] Instance simulator : Simulator := {|
  amp := Cyc;
  prob := Real2;
  amp_zero := czero;
  amp_one := cone;
  matrix := cmatrix;
  abs2 := cabs2;
  prob_zero := (0, 0);
  prob_one := (1, 0);
  prob_half := (1 # 2, 0);
  prob_add := radd;
  gt_099 := λ p, rpos (p.1 - (99 # 100), p.2);
  lt_001 := λ p, rpos ((1 # 100) - p.1, - p.2);
  runs := λ _, true
|}.
End Exact.

(** ** Runs and invariants of the chamber *)

Module QBS := QuantumBulletSystem.
Module Game := QuantumBuckshotGame.

(** The three lists the constructor sizes by [num_bullets] keep that
    size: nothing but an indexed assignment ever writes to them. *)
Definition well_sized (s : QBS.t) : Prop :=
  0 ≤ QBS.num_bullets s
  ∧ Z.of_nat (length (QBS.measured s)) = QBS.num_bullets s
  ∧ Z.of_nat (length (QBS.measurement_results s)) = QBS.num_bullets s.

(** The queue pointer is past the chamber or on an unmeasured position. *)
Definition queue_inv (s : QBS.t) : Prop :=
  0 ≤ QBS.current_bullet_index s
  ∧ (QBS.current_bullet_index s < QBS.num_bullets s →
     py_get (QBS.measured s) (QBS.current_bullet_index s) = Some false).

(** Every partner the ledger names is a position of the chamber. *)
Definition ledger_in_range (s : QBS.t) : Prop :=
  ∀ a b, QBS.entanglements s !! a = Some b → 0 ≤ b < QBS.num_bullets s.

Definition chamber_inv (s : QBS.t) : Prop :=
  well_sized s ∧ queue_inv s ∧ ledger_in_range s.

(** What a call of [measure_bullet] that reaches a fresh position does. *)
Definition measures (q : Z) (v : option Z) (s s' : QBS.t) : Prop :=
  ∃ k x, py_norm (QBS.num_bullets s) q = Some k
    ∧ v = Some x
    ∧ QBS.num_bullets s' = QBS.num_bullets s
    ∧ QBS.measured s' = <[Z.to_nat k := true]> (QBS.measured s)
    ∧ QBS.measurement_results s' = <[Z.to_nat k := Some x]> (QBS.measurement_results s)
    ∧ QBS.initial_live_positions s' = QBS.initial_live_positions s
    ∧ QBS.advance (QBS.measured s') (QBS.num_bullets s) (QBS.current_bullet_index s + 1)
      = Some (QBS.current_bullet_index s').

(** The states a chamber object can be in: built by the constructor, then
    driven by any calls of its public methods that return. *)
Inductive reachable : QBS.t → Prop :=
| reach_init n s :
    QBS.init n = Some s → reachable s
| reach_initialize live s :
    reachable s → reachable (QBS.initialize_bullets live s)
| reach_apply_gate gt t1 t2 s ok s' :
    reachable s → QBS.apply_gate gt t1 t2 s = Some (ok, s') → reachable s'
| reach_measure q sample s v s' :
    reachable s → QBS.measure_bullet q sample s = Some (v, s') → reachable s'.

(** What a round does to its chamber: it fires the next bullet (with the
    bit the simulator samples) or applies a gate. *)
Inductive Call :=
| Fire (sample : bool)
| ApplyGate (gt : GateType.t) (target1 target2 : Z).

(** A sequence of calls; the result lists what the [fire_next_bullet]
    calls among them returned, in order. *)
Fixpoint run_calls (calls : list Call) (s : QBS.t)
  : option (list (Z * option Z) * QBS.t) :=
  match calls with
  | [] => Some ([], s)
  | Fire sample :: rest =>
      '(out, s1) ← QBS.fire_next_bullet sample s;
      '(outs, s2) ← run_calls rest s1;
      Some (out :: outs, s2)
  | ApplyGate gt t1 t2 :: rest =>
      '(_, s1) ← QBS.apply_gate gt t1 t2 s;
      run_calls rest s1
  end.

Definition is_fire (c : Call) : bool :=
  match c with Fire _ => true | ApplyGate _ _ _ => false end.

Definition sentinel : Z * option Z := (-1, Some (-1)).

(** The positions a run really fired: its results other than the sentinel. *)
Definition fired (outs : list (Z * option Z)) : list Z :=
  filter (λ p, 0 ≤ p) (fst <$> outs).

(** What one [fire_next_bullet] call does to the queue. *)
Definition fires_and_advances (s : QBS.t) (out : Z * option Z) (s' : QBS.t) : Prop :=
  let p := QBS.current_bullet_index s in
  out.1 = p
  ∧ 0 ≤ p < QBS.num_bullets s
  ∧ py_get (QBS.measured s) p = Some false
  ∧ py_get (QBS.measured s') p = Some true
  ∧ p < QBS.current_bullet_index s' ≤ QBS.num_bullets s
  ∧ (∀ q, p < q < QBS.current_bullet_index s' → py_get (QBS.measured s') q = Some true)
  ∧ (QBS.current_bullet_index s' < QBS.num_bullets s →
     py_get (QBS.measured s') (QBS.current_bullet_index s') = Some false).

(** The ledger names [p] as the partner of some position other than [a], [b]. *)
Definition names_as_partner (e : gmap Z Z) (p a b : Z) : Prop :=
  ∃ c, c ≠ a ∧ c ≠ b ∧ e !! c = Some p.

Definition symmetric_ledger (e : gmap Z Z) : Prop :=
  ∀ a b, e !! a = Some b → e !! b = Some a.

(** ** Invariants of the game *)

(** The constructor names the two players apart and nothing renames them. *)
Definition distinct_players (g : Game.t) : Prop :=
  name (Game.player1 g) ≠ name (Game.player2 g).

(** The game and its chamber agree on the number of bullets. *)
Definition chamber_ok (g : Game.t) (sys : QBS.t) : Prop :=
  Game.bullet_system g = Some sys
  ∧ QBS.num_bullets sys = Game.num_bullets g
  ∧ well_sized sys.

(** What every game built by the constructor and driven through its
    commands satisfies. *)
Definition game_inv (g : Game.t) : Prop :=
  distinct_players g
  ∧ ∀ sys, Game.bullet_system g = Some sys →
      QBS.num_bullets sys = Game.num_bullets g ∧ chamber_inv sys.

Definition other (r : PlayerRef) : PlayerRef :=
  match r with P1 => P2 | P2 => P1 end.

(** ** Building concrete chambers and games *)

(** A chamber built and initialised the way [start_new_round] does it. *)
Definition new_chamber (n : Z) (live : list Z) : QBS.t :=
  QBS.initialize_bullets live
    (default (QBS.mk 0 [] ∅ [] [] [] 0 None) (QBS.init n)).

(** The chamber a call leaves behind. *)
Definition then_gate (gt : GateType.t) (t1 t2 : Z) (s : QBS.t) : QBS.t :=
  from_option snd s (QBS.apply_gate gt t1 t2 s).

Definition then_measure (q : Z) (sample : bool) (s : QBS.t) : QBS.t :=
  from_option snd s (QBS.measure_bullet q sample s).

(** Three positions; 0 is entangled with 1, then 0 is the control of a
    second Controlled-X on 2. *)
Definition twice_controlled : QBS.t :=
  then_gate GateType.CNOT 0 2 (then_gate GateType.CNOT 0 1 (new_chamber 3 [])).

(** Three positions; 1 and 0 were entangled and 0 has been fired with a
    live outcome, so 1 holds a deferred outcome. *)
Definition deferred_one : QBS.t :=
  then_measure 0 true (then_gate GateType.CNOT 1 0 (new_chamber 3 [])).

(** Four positions, 1 and 3 live, a Hadamard on 0 and a Controlled-X
    from 0 to 2. *)
Definition bell_chamber : QBS.t :=
  then_gate GateType.CNOT 0 2 (then_gate GateType.H 0 (-1) (new_chamber 4 [1; 3])).

(** The game a call leaves behind. *)
Definition then_round (live : list Z) (g : Game.t) : Game.t :=
  default g (Game.start_new_round live g).

Definition then_submit (player_id : Z) (sel : list GateType.t) (g : Game.t) : Game.t :=
  (Game.submit_gate_selection player_id sel g).2.

Definition then_apply (gt : GateType.t) (t1 t2 : Z) (g : Game.t) : Game.t :=
  from_option snd g (Game.apply_gate gt t1 t2 g).

Definition then_shoot (shoot_self sample : bool) (g : Game.t) : Game.t :=
  from_option snd g (Game.shoot shoot_self sample g).

(** A game taken through one round's set-up into the playing phase. *)
Definition playing_game (n lives : Z) (live : list Z) (sel1 sel2 : list GateType.t)
  : Game.t :=
  Game.start_playing_phase
    (then_submit 2 sel2
       (then_submit 1 sel1
          (then_round live (Game.init n (Z.of_nat (length sel1)) lives)))).

(** Two bullets, the first live, one life each: player 1 shoots player 2
    and the match is over. *)
Definition finished_game : Game.t :=
  then_shoot false true (playing_game 2 1 [0] [GateType.X] [GateType.X]).

(** The chamber of a game that has one. *)
Definition chamber_of (g : Game.t) : QBS.t :=
  default (new_chamber 0 []) (Game.bullet_system g).

(** Four bullets, 1 and 3 live, three lives each.  Player 1 puts a
    Hadamard on 0 and fires 0 at itself (blank), then flips 1. *)
Definition midgame : Game.t :=
  then_apply GateType.X 1 (-1)
    (then_shoot true false
       (then_apply GateType.H 0 (-1)
          (playing_game 4 3 [1; 3] [GateType.H; GateType.X] [GateType.CNOT; GateType.Z]))).

(** ** Further notions used by the facts below *)

(** The targets [apply_gate] accepts. *)
Definition valid_targets (gt : GateType.t) (t1 t2 : Z) (s : QBS.t) : Prop :=
  0 ≤ t1 < QBS.num_bullets s
  ∧ py_get (QBS.measured s) t1 = Some false
  ∧ (GateType.is_two_qubit gt = true →
     0 ≤ t2 < QBS.num_bullets s
     ∧ py_get (QBS.measured s) t2 = Some false
     ∧ t1 ≠ t2).

(** A chamber after any number of gates and measurements (no
    re-initialisation in between). *)
Inductive evolves : QBS.t → QBS.t → Prop :=
| evolves_refl s : evolves s s
| evolves_gate gt t1 t2 s s1 ok s' :
    evolves s s1 → QBS.apply_gate gt t1 t2 s1 = Some (ok, s') → evolves s s'
| evolves_measure q sample s s1 v s' :
    evolves s s1 → QBS.measure_bullet q sample s1 = Some (v, s') → evolves s s'.

Definition is_bit (v : Z) : Prop := v = 0 ∨ v = 1.

(** Recorded outcomes and deferred outcomes are bits; a position has a
    recorded outcome exactly if it is measured. *)
Definition outcomes_are_bits (s : QBS.t) : Prop :=
  (∀ q, 0 ≤ q < QBS.num_bullets s →
     match py_get (QBS.measured s) q with
     | Some true => ∃ v, py_get (QBS.measurement_results s) q = Some (Some v) ∧ is_bit v
     | Some false => py_get (QBS.measurement_results s) q = Some None
     | None => False
     end)
  ∧ (∀ c q v, QBS.collapsed_states s = Some c → c !! q = Some v → is_bit v).

(** Ledger entries join two different positions of the chamber. *)
Definition ledger_proper (s : QBS.t) : Prop :=
  ∀ a b, QBS.entanglements s !! a = Some b →
    0 ≤ a < QBS.num_bullets s ∧ 0 ≤ b < QBS.num_bullets s ∧ a ≠ b.

(** The basis state a list of Pauli-X gates on the all-blank state leads
    to: the index whose bits are the flipped positions. *)
Definition basis_index (l : list Z) : Z := foldr flip_bit 0 l.

(** What any arithmetic, floating point or exact, gives for the two
    definite amplitudes: [abs(0) ** 2 = 0.0], [abs(1) ** 2 = 1.0],
    [0.0 + 0.0 = 0.0], [0.0 + 1.0 = 1.0 + 0.0 = 1.0]; and for the two
    thresholds of the classifier at 0.0 and 1.0. *)
Definition definite_arithmetic `{Sim : Simulator} : Prop :=
  abs2 amp_zero = prob_zero
  ∧ abs2 amp_one = prob_one
  ∧ prob_add prob_zero prob_zero = prob_zero
  ∧ prob_add prob_zero prob_one = prob_one
  ∧ prob_add prob_one prob_zero = prob_one.

Definition sharp_thresholds `{Sim : Simulator} : Prop :=
  gt_099 prob_one = true
  ∧ gt_099 prob_zero = false
  ∧ lt_001 prob_zero = true.

(** How many unused gates of a kind an inventory holds. *)
Definition stock_in (gt : GateType.t) (gs : list Gate) : nat :=
  length (filter (λ g, matches gt g = true) gs).

Definition stock (gt : GateType.t) (p : Player) : nat := stock_in gt (gates p).

(** [k] calls of [use_gate] for the same kind, with what each returned. *)
Fixpoint use_times (k : nat) (gt : GateType.t) (p : Player) : list bool * Player :=
  match k with
  | O => ([], p)
  | S k' =>
      let '(ok, p1) := use_gate gt p in
      let '(oks, p2) := use_times k' gt p1 in
      (ok :: oks, p2)
  end.

(** The measured positions are exactly those before the queue pointer:
    the shape of a chamber that was only ever fired through
    [fire_next_bullet]. *)
Definition prefix_measured (s : QBS.t) : Prop :=
  0 ≤ QBS.current_bullet_index s ≤ QBS.num_bullets s
  ∧ ∀ q, 0 ≤ q < QBS.num_bullets s →
      py_get (QBS.measured s) q
      = Some (bool_decide (q < QBS.current_bullet_index s)).

Definition count_fires (calls : list Call) : Z :=
  Z.of_nat (length (filter is_fire calls)).

(** ** Reachable games *)

(** What [start_new_round] can draw: [random.sample] returns distinct
    positions of the chamber, and their number lies between 1 and one
    less than the size. *)
Definition valid_draw (n : Z) (positions : list Z) : Prop :=
  NoDup positions
  ∧ (∀ p, p ∈ positions → 0 ≤ p < n)
  ∧ 1 ≤ Z.of_nat (length positions) ≤ n - 1.

(** The games the constructor and the commands of the controller lead to,
    in any order and with any arguments. *)
Inductive game_reachable : Game.t → Prop :=
| greach_init n k l :
    game_reachable (Game.init n k l)
| greach_round positions g g' :
    game_reachable g → valid_draw (Game.num_bullets g) positions →
    Game.start_new_round positions g = Some g' → game_reachable g'
| greach_submit player_id sel g :
    game_reachable g → game_reachable (Game.submit_gate_selection player_id sel g).2
| greach_playing g :
    game_reachable g → game_reachable (Game.start_playing_phase g)
| greach_apply gt t1 t2 g r g' :
    game_reachable g → Game.apply_gate gt t1 t2 g = Some (r, g') → game_reachable g'
| greach_shoot shoot_self sample g r g' :
    game_reachable g → Game.shoot shoot_self sample g = Some (r, g') → game_reachable g'
| greach_peek g :
    game_reachable g → game_reachable (Game.use_peek g).2.

(** The score of a game: lives, end of game, winner. *)
Definition same_score (g g' : Game.t) : Prop :=
  Game.initial_lives g' = Game.initial_lives g
  ∧ lives (Game.player1 g') = lives (Game.player1 g)
  ∧ lives (Game.player2 g') = lives (Game.player2 g)
  ∧ Game.game_over g' = Game.game_over g
  ∧ Game.winner g' = Game.winner g.

(** The score is consistent: lives stay between 0 and the initial
    number; while the game is on both players are alive and there is no
    winner; once it is over the winner is alive and the other player has
    no life left. *)
Definition score_consistent (g : Game.t) : Prop :=
  0 ≤ lives (Game.player1 g) ≤ Game.initial_lives g
  ∧ 0 ≤ lives (Game.player2 g) ≤ Game.initial_lives g
  ∧ if Game.game_over g
    then ∃ w, Game.winner g = Some w
           ∧ 0 < lives (Game.deref w g)
           ∧ lives (Game.deref (other w) g) = 0
    else Game.winner g = None
         ∧ 0 < lives (Game.player1 g) ∧ 0 < lives (Game.player2 g).

(** The chamber of a game was only ever fired through the queue. *)
Definition round_chamber (g : Game.t) : Prop :=
  ∀ sys, Game.bullet_system g = Some sys →
    QBS.num_bullets sys = Game.num_bullets g
    ∧ chamber_inv sys ∧ prefix_measured sys.

(** The game [midgame] grew out of by player 1's second gate. *)
Definition midgame_before : Game.t :=
  then_shoot true false
    (then_apply GateType.H 0 (-1)
       (playing_game 4 3 [1; 3] [GateType.H; GateType.X] [GateType.CNOT; GateType.Z])).

(** Two bullets, both fired blank by player 1 at itself: the round is
    over, the game is not. *)
Definition spent_round : Game.t :=
  then_shoot true false
    (then_shoot true false (playing_game 2 3 [0] [GateType.X] [GateType.X])).

(** A game put into the playing phase without any round: player 1 has
    selected, no chamber exists. *)
Definition roundless_game : Game.t :=
  Game.start_playing_phase (then_submit 1 [GateType.X] (Game.init 2 1 1)).

(** ** Sequences of engine calls *)

(** A call of one of the two state-changing methods of the engine;
    [sample] is the bit the simulator's one-shot run returns. *)
Inductive Op :=
| DoGate (gt : GateType.t) (target1 target2 : Z)
| DoMeasure (qubit : Z) (sample : bool).

Definition exec (o : Op) (s : QBS.t) : option QBS.t :=
  match o with
  | DoGate gt t1 t2 => snd <$> QBS.apply_gate gt t1 t2 s
  | DoMeasure q sample => snd <$> QBS.measure_bullet q sample s
  end.

(** The calls run in order, each one passing the test [ok] on the state
    it is made in. *)
Fixpoint run_while (ok : Op → QBS.t → bool) (ops : list Op) (s : QBS.t)
  : option QBS.t :=
  match ops with
  | [] => Some s
  | o :: rest => if ok o s then s' ← exec o s; run_while ok rest s' else None
  end.

(** A call that leaves the deferred outcome of [b] alone: any gate, and
    the measurement of another position whose ledger entry does not name
    [b]. *)
Definition spares_cache (b : Z) (o : Op) (s : QBS.t) : bool :=
  match o with
  | DoGate _ _ _ => true
  | DoMeasure q _ =>
      bool_decide (0 ≤ q ∧ q ≠ b ∧ QBS.entanglements s !! q ≠ Some b)
  end.

(** Two different unmeasured positions, the ledger entry of the first
    naming the second. *)
Definition entangled_pair (a b : Z) (s : QBS.t) : Prop :=
  0 ≤ a ∧ a ≠ b
  ∧ QBS.entanglements s !! a = Some b
  ∧ py_get (QBS.measured s) a = Some false
  ∧ py_get (QBS.measured s) b = Some false.

(** Modelled from the spec: the Born-rule probability with which the
    simulator's one-shot run returns [sample] for [q], which is not in
    the repository.  It is the marginal of the statevector of the
    circuit; a measured position takes no further gate, so the
    measurements already in the circuit do not change it.  Computed in
    exact arithmetic. *)
Definition born (s : QBS.t) (q : Z) (sample : bool) : Exact.Real2 :=
  let pr := @marginal Exact.simulator (QBS.num_bullets s)
              (@run_statevector Exact.simulator (QBS.circuit s)) q in
  if sample then pr.2 else pr.1.

(** [measure_bullet] reads the sampled bit only for a position that is
    neither measured nor holding a deferred outcome. *)
Definition reads_sample (q : Z) (s : QBS.t) : bool :=
  bool_decide (py_get (QBS.measured s) q = Some false
               ∧ QBS.collapsed_states s ≫= (λ c, c !! q) = None).

(** A call the real simulator can produce: where the sampled bit is
    read, it has positive probability. *)
Definition plausible (o : Op) (s : QBS.t) : bool :=
  match o with
  | DoGate _ _ _ => true
  | DoMeasure q sample => negb (reads_sample q s) || Exact.rpos (born s q sample)
  end.

(** Three positions, 1 live.  A Controlled-X from 0 to 1 leaves 1 live,
    0 is fired (blank, the only outcome the simulator can give) and its
    outcome is cached for 1. *)
Definition relabelled_one : QBS.t :=
  then_measure 0 false (then_gate GateType.CNOT 0 1 (new_chamber 3 [1])).

(** Three positions, 0 live, a Controlled-X from 0 to 2. *)
Definition live_pair : QBS.t :=
  then_gate GateType.CNOT 0 2 (new_chamber 3 [0]).

(** ** A second target given with a single-position gate *)



(** * Facts *)

(** ** Python indexing *)

Section PyIndex.
Context {A : Type}.
Implicit Types (l : list A) (i k : Z).

Lemma py_norm_in_range n i : 0 ≤ i < n → py_norm n i = Some i.
Proof. intros Hi. unfold py_norm. by rewrite decide_True. Qed.

Lemma py_norm_nonneg n i k : 0 ≤ i → py_norm n i = Some k → k = i ∧ i < n.
Proof. unfold py_norm. repeat case_decide; intros ? [= <-]; lia. Qed.

Lemma py_get_in_range l i :
  0 ≤ i < Z.of_nat (length l) → py_get l i = l !! Z.to_nat i.
Proof. intros Hi. unfold py_get. by rewrite py_norm_in_range. Qed.

Lemma py_get_nonneg l i x :
  0 ≤ i → py_get l i = Some x →
  i < Z.of_nat (length l) ∧ l !! Z.to_nat i = Some x.
Proof.
  intros Hi. unfold py_get.
  destruct (py_norm _ i) as [k|] eqn:Hk; simpl; [|done].
  apply py_norm_nonneg in Hk as [-> ?]; done.
Qed.

Lemma py_get_total l i :
  0 ≤ i < Z.of_nat (length l) → is_Some (py_get l i).
Proof.
  intros Hi. rewrite py_get_in_range by done.
  apply lookup_lt_is_Some. lia.
Qed.

Lemma py_set_in_range l i v :
  0 ≤ i < Z.of_nat (length l) → py_set l i v = Some (<[Z.to_nat i := v]> l).
Proof. intros Hi. unfold py_set. by rewrite py_norm_in_range. Qed.

Lemma py_get_set_eq l i v :
  0 ≤ i < Z.of_nat (length l) → py_get (<[Z.to_nat i := v]> l) i = Some v.
Proof.
  intros Hi. rewrite py_get_in_range by (rewrite length_insert; lia).
  apply list_lookup_insert_eq. lia.
Qed.

Lemma py_get_set_ne l i j v :
  0 ≤ i → 0 ≤ j → i ≠ j →
  py_get (<[Z.to_nat i := v]> l) j = py_get l j.
Proof.
  intros Hi Hj Hne. unfold py_get. rewrite length_insert.
  destruct (py_norm _ j) as [k|] eqn:Hk; simpl; [|done].
  apply py_norm_nonneg in Hk as [-> ?]; [|done].
  apply list_lookup_insert_ne. lia.
Qed.
End PyIndex.

(** ** The pointer loop *)

Lemma advance_unfold ms n i :
  QBS.advance ms n i =
  if decide (i < n) then
    b ← py_get ms i; if b : bool then QBS.advance ms n (i + 1) else Some i
  else Some i.
Proof.
  unfold QBS.advance. case_decide as Hi.
  - replace (Z.to_nat (n - i)) with (S (Z.to_nat (n - (i + 1)))) by lia.
    simpl. by rewrite decide_True.
  - replace (Z.to_nat (n - i)) with O by lia. done.
Qed.

(** The loop returns: it stops on the first unmeasured position from [i]
    on, or at the end of the chamber. *)
Lemma advance_spec ms n i :
  0 ≤ i → n ≤ Z.of_nat (length ms) →
  ∃ j, QBS.advance ms n i = Some j
       ∧ i ≤ j ∧ (j ≤ n ∨ j = i)
       ∧ (∀ q, i ≤ q < j → py_get ms q = Some true)
       ∧ (j < n → py_get ms j = Some false).
Proof.
  intros Hi Hn.
  remember (Z.to_nat (n - i)) as fuel eqn:Hf.
  revert i Hi Hf. induction fuel as [|fuel IH]; intros i Hi Hf.
  - exists i. rewrite advance_unfold, decide_False by lia.
    repeat split; lia.
  - rewrite advance_unfold, decide_True by lia.
    destruct (py_get_total ms i) as [b Hb]; [lia|]. rewrite Hb. simpl.
    destruct b.
    + destruct (IH (i + 1)) as (j & Hj & ? & ? & Hall & Hstop); [lia|lia|].
      exists j. rewrite Hj. split_and!; try done; try lia.
      intros q Hq. destruct (decide (q = i)) as [->|]; [done|]. apply Hall. lia.
    + exists i. split_and!; try done; lia.
Qed.

(** ** The chamber keeps its shape *)

Lemma init_inv n s : QBS.init n = Some s → well_sized s ∧ queue_inv s.
Proof.
  unfold QBS.init. case_decide; [done|]. intros [= <-].
  unfold well_sized, queue_inv; simpl. rewrite !length_replicate.
  split_and!; try lia. intros Hn.
  rewrite py_get_in_range by (rewrite length_replicate; lia).
  apply lookup_replicate_2. lia.
Qed.

Lemma initialize_inv live s :
  0 ≤ QBS.num_bullets s →
  well_sized (QBS.initialize_bullets live s) ∧ queue_inv (QBS.initialize_bullets live s).
Proof.
  intros Hn. unfold well_sized, queue_inv; simpl. rewrite !length_replicate.
  split_and!; try lia. intros ?.
  rewrite py_get_in_range by (rewrite length_replicate; lia).
  apply lookup_replicate_2. lia.
Qed.

(** A gate touches the circuit and the ledger only; a refused gate
    changes nothing. *)
Lemma apply_gate_frame gt t1 t2 s ok s' :
  QBS.apply_gate gt t1 t2 s = Some (ok, s') →
  QBS.num_bullets s' = QBS.num_bullets s
  ∧ QBS.measured s' = QBS.measured s
  ∧ QBS.measurement_results s' = QBS.measurement_results s
  ∧ QBS.initial_live_positions s' = QBS.initial_live_positions s
  ∧ QBS.current_bullet_index s' = QBS.current_bullet_index s
  ∧ QBS.collapsed_states s' = QBS.collapsed_states s
  ∧ (ok = false → s' = s).
Proof.
  assert (Hd : ∀ s0, let s1 := QBS.dispatch gt t1 t2 s0 in
    QBS.num_bullets s1 = QBS.num_bullets s0
    ∧ QBS.measured s1 = QBS.measured s0
    ∧ QBS.measurement_results s1 = QBS.measurement_results s0
    ∧ QBS.initial_live_positions s1 = QBS.initial_live_positions s0
    ∧ QBS.current_bullet_index s1 = QBS.current_bullet_index s0
    ∧ QBS.collapsed_states s1 = QBS.collapsed_states s0)
    by (intros s0; by destruct gt).
  unfold QBS.apply_gate. intros H.
  repeat match type of H with
  | (if ?c then _ else _) = _ => destruct c
  | (mbind _ ?o) = _ => destruct o as [[]|]; simpl in H
  end; simplify_eq; try done; destruct (Hd s) as (?&?&?&?&?&?); by split_and!.
Qed.

Lemma measure_bullet_cases q sample s v s' :
  well_sized s →
  QBS.measure_bullet q sample s = Some (v, s') →
  (py_get (QBS.measured s) q = Some true ∧ s' = s
   ∧ py_get (QBS.measurement_results s) q = Some v)
  ∨ (py_get (QBS.measured s) q = Some false ∧ measures q v s s').
Proof.
  intros (Hn & Hm & Hr). unfold QBS.measure_bullet, measures.
  destruct (py_get (QBS.measured s) q) as [[]|] eqn:Hq; simpl; [| |done].
  - destruct (py_get (QBS.measurement_results s) q) eqn:?; simpl; [|done].
    intros [= <- <-]. by left.
  - intros H. right. split; [done|].
    unfold py_set in H. rewrite Hm, Hr in H.
    destruct (QBS.collapsed_states s ≫= _) as [x|] eqn:Hc.
    + destruct (py_norm (QBS.num_bullets s) q) as [k|] eqn:Hk; simpl in H; [|done].
      destruct (QBS.advance _ _ _) as [idx|] eqn:Hadv; simpl in H; [|done].
      injection H as <- <-. simpl. by exists k, x.
    + destruct (py_norm (QBS.num_bullets s) q) as [k|] eqn:Hk; simpl in H; [|done].
      destruct (if _ && _ then _ else _) as [c|]; simpl in H; [|done].
      destruct (QBS.advance _ _ _) as [idx|] eqn:Hadv; simpl in H; [|done].
      injection H as <- <-. simpl. by exists k, (Z.b2z sample).
Qed.

Lemma measure_bullet_inv q sample s v s' :
  well_sized s → queue_inv s →
  QBS.measure_bullet q sample s = Some (v, s') →
  well_sized s' ∧ queue_inv s'.
Proof.
  intros Hws Hq H.
  destruct (measure_bullet_cases _ _ _ _ _ Hws H)
    as [(_ & -> & _)|(_ & k & x & Hk & _ & HN & Hm & Hr & _ & Hadv)]; [done|].
  destruct Hws as (Hn & Hlm & Hlr). destruct Hq as (Hp & _).
  assert (Hlen : Z.of_nat (length (QBS.measured s')) = QBS.num_bullets s)
    by (by rewrite Hm, length_insert).
  split.
  - unfold well_sized. rewrite HN, Hr, length_insert. done.
  - destruct (advance_spec (QBS.measured s') (QBS.num_bullets s)
                (QBS.current_bullet_index s + 1)) as (j & Hj & ? & ? & _ & Hstop);
      [lia|lia|].
    rewrite Hadv in Hj. injection Hj as <-.
    unfold queue_inv. rewrite HN. split; [lia|done].
Qed.

Lemma apply_gate_success gt t1 t2 s s' :
  QBS.apply_gate gt t1 t2 s = Some (true, s') →
  0 ≤ t1 < QBS.num_bullets s
  ∧ py_get (QBS.measured s) t1 = Some false
  ∧ (GateType.is_two_qubit gt = true →
     0 ≤ t2 < QBS.num_bullets s ∧ py_get (QBS.measured s) t2 = Some false ∧ t1 ≠ t2)
  ∧ s' = QBS.dispatch gt t1 t2 s.
Proof.
  unfold QBS.apply_gate. intros H.
  destruct (decide (t1 < 0 ∨ _)); [done|].
  destruct (py_get (QBS.measured s) t1) as [[]|]; simpl in H; try done.
  destruct (GateType.is_two_qubit gt).
  - destruct (decide (t2 < 0 ∨ _)); [done|].
    destruct (py_get (QBS.measured s) t2) as [[]|]; simpl in H; try done.
    destruct (decide (t1 = t2)); [done|]. simplify_eq.
    split_and!; try done; try lia. intros _. split_and!; try done; lia.
  - simplify_eq. split_and!; try done; lia.
Qed.

(** A gate on two in-range, unmeasured positions is accepted. *)
Lemma apply_gate_accepts gt t1 t2 s :
  0 ≤ t1 < QBS.num_bullets s →
  py_get (QBS.measured s) t1 = Some false →
  (GateType.is_two_qubit gt = true →
   0 ≤ t2 < QBS.num_bullets s ∧ py_get (QBS.measured s) t2 = Some false ∧ t1 ≠ t2) →
  QBS.apply_gate gt t1 t2 s = Some (true, QBS.dispatch gt t1 t2 s).
Proof.
  intros H1 Hm1 H2. unfold QBS.apply_gate.
  rewrite decide_False by lia. rewrite Hm1. simpl.
  destruct (GateType.is_two_qubit gt); [|done].
  destruct H2 as (? & Hm2 & ?); [done|].
  rewrite decide_False by lia. rewrite Hm2. simpl.
  by rewrite decide_False.
Qed.

Lemma break_ledger_lookup q e a b :
  QBS.break_ledger q e !! a = Some b → e !! a = Some b.
Proof.
  unfold QBS.break_ledger. destruct (e !! q) as [p|]; [|done].
  intros H. apply lookup_delete_Some in H as [_ H].
  by apply lookup_delete_Some in H as [_ H].
Qed.

Lemma dispatch_ledger gt t1 t2 s :
  QBS.entanglements (QBS.dispatch gt t1 t2 s) =
  if GateType.is_two_qubit gt
  then <[t2 := t1]> (<[t1 := t2]> (QBS.break_ledger t2 (QBS.entanglements s)))
  else QBS.entanglements s.
Proof. by destruct gt. Qed.

Lemma apply_gate_ledger_in_range gt t1 t2 s ok s' :
  ledger_in_range s →
  QBS.apply_gate gt t1 t2 s = Some (ok, s') →
  ledger_in_range s'.
Proof.
  intros Hl H. destruct ok.
  - apply apply_gate_success in H as (H1 & _ & H2 & ->).
    intros a b. rewrite dispatch_ledger.
    replace (QBS.num_bullets (QBS.dispatch gt t1 t2 s)) with (QBS.num_bullets s)
      by (by destruct gt).
    destruct (GateType.is_two_qubit gt); [|apply Hl].
    destruct H2 as (? & _ & ?); [done|].
    intros Hab. apply lookup_insert_Some in Hab as [[_ <-]|[_ Hab]]; [lia|].
    apply lookup_insert_Some in Hab as [[_ <-]|[_ Hab]]; [lia|].
    eapply Hl, break_ledger_lookup, Hab.
  - apply apply_gate_frame in H as (_ & _ & _ & _ & _ & _ & ->); done.
Qed.

Lemma measure_bullet_ledger q sample s v s' :
  QBS.measure_bullet q sample s = Some (v, s') →
  QBS.entanglements s' = QBS.entanglements s
  ∨ QBS.entanglements s' = QBS.break_ledger q (QBS.entanglements s).
Proof.
  unfold QBS.measure_bullet. intros H.
  destruct (py_get (QBS.measured s) q) as [[]|]; simpl in H; [| |done].
  { destruct (py_get (QBS.measurement_results s) q); simplify_eq/=; auto. }
  destruct (QBS.collapsed_states s ≫= _).
  - destruct (py_set _ _ _), (py_set _ _ _); simpl in H; try done.
    destruct (QBS.advance _ _ _); simplify_eq/=; auto.
  - destruct (py_norm _ _); simpl in H; [|done].
    destruct (py_set _ _ _), (py_set _ _ _); simpl in H; try done.
    destruct (if _ && _ then _ else _) as [[]|]; simpl in H; try done;
      destruct (QBS.advance _ _ _); simplify_eq/=; auto.
Qed.

Lemma measure_bullet_ledger_in_range q sample s v s' :
  well_sized s → ledger_in_range s →
  QBS.measure_bullet q sample s = Some (v, s') →
  ledger_in_range s'.
Proof.
  intros Hws Hl H a b Hab.
  assert (QBS.num_bullets s' = QBS.num_bullets s) as ->.
  { destruct (measure_bullet_cases _ _ _ _ _ Hws H)
      as [(_ & -> & _)|(_ & k & x & _ & _ & HN & _)]; done. }
  destruct (measure_bullet_ledger _ _ _ _ _ H) as [He|He]; rewrite He in Hab.
  - by eapply Hl.
  - eapply Hl, break_ledger_lookup, Hab.
Qed.

Lemma reachable_inv s : reachable s → chamber_inv s.
Proof.
  induction 1 as [n s Hi|live s _ (IH & _)|gt t1 t2 s ok s' _ (IHw & IHq & IHl) Hg
                 |q sample s v s' _ (IHw & IHq & IHl) Hm].
  - destruct (init_inv _ _ Hi). split_and!; try done.
    unfold QBS.init in Hi. case_decide; [done|]. injection Hi as <-.
    intros a b. simpl. by rewrite lookup_empty.
  - destruct (initialize_inv live s) as [? ?]; [apply IH|].
    split_and!; try done; intros a b; simpl; by rewrite lookup_empty.
  - split_and!; [| |by eapply apply_gate_ledger_in_range].
    all: apply apply_gate_frame in Hg as (HN & Hm & Hr & _ & Hp & _).
    all: unfold well_sized, queue_inv; rewrite ?HN, ?Hm, ?Hr, ?Hp; done.
  - destruct (measure_bullet_inv _ _ _ _ _ IHw IHq Hm).
    split_and!; [done|done|]. by apply (measure_bullet_ledger_in_range q sample s v).
Qed.

(** [measure_bullet] returns on every position of the chamber. *)
Lemma measure_bullet_total q sample s :
  chamber_inv s → 0 ≤ q < QBS.num_bullets s →
  ∃ v s', QBS.measure_bullet q sample s = Some (v, s').
Proof.
  intros ((Hn & Hlm & Hlr) & (Hp & _) & Hl) Hq. unfold QBS.measure_bullet.
  destruct (py_get_total (QBS.measured s) q) as [m Hm]; [lia|]. rewrite Hm. simpl.
  destruct m.
  { destruct (py_get_total (QBS.measurement_results s) q) as [r Hr]; [lia|].
    rewrite Hr. simpl. eauto. }
  destruct (advance_spec (<[Z.to_nat q := true]> (QBS.measured s)) (QBS.num_bullets s)
              (QBS.current_bullet_index s + 1)) as (j & Hj & _);
    [lia|rewrite length_insert; lia|].
  destruct (QBS.collapsed_states s ≫= _) as [x|];
    rewrite !py_set_in_range by lia; rewrite ?py_norm_in_range by lia; simpl;
    rewrite Hj; simpl; [eauto|].
  destruct (QBS.entanglements s !! q) as [b|] eqn:Hb; simpl.
  - destruct (Hl _ _ Hb) as [? ?]. rewrite bool_decide_true by lia.
    destruct (py_get_total (<[Z.to_nat q := true]> (QBS.measured s)) b) as [c Hc];
      [rewrite length_insert; lia|].
    rewrite Hc. simpl. eauto.
  - eauto.
Qed.

Lemma new_chamber_reachable n live : reachable (new_chamber n live).
Proof.
  apply reach_initialize. destruct (QBS.init n) as [s|] eqn:Hi; simpl.
  - by eapply reach_init.
  - by apply (reach_init 0).
Qed.

Lemma then_gate_reachable gt t1 t2 s : reachable s → reachable (then_gate gt t1 t2 s).
Proof.
  intros Hr. unfold then_gate.
  destruct (QBS.apply_gate gt t1 t2 s) as [[ok s']|] eqn:Hg; simpl; [|done].
  by eapply reach_apply_gate.
Qed.

Lemma then_measure_reachable q sample s :
  reachable s → reachable (then_measure q sample s).
Proof.
  intros Hr. unfold then_measure.
  destruct (QBS.measure_bullet q sample s) as [[v s']|] eqn:Hm; simpl; [|done].
  by eapply reach_measure.
Qed.

Create HintDb chamber.

#[local] Hint Resolve new_chamber_reachable then_gate_reachable
  then_measure_reachable : chamber.

(** ** The entanglement ledger *)

(** Where the control of a Controlled-X holds no ledger entry, the call
    keeps a symmetric ledger symmetric and leaves no third position that
    names either target. *)
Lemma cnot_ledger_when_control_free a b s s' :
  symmetric_ledger (QBS.entanglements s) →
  QBS.entanglements s !! a = None →
  QBS.apply_gate GateType.CNOT a b s = Some (true, s') →
  QBS.entanglements s' !! a = Some b
  ∧ QBS.entanglements s' !! b = Some a
  ∧ symmetric_ledger (QBS.entanglements s')
  ∧ ¬ names_as_partner (QBS.entanglements s') a a b
  ∧ ¬ names_as_partner (QBS.entanglements s') b a b.
Proof.
  intros Hsym Ha H. apply apply_gate_success in H as (_ & _ & H2 & ->).
  destruct H2 as (_ & _ & Hne); [done|]. rewrite dispatch_ledger. simpl.
  set (e := QBS.entanglements s) in *.
  assert (Hold : ∀ c d, c ≠ a → c ≠ b →
            <[b:=a]> (<[a:=b]> (QBS.break_ledger b e)) !! c = Some d →
            e !! c = Some d ∧ d ≠ a ∧ d ≠ b).
  { intros c d Hca Hcb. rewrite !lookup_insert_ne by done.
    unfold QBS.break_ledger. destruct (e !! b) as [p|] eqn:Hb.
    - intros Hc. apply lookup_delete_Some in Hc as [Hcp Hc].
      apply lookup_delete_Some in Hc as [_ Hc]. split_and!; [done| |].
      + intros ->. apply Hsym in Hc. congruence.
      + intros ->. apply Hsym in Hc. congruence.
    - intros Hc. split_and!; [done| |]; intros ->; apply Hsym in Hc; congruence. }
  split_and!.
  - rewrite lookup_insert_ne by done. apply lookup_insert_eq.
  - apply lookup_insert_eq.
  - intros c d Hc.
    destruct (decide (c = b)) as [->|Hcb].
    { rewrite lookup_insert_eq in Hc. injection Hc as <-.
      rewrite lookup_insert_ne by done. apply lookup_insert_eq. }
    destruct (decide (c = a)) as [->|Hca].
    { rewrite lookup_insert_ne, lookup_insert_eq in Hc by done. injection Hc as <-.
      apply lookup_insert_eq. }
    destruct (Hold c d Hca Hcb Hc) as (Hc' & Hda & Hdb).
    rewrite !lookup_insert_ne by done.
    apply Hsym in Hc'. unfold QBS.break_ledger.
    destruct (e !! b) as [p|] eqn:Hb; [|done].
    rewrite !lookup_delete_ne; [done|done|].
    intros ->. apply Hsym in Hb. congruence.
  - intros (c & Hca & Hcb & Hc). by destruct (Hold c a Hca Hcb Hc) as (_ & ? & _).
  - intros (c & Hca & Hcb & Hc). by destruct (Hold c b Hca Hcb Hc) as (_ & _ & ?).
Qed.

(** C1, at the input where the code departs from it.  Position 0 is
    entangled with 1 and then made the control of a Controlled-X on 2:
    both calls succeed, the entry of the control is overwritten without
    [_break_entanglement] having been called on it, and position 1 still
    names 0 as its partner although 0 is now paired with 2. *)
Theorem cnot_keeps_stale_entry_of_control :
  QBS.apply_gate GateType.CNOT 0 1 (new_chamber 3 [])
    = Some (true, then_gate GateType.CNOT 0 1 (new_chamber 3 []))
  ∧ QBS.apply_gate GateType.CNOT 0 2 (then_gate GateType.CNOT 0 1 (new_chamber 3 []))
    = Some (true, twice_controlled)
  ∧ QBS.entanglements twice_controlled !! 0 = Some 2
  ∧ QBS.entanglements twice_controlled !! 2 = Some 0
  ∧ QBS.entanglements twice_controlled !! 1 = Some 0
  ∧ names_as_partner (QBS.entanglements twice_controlled) 0 0 2
  ∧ ¬ symmetric_ledger (QBS.entanglements twice_controlled).
Proof.
  split_and!; try by vm_compute.
  - exists 1. by vm_compute.
  - intros Hsym. specialize (Hsym 1 0). by vm_compute in Hsym; specialize (Hsym eq_refl).
Qed.

Lemma measure_bullet_chamber_inv q sample s v s' :
  chamber_inv s → QBS.measure_bullet q sample s = Some (v, s') → chamber_inv s'.
Proof.
  intros (Hw & Hq & Hl) H.
  destruct (measure_bullet_inv _ _ _ _ _ Hw Hq H).
  split_and!; [done|done|]. by apply (measure_bullet_ledger_in_range q sample s v).
Qed.

(** ** The firing queue *)

Lemma all_measured_lookup s q :
  QBS.all_measured s = true → 0 ≤ q < Z.of_nat (length (QBS.measured s)) →
  py_get (QBS.measured s) q = Some true.
Proof.
  unfold QBS.all_measured. rewrite forallb_forall. intros Hall Hq.
  destruct (py_get_total (QBS.measured s) q Hq) as [b Hb]. rewrite Hb.
  apply py_get_nonneg in Hb as [_ Hb]; [|lia].
  apply list_elem_of_lookup_2, list_elem_of_In, Hall in Hb. unfold id in Hb. by subst.
Qed.

(** One call: either the queue is exhausted and nothing happens, or the
    position under the pointer is fired and the pointer moves on. *)
Lemma fire_next_step sample s :
  chamber_inv s →
  (QBS.num_bullets s ≤ QBS.current_bullet_index s
   ∧ QBS.fire_next_bullet sample s = Some (sentinel, s))
  ∨ (∃ out s1, QBS.fire_next_bullet sample s = Some (out, s1)
       ∧ fires_and_advances s out s1
       ∧ chamber_inv s1
       ∧ QBS.num_bullets s1 = QBS.num_bullets s
       ∧ (∀ q, 0 ≤ q → q ≠ QBS.current_bullet_index s →
            py_get (QBS.measured s1) q = py_get (QBS.measured s) q)).
Proof.
  intros Hinv. unfold QBS.fire_next_bullet.
  destruct (decide (QBS.num_bullets s ≤ _)) as [Hge|Hlt]; [by left|right].
  pose proof Hinv as ((Hn & Hlm & Hlr) & (Hp & Hfresh) & Hl).
  set (p := QBS.current_bullet_index s) in *.
  destruct (measure_bullet_total p sample s Hinv) as (v & s1 & Hm); [lia|].
  rewrite Hm. simpl. exists (p, v), s1. split; [done|].
  pose proof (measure_bullet_chamber_inv _ _ _ _ _ Hinv Hm) as Hinv1.
  destruct (measure_bullet_cases p sample s v s1) as [(Ht & _)|(_ & Hmeas)];
    [done|done|rewrite Hfresh in Ht by lia; done|].
  destruct Hmeas as (k & x & Hk & _ & HN & Hms & _ & _ & Hadv).
  rewrite py_norm_in_range in Hk by lia. injection Hk as <-.
  destruct (advance_spec (QBS.measured s1) (QBS.num_bullets s) (p + 1))
    as (j & Hj & ? & ? & Hall & Hstop);
    [lia|rewrite Hms, length_insert; lia|].
  assert (j = QBS.current_bullet_index s1) as -> by (unfold p in *; congruence).
  split_and!; try done.
  - unfold fires_and_advances. fold p. simpl. split_and!; try done; try lia.
    + apply Hfresh. lia.
    + rewrite Hms. apply py_get_set_eq. lia.
    + intros q Hq. apply Hall. lia.
  - intros q Hq Hne. rewrite Hms. by apply py_get_set_ne.
Qed.

(** With every position measured, no gate is accepted. *)
Lemma apply_gate_refused_when_all_measured gt t1 t2 s :
  well_sized s → QBS.all_measured s = true →
  QBS.apply_gate gt t1 t2 s = Some (false, s).
Proof.
  intros (Hn & Hlm & _) Hall. unfold QBS.apply_gate.
  destruct (decide (t1 < 0 ∨ QBS.num_bullets s ≤ t1)) as [|Hin]; [done|].
  rewrite (all_measured_lookup s t1 Hall) by lia. done.
Qed.

Lemma apply_gate_total gt t1 t2 s :
  well_sized s → ∃ ok s', QBS.apply_gate gt t1 t2 s = Some (ok, s').
Proof.
  intros (Hn & Hlm & _). unfold QBS.apply_gate.
  case_decide; [by eauto|].
  destruct (py_get_total (QBS.measured s) t1) as [[] ->]; [lia| |]; simpl; [by eauto|].
  destruct (GateType.is_two_qubit gt); [|by eauto].
  case_decide; [by eauto|].
  destruct (py_get_total (QBS.measured s) t2) as [[] ->]; [lia| |]; simpl; [by eauto|].
  case_decide; by eauto.
Qed.

Lemma apply_gate_chamber_inv gt t1 t2 s ok s' :
  chamber_inv s → QBS.apply_gate gt t1 t2 s = Some (ok, s') → chamber_inv s'.
Proof.
  intros (Hw & Hq & Hl) Hg.
  split_and!; [| |by eapply apply_gate_ledger_in_range].
  all: apply apply_gate_frame in Hg as (HN & Hm & Hr & _ & Hp & _).
  all: unfold well_sized, queue_inv; rewrite ?HN, ?Hm, ?Hr, ?Hp; done.
Qed.

Lemma run_calls_exhausted calls s :
  well_sized s → QBS.all_measured s = true →
  QBS.num_bullets s ≤ QBS.current_bullet_index s →
  run_calls calls s
  = Some (replicate (length (filter is_fire calls)) sentinel, s).
Proof.
  intros Hw Hall Hge. induction calls as [|[r|gt t1 t2] rest IH]; [done| |].
  - simpl. unfold QBS.fire_next_bullet. rewrite decide_True by done. simpl.
    by rewrite IH.
  - simpl. rewrite (apply_gate_refused_when_all_measured gt t1 t2 s Hw Hall).
    simpl. by rewrite IH.
Qed.

Lemma fired_cons out outs :
  fired (out :: outs) = if decide (0 ≤ out.1) then out.1 :: fired outs else fired outs.
Proof. unfold fired. simpl. by rewrite filter_cons. Qed.

Lemma run_calls_sentinel_only calls s :
  chamber_inv s →
  QBS.num_bullets s ≤ QBS.current_bullet_index s →
  ∃ outs s', run_calls calls s = Some (outs, s')
    ∧ fired outs = []
    ∧ QBS.measured s' = QBS.measured s.
Proof.
  revert s. induction calls as [|[r|gt t1 t2] rest IH]; intros s Hinv Hge.
  - by exists [], s.
  - destruct (IH s Hinv Hge) as (outs & s' & Hrun & Hf & Hm).
    exists (sentinel :: outs), s'. simpl. unfold QBS.fire_next_bullet.
    rewrite decide_True by done. simpl. rewrite Hrun. simpl.
    by rewrite fired_cons, Hf.
  - destruct (apply_gate_total gt t1 t2 s) as (ok & s1 & Hg); [apply Hinv|].
    pose proof (apply_gate_chamber_inv _ _ _ _ _ _ Hinv Hg) as Hinv1.
    apply apply_gate_frame in Hg as Hfr. destruct Hfr as (HN & Hm & _ & _ & Hp & _).
    destruct (IH s1 Hinv1) as (outs & s' & Hrun & Hf & Hm'); [lia|].
    exists outs, s'. simpl. rewrite Hg. simpl. rewrite Hrun. by rewrite Hm', Hm.
Qed.

(** A whole run: it returns, fires strictly increasing positions that
    were all unmeasured when it started, and never unmeasures anything. *)
Lemma run_calls_spec calls s :
  chamber_inv s →
  ∃ outs s', run_calls calls s = Some (outs, s')
    ∧ chamber_inv s'
    ∧ QBS.num_bullets s' = QBS.num_bullets s
    ∧ StronglySorted Z.lt (fired outs)
    ∧ (∀ p, p ∈ fired outs →
         QBS.current_bullet_index s ≤ p < QBS.num_bullets s
         ∧ py_get (QBS.measured s) p = Some false
         ∧ py_get (QBS.measured s') p = Some true)
    ∧ (∀ q, 0 ≤ q → py_get (QBS.measured s) q = Some true →
         py_get (QBS.measured s') q = Some true).
Proof.
  revert s. induction calls as [|[r|gt t1 t2] rest IH]; intros s Hinv.
  { exists [], s. split_and!; try done; [constructor|]. intros p Hp. inversion Hp. }
  - destruct (fire_next_step r s Hinv)
      as [[Hge Hs]|(out & s1 & Hs & Hstep & Hinv1 & HN1 & Hframe)].
    + destruct (run_calls_sentinel_only rest s Hinv Hge) as (outs & s' & Hrun & Hf & Hm).
      destruct (IH s Hinv) as (outs0 & s0 & Hrun0 & Hinv' & HN' & _ & _ & _).
      assert (outs0 = outs ∧ s0 = s') as [-> ->] by (split; congruence).
      exists (sentinel :: outs), s'. simpl. rewrite Hs. simpl. rewrite Hrun. simpl.
      rewrite fired_cons, Hf. simpl.
      split_and!; try done; [constructor|intros p Hp; inversion Hp|by rewrite Hm].
    + destruct (IH s1 Hinv1)
        as (outs & s' & Hrun & Hinv' & HN' & Hsorted & Hfired & Hmono).
      exists (out :: outs), s'. simpl. rewrite Hs. simpl. rewrite Hrun. simpl.
      destruct Hstep as (Hout & Hp & Hfresh & Hset & Hadv & _ & _).
      rewrite fired_cons, Hout, decide_True by lia.
      split_and!; try done; [congruence| | |].
      * constructor; [done|]. apply Forall_forall. intros p' Hp'.
        destruct (Hfired p' Hp') as (? & _). lia.
      * intros p' Hp'. apply elem_of_cons in Hp' as [->|Hp'].
        -- split_and!; [lia|lia|done|]. apply Hmono; [lia|done].
        -- destruct (Hfired p' Hp') as (? & Hf & Ht).
           split_and!; [lia|lia| |done]. rewrite <- Hf. symmetry. apply Hframe; lia.
      * intros q Hq Hqt. apply Hmono; [done|].
        destruct (decide (q = QBS.current_bullet_index s)) as [->|Hne]; [done|].
        rewrite Hframe; done.
  - destruct (apply_gate_total gt t1 t2 s) as (ok & s1 & Hg); [apply Hinv|].
    pose proof (apply_gate_chamber_inv _ _ _ _ _ _ Hinv Hg) as Hinv1.
    apply apply_gate_frame in Hg as Hfr. destruct Hfr as (HN & Hm & _ & _ & Hp & _).
    destruct (IH s1 Hinv1)
      as (outs & s' & Hrun & Hinv' & HN' & Hsorted & Hfired & Hmono).
    exists outs, s'. simpl. rewrite Hg. simpl. rewrite Hrun.
    rewrite <- HN, <- Hm, <- Hp. split_and!; done.
Qed.

Lemma run_calls_reachable calls s outs s' :
  reachable s → run_calls calls s = Some (outs, s') → reachable s'.
Proof.
  revert s outs. induction calls as [|[r|gt t1 t2] rest IH]; intros s outs Hr; simpl.
  { by intros [= <- <-]. }
  - destruct (QBS.fire_next_bullet r s) as [[out s1]|] eqn:Hf; simpl; [|done].
    destruct (run_calls rest s1) as [[outs1 s2]|] eqn:Hrun; simpl; [|done].
    intros [= <- <-]. eapply IH; [|done].
    unfold QBS.fire_next_bullet in Hf. case_decide; [by simplify_eq|].
    destruct (QBS.measure_bullet _ r s) as [[v s1']|] eqn:Hm; simplify_eq/=.
    by eapply reach_measure.
  - destruct (QBS.apply_gate gt t1 t2 s) as [[ok s1]|] eqn:Hg; simpl; [|done].
    intros Hrun. eapply IH; [|done]. by eapply reach_apply_gate.
Qed.

Lemma StronglySorted_lt_NoDup (l : list Z) : StronglySorted Z.lt l → NoDup l.
Proof.
  induction 1 as [|x l _ IH Hx]; constructor; [|done].
  intros Hin. rewrite Forall_forall in Hx. specialize (Hx x Hin). lia.
Qed.

(** C5.  From any state the chamber can reach, a sequence of
    [fire_next_bullet] calls, with gates applied in between or not,
    returns; the positions it fires are strictly increasing, so none is
    fired twice, and each was unmeasured before the run and is measured
    after it.  Every single call either finds the queue exhausted and
    returns the sentinel with the state unchanged, or fires the position
    under the pointer and moves the pointer past it, over measured
    positions only, to the next unmeasured position or the end.  Once
    every position is measured, all calls return the sentinel and the
    state stays as it is. *)
Theorem fire_next_never_repeats (s : QBS.t) (calls : list Call) :
  reachable s →
  (∃ outs s', run_calls calls s = Some (outs, s')
     ∧ reachable s'
     ∧ StronglySorted Z.lt (fired outs)
     ∧ NoDup (fired outs)
     ∧ (∀ p, p ∈ fired outs →
          py_get (QBS.measured s) p = Some false
          ∧ py_get (QBS.measured s') p = Some true))
  ∧ (∀ sample,
       (QBS.num_bullets s ≤ QBS.current_bullet_index s
        ∧ QBS.fire_next_bullet sample s = Some (sentinel, s))
       ∨ (∃ out s1, QBS.fire_next_bullet sample s = Some (out, s1)
            ∧ fires_and_advances s out s1))
  ∧ (QBS.all_measured s = true →
     run_calls calls s
     = Some (replicate (length (filter is_fire calls)) sentinel, s)).
Proof.
  intros Hreach. pose proof (reachable_inv s Hreach) as Hinv. split_and!.
  - destruct (run_calls_spec calls s Hinv)
      as (outs & s' & Hrun & _ & _ & Hsorted & Hfired & _).
    exists outs, s'. split_and!; try done.
    + eapply run_calls_reachable; eauto.
    + eapply StronglySorted_lt_NoDup, Hsorted.
    + intros p Hp. by destruct (Hfired p Hp) as (_ & ? & ?).
  - intros sample. destruct (fire_next_step sample s Hinv)
      as [?|(out & s1 & ? & ? & _)]; [by left|right; eauto].
  - intros Hall. destruct Hinv as (Hw & (Hp & Hfresh) & _).
    apply run_calls_exhausted; [done|done|].
    destruct Hw as (Hn & Hlm & _).
    destruct (decide (QBS.num_bullets s ≤ QBS.current_bullet_index s)) as [|Hlt]; [done|].
    rewrite (all_measured_lookup s _ Hall) in Hfresh by lia.
    by specialize (Hfresh ltac:(lia)).
Qed.

(** A round on two bullets: fire, apply a gate, fire, fire again. *)
Example run_calls_two_bullets :
  fst <$> run_calls [Fire true; ApplyGate GateType.H 1 (-1); Fire false; Fire true]
            (new_chamber 2 [0])
  = Some [(0, Some 1); (1, Some 0); sentinel].
Proof. by vm_compute. Qed.

Lemma fire_next_never_repeats_witness :
  (∃ outs s',
     run_calls [Fire true; ApplyGate GateType.X 2 (-1); Fire false; Fire true]
       deferred_one = Some (outs, s')
     ∧ reachable s'
     ∧ StronglySorted Z.lt (fired outs)
     ∧ NoDup (fired outs)
     ∧ (∀ p, p ∈ fired outs →
          py_get (QBS.measured deferred_one) p = Some false
          ∧ py_get (QBS.measured s') p = Some true))
  ∧ (∀ sample,
       (QBS.num_bullets deferred_one ≤ QBS.current_bullet_index deferred_one
        ∧ QBS.fire_next_bullet sample deferred_one = Some (sentinel, deferred_one))
       ∨ (∃ out s1, QBS.fire_next_bullet sample deferred_one = Some (out, s1)
            ∧ fires_and_advances deferred_one out s1))
  ∧ (QBS.all_measured deferred_one = true →
     run_calls [Fire true; ApplyGate GateType.X 2 (-1); Fire false; Fire true]
       deferred_one
     = Some (replicate
               (length (filter is_fire
                  [Fire true; ApplyGate GateType.X 2 (-1); Fire false; Fire true]))
               sentinel, deferred_one)).
Proof.
  apply (fire_next_never_repeats deferred_one
           [Fire true; ApplyGate GateType.X 2 (-1); Fire false; Fire true]).
  unfold deferred_one. apply then_measure_reachable, then_gate_reachable,
    new_chamber_reachable.
Defined.
(** ** Deferred collapse *)

Lemma advance_total ms n i :
  0 ≤ i → n ≤ Z.of_nat (length ms) → is_Some (QBS.advance ms n i).
Proof. intros Hi Hn. destruct (advance_spec ms n i Hi Hn) as (j & -> & _). eauto. Qed.

(** A successful Controlled-X joins its two targets in the ledger, both
    ways, and leaves the deferred outcomes alone. *)
Lemma cnot_makes_pair a b s0 s :
  QBS.apply_gate GateType.CNOT a b s0 = Some (true, s) →
  entangled_pair a b s
  ∧ QBS.entanglements s !! b = Some a
  ∧ QBS.collapsed_states s = QBS.collapsed_states s0.
Proof.
  intros Hg.
  pose proof (apply_gate_frame _ _ _ _ _ _ Hg) as (_ & Hm & _ & _ & _ & Hc & _).
  apply apply_gate_success in Hg as (Ha & Hma & H2 & Hs).
  destruct H2 as (Hb & Hmb & Hne); [done|].
  unfold entangled_pair. rewrite Hm. split_and!; try done; try lia.
  - rewrite Hs. simpl. by rewrite lookup_insert_ne, lookup_insert_eq.
  - rewrite Hs. simpl. by rewrite lookup_insert_eq.
Qed.

(** Measuring the first position of an entangled pair, when it holds no
    deferred outcome. *)
Lemma measure_first_of_pair a b sample s :
  chamber_inv s → entangled_pair a b s →
  QBS.collapsed_states s ≫= (λ c, c !! a) = None →
  ∃ s1,
    QBS.measure_bullet a sample s = Some (Some (Z.b2z sample), s1)
    ∧ QBS.collapsed_states s1 ≫= (λ c, c !! b) = Some (Z.b2z sample)
    ∧ QBS.entanglements s1 !! a = None
    ∧ QBS.entanglements s1 !! b = None
    ∧ QBS.circuit s1 = QBS.circuit s ++ [IMeasure a]
    ∧ py_get (QBS.measured s1) b = Some false
    ∧ 0 ≤ b < QBS.num_bullets s1.
Proof.
  intros ((Hn & Hlm & Hlr) & (Hp & _) & Hl) (Ha & Hne & Hab & Hma & Hmb) Hc.
  destruct (Hl a b Hab) as [Hb0 Hb1].
  assert (Ha1 : a < QBS.num_bullets s).
  { apply py_get_nonneg in Hma as [? _]; lia. }
  set (ms := <[Z.to_nat a := true]> (QBS.measured s)).
  assert (Hlen : Z.of_nat (length ms) = QBS.num_bullets s)
    by (unfold ms; rewrite length_insert; done).
  destruct (advance_total ms (QBS.num_bullets s) (QBS.current_bullet_index s + 1))
    as [j Hj]; [lia|lia|].
  assert (Hmsb : py_get ms b = Some false).
  { unfold ms. rewrite py_get_set_ne by lia. done. }
  eexists. split_and!.
  - unfold QBS.measure_bullet. rewrite Hma. simpl. rewrite Hc, Hab. simpl.
    rewrite py_norm_in_range by lia. simpl.
    rewrite !py_set_in_range by lia. simpl. fold ms.
    rewrite bool_decide_true by lia.
    rewrite Hmsb. simpl. rewrite Hj. simpl. reflexivity.
  - simpl. apply lookup_insert_eq.
  - simpl. unfold QBS.break_ledger. rewrite Hab.
    rewrite lookup_delete_ne by done. apply lookup_delete_eq.
  - simpl. unfold QBS.break_ledger. rewrite Hab. apply lookup_delete_eq.
  - reflexivity.
  - simpl. exact Hmsb.
  - simpl. lia.
  - simpl. lia.
Qed.

(** What [measure_bullet] on another position does to a deferred
    outcome: nothing, unless the ledger entry of that position names
    the holder. *)
Lemma measure_bullet_spares_cache q sample s v s' b x :
  QBS.measure_bullet q sample s = Some (v, s') →
  q ≠ b → QBS.entanglements s !! q ≠ Some b →
  QBS.collapsed_states s ≫= (λ c, c !! b) = Some x →
  QBS.collapsed_states s' ≫= (λ c, c !! b) = Some x.
Proof.
  intros Hm Hqb Hl Hx. unfold QBS.measure_bullet in Hm.
  destruct (py_get (QBS.measured s) q) as [[]|]; simpl in Hm; [| |done].
  { destruct (py_get (QBS.measurement_results s) q); simplify_eq/=. done. }
  destruct (QBS.collapsed_states s) as [c|] eqn:Hcs; [|done]. simpl in Hx, Hm.
  destruct (c !! q) as [r|] eqn:Hcq.
  - destruct (py_set (QBS.measured s) q true) as [ms|]; simpl in Hm; [|done].
    destruct (py_set (QBS.measurement_results s) q _) as [rs|]; simpl in Hm; [|done].
    destruct (QBS.advance ms _ _) as [idx|]; simplify_eq/=.
    by rewrite lookup_delete_ne.
  - destruct (py_norm _ q) as [k|]; simpl in Hm; [|done].
    destruct (py_set (QBS.measured s) q true) as [ms|]; simpl in Hm; [|done].
    destruct (py_set (QBS.measurement_results s) q _) as [rs|]; simpl in Hm; [|done].
    destruct (QBS.entanglements s !! q) as [p|] eqn:Hp; simpl in Hm.
    + destruct (bool_decide (0 ≤ p)); simpl in Hm.
      * destruct (py_get ms p) as [mp|]; simpl in Hm; [|done].
        destruct (QBS.advance ms _ _) as [idx|]; simplify_eq/=.
        destruct (negb mp); simpl; [|done].
        rewrite lookup_insert_ne; [done|]. intros ->. by apply Hl.
      * destruct (QBS.advance ms _ _) as [idx|]; simplify_eq/=. done.
    + destruct (QBS.advance ms _ _) as [idx|]; simplify_eq/=. done.
Qed.

(** Calls that spare the deferred outcome of [b] keep it, and keep [b]
    unmeasured. *)
Lemma run_while_spares_cache b x mid s s2 :
  chamber_inv s → 0 ≤ b →
  py_get (QBS.measured s) b = Some false →
  QBS.collapsed_states s ≫= (λ c, c !! b) = Some x →
  run_while (spares_cache b) mid s = Some s2 →
  chamber_inv s2
  ∧ py_get (QBS.measured s2) b = Some false
  ∧ QBS.collapsed_states s2 ≫= (λ c, c !! b) = Some x.
Proof.
  intros Hinv Hb. revert s Hinv.
  induction mid as [|[gt t1 t2|q sample] mid IH]; intros s Hinv Hmb Hx; simpl.
  { by intros [= <-]. }
  - destruct (QBS.apply_gate gt t1 t2 s) as [[ok s1]|] eqn:Hg; simpl; [|done].
    pose proof (apply_gate_frame _ _ _ _ _ _ Hg) as (_ & Hm & _ & _ & _ & Hc & _).
    apply IH; [by eapply apply_gate_chamber_inv|by rewrite Hm|by rewrite Hc].
  - case_bool_decide as Hq; [|done]. destruct Hq as (Hq0 & Hqb & Hl).
    destruct (QBS.measure_bullet q sample s) as [[v s1]|] eqn:Hm; simpl; [|done].
    apply IH.
    + by eapply measure_bullet_chamber_inv.
    + destruct (measure_bullet_cases q sample s v s1) as [(_ & -> & _)|(_ & Hmeas)];
        [apply Hinv|done|done|].
      destruct Hmeas as (k & y & Hk & _ & _ & -> & _).
      unfold py_norm in Hk. case_decide; [|case_decide; [lia|done]].
      injection Hk as <-. by rewrite py_get_set_ne by lia.
    + by eapply measure_bullet_spares_cache.
Qed.

(** Measuring a position that holds a deferred outcome. *)
Lemma measure_deferred b x sample s :
  chamber_inv s → 0 ≤ b →
  py_get (QBS.measured s) b = Some false →
  QBS.collapsed_states s ≫= (λ c, c !! b) = Some x →
  ∃ s',
    QBS.measure_bullet b sample s = Some (Some x, s')
    ∧ QBS.collapsed_states s' ≫= (λ c, c !! b) = None
    ∧ QBS.circuit s' = QBS.circuit s
    ∧ py_get (QBS.measurement_results s') b = Some (Some x).
Proof.
  intros ((Hn & Hlm & Hlr) & (Hp & _) & _) Hb Hmb Hx.
  assert (Hb1 : b < QBS.num_bullets s).
  { apply py_get_nonneg in Hmb as [? _]; lia. }
  set (ms := <[Z.to_nat b := true]> (QBS.measured s)).
  destruct (advance_total ms (QBS.num_bullets s) (QBS.current_bullet_index s + 1))
    as [j Hj]; [lia|unfold ms; rewrite length_insert; lia|].
  eexists. split_and!.
  - unfold QBS.measure_bullet. rewrite Hmb. simpl. rewrite Hx.
    rewrite !py_set_in_range by lia. simpl. fold ms. rewrite Hj. simpl. reflexivity.
  - simpl. destruct (QBS.collapsed_states s) as [c|]; [|done]. simpl.
    apply lookup_delete_eq.
  - reflexivity.
  - simpl. apply py_get_set_eq. lia.
Qed.

(** C3, amended.  A successful Controlled-X on [a] and [b] makes them an
    entangled pair: two different unmeasured positions, the ledger entry
    of each naming the other.  Whenever [a] and [b] are such a pair and
    [a] holds no deferred outcome, measuring [a] returns the sampled
    outcome [v], caches [v] as the deferred outcome of [b] and removes
    the ledger entries of both.  After that, through any gates and
    through measurements of other positions whose ledger entry does not
    name [b], a measurement of [b] returns [v] whatever the simulator
    would sample, appends nothing to the circuit, records [v] for [b]
    and consumes the cache. *)
Theorem measured_control_fixes_partner (a b : Z) (s : QBS.t) :
  chamber_inv s →
  (∀ s0, QBS.apply_gate GateType.CNOT a b s0 = Some (true, s) →
     entangled_pair a b s
     ∧ QBS.entanglements s !! b = Some a
     ∧ QBS.collapsed_states s = QBS.collapsed_states s0)
  ∧ (entangled_pair a b s →
     QBS.collapsed_states s ≫= (λ c, c !! a) = None →
     ∀ sample, ∃ s1,
       QBS.measure_bullet a sample s = Some (Some (Z.b2z sample), s1)
       ∧ QBS.collapsed_states s1 ≫= (λ c, c !! b) = Some (Z.b2z sample)
       ∧ QBS.entanglements s1 !! a = None
       ∧ QBS.entanglements s1 !! b = None
       ∧ ∀ mid s2, run_while (spares_cache b) mid s1 = Some s2 →
           ∀ sample', ∃ s3,
             QBS.measure_bullet b sample' s2 = Some (Some (Z.b2z sample), s3)
             ∧ QBS.collapsed_states s3 ≫= (λ c, c !! b) = None
             ∧ QBS.circuit s3 = QBS.circuit s2
             ∧ py_get (QBS.measurement_results s3) b = Some (Some (Z.b2z sample))).
Proof.
  intros Hinv. split; [intros s0; apply cnot_makes_pair|].
  intros Hpair Hc sample.
  destruct (measure_first_of_pair a b sample s Hinv Hpair Hc)
    as (s1 & Hm & Hcb & Hla & Hlb & _ & Hmb & Hb).
  exists s1. split_and!; try done.
  intros mid s2 Hrun sample'.
  pose proof (measure_bullet_chamber_inv _ _ _ _ _ Hinv Hm) as Hinv1.
  destruct (run_while_spares_cache b (Z.b2z sample) mid s1 s2)
    as (Hinv2 & Hmb2 & Hcb2); [done|lia|done|done|done|].
  by apply measure_deferred; [|lia| |].
Qed.

(** Position 0 is live and the control of a Controlled-X on 2.  Firing
    0 returns live; then 1 is fired and 2 is flipped; firing 2 returns
    live, the outcome of 0, though the simulator would now sample
    blank. *)
Lemma measured_control_fixes_partner_witness :
  ∃ s3,
    QBS.measure_bullet 2 false
      (then_gate GateType.X 2 (-1)
         (then_measure 1 false (then_measure 0 true live_pair)))
    = Some (Some 1, s3)
    ∧ QBS.collapsed_states s3 ≫= (λ c, c !! 2) = None
    ∧ QBS.circuit s3
      = QBS.circuit (then_gate GateType.X 2 (-1)
                       (then_measure 1 false (then_measure 0 true live_pair)))
    ∧ py_get (QBS.measurement_results s3) 2 = Some (Some 1).
Proof.
  assert (Hinv : chamber_inv live_pair).
  { apply reachable_inv. unfold live_pair. auto with chamber. }
  destruct (measured_control_fixes_partner 0 2 live_pair Hinv) as [Hpair Hrest].
  destruct (Hpair (new_chamber 3 [0])) as (Hp & _ & _); [vm_compute; reflexivity|].
  destruct (Hrest Hp) with (sample := true) as (s1 & Hm & _ & _ & _ & Hmid);
    [vm_compute; reflexivity|].
  apply (Hmid [DoMeasure 1 false; DoGate GateType.X 2 (-1)]).
  vm_compute in Hm. injection Hm as <-. vm_compute. reflexivity.
Defined.

(** The two runs behind the counterexample below; every bit sampled in
    them is the only one the simulator can return.

    In the first, position 1 is live and holds the deferred outcome
    blank when the Controlled-X from 1 to 2 is accepted.  Measuring 1
    consumes that outcome and returns at once: nothing is cached for 2
    and the ledger still pairs 1 with 2.  Position 2 is then sampled,
    and the simulator returns live.

    In the second, 0 and 2 are an entangled pair and 0 holds no deferred
    outcome.  Measuring 0 returns blank and caches blank for 2.  A
    Controlled-X from the live position 1 to 2 follows; measuring 1
    returns live and overwrites the outcome cached for 2, so measuring 2
    returns live. *)
Example deferred_control_runs :
  (let s1 := then_gate GateType.CNOT 1 2 relabelled_one in
   let s2 := then_measure 1 true s1 in
   run_while plausible
     [DoGate GateType.CNOT 0 1; DoMeasure 0 false] (new_chamber 3 [1])
   = Some relabelled_one
   ∧ QBS.collapsed_states relabelled_one ≫= (λ c, c !! 1) = Some 0
   ∧ QBS.apply_gate GateType.CNOT 1 2 relabelled_one = Some (true, s1)
   ∧ QBS.measure_bullet 1 true s1 = Some (Some 0, s2)
   ∧ QBS.collapsed_states s2 ≫= (λ c, c !! 2) = None
   ∧ QBS.entanglements s2 !! 1 = Some 2
   ∧ plausible (DoMeasure 2 true) s2 = true
   ∧ plausible (DoMeasure 2 false) s2 = false
   ∧ fst <$> QBS.measure_bullet 2 true s2 = Some (Some 1))
  ∧ (let s1 := then_gate GateType.CNOT 0 2 (new_chamber 3 [1]) in
     let s2 := then_measure 0 false s1 in
     let s3 := then_measure 1 true (then_gate GateType.CNOT 1 2 s2) in
     plausible (DoMeasure 0 false) s1 = true
     ∧ plausible (DoMeasure 0 true) s1 = false
     ∧ QBS.measure_bullet 0 false s1 = Some (Some 0, s2)
     ∧ QBS.collapsed_states s2 ≫= (λ c, c !! 2) = Some 0
     ∧ run_while plausible [DoGate GateType.CNOT 1 2; DoMeasure 1 true] s2 = Some s3
     ∧ plausible (DoMeasure 1 false) (then_gate GateType.CNOT 1 2 s2) = false
     ∧ QBS.collapsed_states s3 ≫= (λ c, c !! 2) = Some 1
     ∧ fst <$> QBS.measure_bullet 2 false s3 = Some (Some 1)).
Proof. by vm_compute. Qed.

(** C3 as stated fails, on runs in which the simulator returns only
    bits of positive probability.  First: without the condition that
    [a] holds no deferred outcome, the measurement of [b] directly
    after that of [a] need not repeat it.  Second: with that condition,
    a later measurement of [b] need not repeat it either when a
    measurement in between caches another outcome for [b]. *)
Lemma deferred_control_counterexample :
  ¬ (∀ (n : Z) (loaded : list Z) (pre : list Op) (a b : Z) (sa sb : bool)
       (s s1 : QBS.t),
       run_while plausible pre (new_chamber n loaded) = Some s →
       QBS.apply_gate GateType.CNOT a b s = Some (true, s1) →
       plausible (DoMeasure a sa) s1 = true →
       ∃ v s2,
         QBS.measure_bullet a sa s1 = Some (Some v, s2)
         ∧ (plausible (DoMeasure b sb) s2 = true →
            ∃ s3, QBS.measure_bullet b sb s2 = Some (Some v, s3)))
  ∧ ¬ (∀ (n : Z) (loaded : list Z) (pre mid : list Op) (a b : Z) (sa sb : bool)
         (s s1 : QBS.t),
         run_while plausible pre (new_chamber n loaded) = Some s →
         QBS.collapsed_states s ≫= (λ c, c !! a) = None →
         QBS.apply_gate GateType.CNOT a b s = Some (true, s1) →
         plausible (DoMeasure a sa) s1 = true →
         ∃ v s2,
           QBS.measure_bullet a sa s1 = Some (Some v, s2)
           ∧ ∀ s3, run_while plausible mid s2 = Some s3 →
               plausible (DoMeasure b sb) s3 = true →
               ∃ s4, QBS.measure_bullet b sb s3 = Some (Some v, s4)).
Proof.
  split; intros Hclaim.
  - destruct (Hclaim 3 [1] [DoGate GateType.CNOT 0 1; DoMeasure 0 false]
                1 2 true true relabelled_one
                (then_gate GateType.CNOT 1 2 relabelled_one))
      as (v & s2 & Hm1 & Hm2); [by vm_compute..|].
    vm_compute in Hm1. injection Hm1 as <- <-.
    destruct Hm2 as (s3 & Hm2); [by vm_compute|].
    vm_compute in Hm2. discriminate Hm2.
  - destruct (Hclaim 3 [1] [] [DoGate GateType.CNOT 1 2; DoMeasure 1 true]
                0 2 false false (new_chamber 3 [1])
                (then_gate GateType.CNOT 0 2 (new_chamber 3 [1])))
      as (v & s2 & Hm1 & Hm2); [by vm_compute..|].
    vm_compute in Hm1. injection Hm1 as <- <-.
    destruct (Hm2 (then_measure 1 true
                     (then_gate GateType.CNOT 1 2
                        (then_measure 0 false
                           (then_gate GateType.CNOT 0 2 (new_chamber 3 [1]))))))
      as (s4 & Hm3); [by vm_compute..|].
    vm_compute in Hm3. discriminate Hm3.
Qed.


(** ** Pauli-X twice *)

Section Probabilities.
Context `{Sim : Simulator}.

Lemma flip_bit_twice q i : flip_bit q (flip_bit q i) = i.
Proof.
  unfold flip_bit.
  by rewrite Z.lxor_assoc, Z.lxor_nilpotent, Z.lxor_0_r.
Qed.

Lemma run_statevector_snoc c ins :
  run_statevector (c ++ [ins]) = apply_instr ins (run_statevector c).
Proof. unfold run_statevector. by rewrite fold_left_app. Qed.

Lemma run_statevector_x_twice c q i :
  run_statevector ((c ++ [I1 UX q]) ++ [I1 UX q]) i = run_statevector c i.
Proof. rewrite !run_statevector_snoc. unfold apply_instr. by rewrite flip_bit_twice. Qed.

Lemma marginal_ext n sv sv' q :
  (∀ i, sv i = sv' i) → marginal n sv q = marginal n sv' q.
Proof.
  intros Heq. unfold marginal.
  generalize (prob_zero, prob_zero). generalize (seqZ 0 (2 ^ n)).
  intros l. induction l as [|i l IH]; intros acc; [done|].
  simpl. rewrite Heq. apply IH.
Qed.

(** C8.  On an unmeasured position of the chamber, two Pauli-X gates in
    succession are both accepted and [get_probabilities] returns
    afterwards exactly what it returned before them, for every
    position, whatever the arithmetic of the simulator. *)
Theorem pauli_x_twice_restores_probabilities (p t2 t2' : Z) (s : QBS.t) :
  0 ≤ p < QBS.num_bullets s →
  py_get (QBS.measured s) p = Some false →
  ∃ s1 s2,
    QBS.apply_gate GateType.X p t2 s = Some (true, s1)
    ∧ QBS.apply_gate GateType.X p t2' s1 = Some (true, s2)
    ∧ QBS.get_probabilities s2 = QBS.get_probabilities s.
Proof.
  intros Hp Hm.
  exists (QBS.dispatch GateType.X p t2 s),
         (QBS.dispatch GateType.X p t2' (QBS.dispatch GateType.X p t2 s)).
  split_and!.
  - by apply apply_gate_accepts.
  - by apply apply_gate_accepts.
  - unfold QBS.get_probabilities. simpl.
    destruct (runs (QBS.num_bullets s)); [|done].
    apply mapM_ext. intros q. unfold QBS.prob_entry. simpl.
    by rewrite (marginal_ext _ _ (run_statevector (QBS.circuit s)) q)
      by apply run_statevector_x_twice.
Qed.
End Probabilities.

Lemma pauli_x_twice_restores_probabilities_witness :
  ∃ s1 s2,
    QBS.apply_gate GateType.X 0 (-1) bell_chamber = Some (true, s1)
    ∧ QBS.apply_gate GateType.X 0 (-1) s1 = Some (true, s2)
    ∧ @QBS.get_probabilities Exact.simulator s2
      = @QBS.get_probabilities Exact.simulator bell_chamber.
Proof.
  apply (@pauli_x_twice_restores_probabilities Exact.simulator 0 (-1) (-1) bell_chamber).
  - vm_compute. split; [discriminate|reflexivity].
  - reflexivity.
Defined.

(** ** The controller *)

Lemma get_opponent_other r g :
  distinct_players g → Game.get_opponent r g = other r.
Proof.
  intros Hd. unfold Game.get_opponent. destruct r; simpl.
  - by rewrite decide_True.
  - rewrite decide_False; [done|]. intros Heq. apply Hd. by rewrite Heq.
Qed.

(** Firing with a position left in the queue: the position under the
    pointer is fired, an outcome is returned and recorded for it. *)
Lemma fire_next_outcome sample s :
  chamber_inv s →
  QBS.current_bullet_index s < QBS.num_bullets s →
  ∃ v s',
    QBS.fire_next_bullet sample s
    = Some ((QBS.current_bullet_index s, Some v), s')
    ∧ py_get (QBS.measurement_results s') (QBS.current_bullet_index s)
      = Some (Some v).
Proof.
  intros Hinv Hlt. pose proof Hinv as ((Hn & Hlm & Hlr) & (Hp & Hfresh) & _).
  unfold QBS.fire_next_bullet. rewrite decide_False by lia.
  destruct (measure_bullet_total (QBS.current_bullet_index s) sample s Hinv)
    as (v & s' & Hm); [lia|].
  rewrite Hm. simpl.
  destruct (measure_bullet_cases _ _ _ _ _ (proj1 Hinv) Hm)
    as [(Ht & _)|(_ & Hmeas)]; [rewrite Hfresh in Ht by lia; done|].
  destruct Hmeas as (k & x & Hk & -> & _ & _ & Hrs & _).
  rewrite py_norm_in_range in Hk by lia. injection Hk as <-.
  exists x, s'. split; [done|]. rewrite Hrs. apply py_get_set_eq. lia.
Qed.

(** C4.  In a game with a chamber, [shoot] succeeds exactly in the
    playing phase of a game not yet over while a position is left to
    fire.  A successful [shoot] fires the position under the queue
    pointer; the shot is live exactly when the outcome the engine
    returned and recorded for that position is 1, and damage is reported
    exactly for a live shot.  On a live outcome the target (the shooter
    for a self-shot, the opponent otherwise) loses one life, never going
    below zero, and the other player is untouched; if that leaves the
    target with no life the game is over and the winner is the other
    player, otherwise the turn passes to the shooter's opponent with the
    gate flag cleared.  On a blank outcome nobody is touched and the gate
    flag is cleared; a self-shot keeps the current player, a shot at the
    opponent passes the turn. *)
Theorem shoot_resolution (shoot_self sample : bool) (g : Game.t) (sys : QBS.t) :
  distinct_players g →
  Game.bullet_system g = Some sys →
  chamber_inv sys →
  let shooter := Game.current_player g in
  let target := if shoot_self then shooter else other shooter in
  ((∃ info g', Game.shoot shoot_self sample g = Some (ShotOk info, g'))
   ↔ Game.phase g = playing
     ∧ Game.game_over g = false
     ∧ QBS.current_bullet_index sys < QBS.num_bullets sys)
  ∧ ∀ info g', Game.shoot shoot_self sample g = Some (ShotOk info, g') →
      ∃ v sys',
        QBS.fire_next_bullet sample sys
        = Some ((QBS.current_bullet_index sys, Some v), sys')
        ∧ Game.bullet_system g' = Some sys'
        ∧ bullet_index info = QBS.current_bullet_index sys
        ∧ py_get (QBS.measurement_results sys') (bullet_index info) = Some (Some v)
        ∧ (is_live info = true ↔ v = 1)
        ∧ damage_dealt info = is_live info
        ∧ if is_live info then
            lives (Game.deref target g') = Z.max 0 (lives (Game.deref target g) - 1)
            ∧ Game.deref (other target) g' = Game.deref (other target) g
            ∧ (if decide (lives (Game.deref target g') = 0)
               then Game.game_over g' = true ∧ Game.winner g' = Some (other target)
               else Game.game_over g' = false
                    ∧ Game.current_player g' = other shooter
                    ∧ Game.gate_applied_this_turn g' = false)
          else
            Game.player1 g' = Game.player1 g
            ∧ Game.player2 g' = Game.player2 g
            ∧ Game.game_over g' = false
            ∧ Game.gate_applied_this_turn g' = false
            ∧ Game.current_player g' = (if shoot_self then shooter else other shooter).
Proof.
  intros Hd Hb Hinv. simpl.
  assert (Hfail : QBS.num_bullets sys ≤ QBS.current_bullet_index sys →
            QBS.fire_next_bullet sample sys = Some (sentinel, sys)).
  { intros Hge. unfold QBS.fire_next_bullet. by rewrite decide_True. }
  split.
  - split.
    + intros (info & g' & Hs). unfold Game.shoot in Hs.
      destruct (decide (Game.phase g ≠ playing)) as [|Hph]; [done|].
      destruct (Game.game_over g) eqn:Hover; [done|].
      rewrite Hb in Hs. simpl in Hs.
      destruct (decide (QBS.num_bullets sys ≤ QBS.current_bullet_index sys)) as [Hge|];
        [|split_and!; [by destruct (decide (Game.phase g = playing))|done|lia]].
      rewrite (Hfail Hge) in Hs. simpl in Hs. done.
    + intros (Hph & Hover & Hlt). unfold Game.shoot.
      rewrite decide_False by (by rewrite Hph; intros ?). rewrite Hover, Hb. simpl.
      destruct (fire_next_outcome sample sys Hinv Hlt) as (v & sys' & -> & _). simpl.
      rewrite decide_False by (destruct Hinv as (_ & (? & _) & _); lia). eauto.
  - intros info g' Hs. unfold Game.shoot in Hs.
    destruct (decide (Game.phase g ≠ playing)) as [|Hph]; [done|].
    destruct (Game.game_over g) eqn:Hover; [done|].
    rewrite Hb in Hs. simpl in Hs.
    destruct (decide (QBS.num_bullets sys ≤ QBS.current_bullet_index sys)) as [Hge|Hlt].
    { rewrite (Hfail Hge) in Hs. simpl in Hs. done. }
    destruct (fire_next_outcome sample sys Hinv) as (v & sys' & Hf & Hres); [lia|].
    rewrite Hf in Hs. simpl in Hs.
    rewrite decide_False in Hs by (destruct Hinv as (_ & (? & _) & _); lia).
    rewrite !get_opponent_other in Hs by done.
    injection Hs as <- <-. simpl.
    exists v, sys'. split; [done|].
    destruct (bool_decide (Some v = Some 1)) eqn:Hlive.
    + apply bool_decide_eq_true in Hlive. injection Hlive as ->.
      set (tgt := if shoot_self then _ else _).
      unfold take_damage, is_alive. simpl.
      destruct (bool_decide (0 < Z.max 0 _)) eqn:Halive; simpl.
      * apply bool_decide_eq_true in Halive.
        rewrite get_opponent_other by (by destruct tgt).
        destruct tgt; simpl in *; (split_and!; try done);
          (rewrite decide_False by lia); done.
      * apply bool_decide_eq_false in Halive.
        rewrite get_opponent_other by (by destruct tgt).
        destruct tgt; simpl in *; (split_and!; try done);
          (rewrite decide_True by lia); done.
    + apply bool_decide_eq_false in Hlive.
      assert (v ≠ 1) by congruence.
      destruct shoot_self; simpl; split_and!; try done.
      by apply get_opponent_other.
Qed.

(** Two bullets, the first live, one life each: player 1 fires at
    player 2. *)
Lemma shoot_resolution_witness :
  let g := playing_game 2 1 [0] [GateType.X] [GateType.X] in
  ((∃ info g', Game.shoot false true g = Some (ShotOk info, g'))
   ↔ Game.phase g = playing
     ∧ Game.game_over g = false
     ∧ QBS.current_bullet_index (new_chamber 2 [0]) < QBS.num_bullets (new_chamber 2 [0]))
  ∧ ∀ info g', Game.shoot false true g = Some (ShotOk info, g') →
      is_live info = true
      ∧ lives (Game.player2 g') = 0
      ∧ Game.game_over g' = true
      ∧ Game.winner g' = Some P1.
Proof.
  intros g.
  assert (Hd : distinct_players g) by (by vm_compute).
  assert (Hb : Game.bullet_system g = Some (new_chamber 2 [0]))
    by (vm_compute; reflexivity).
  assert (Hinv : chamber_inv (new_chamber 2 [0]))
    by (apply reachable_inv; auto with chamber).
  destruct (shoot_resolution false true g (new_chamber 2 [0]) Hd Hb Hinv)
    as [Hiff Hres].
  split; [exact Hiff|].
  intros info g' Hs.
  destruct (Hres info g' Hs) as (v & sys' & Hf & _ & _ & _ & Hlive & _ & Hcase).
  vm_compute in Hf. injection Hf as <- <-.
  assert (Hl : is_live info = true) by (by apply Hlive).
  rewrite Hl in Hcase. vm_compute in Hs. injection Hs as <- <-.
  vm_compute in Hcase. vm_compute. tauto.
Defined.

(** A shot is resolved whenever the game is on and the queue holds a
    position: [shoot] returns, and it returns success. *)
Lemma shoot_succeeds shoot_self sample g sys :
  Game.phase g = playing → Game.game_over g = false →
  Game.bullet_system g = Some sys → chamber_inv sys →
  QBS.current_bullet_index sys < QBS.num_bullets sys →
  ∃ info g', Game.shoot shoot_self sample g = Some (ShotOk info, g').
Proof.
  intros Hph Hover Hsys Hinv Hq. unfold Game.shoot.
  rewrite decide_False by (by rewrite Hph; intros ?). rewrite Hover, Hsys. simpl.
  destruct (fire_next_step sample sys Hinv)
    as [[? _]|(out & s1 & -> & (Hout & ? & _) & _)]; [lia|].
  destruct out as [idx result]. simpl in *.
  rewrite decide_False by lia. eauto.
Qed.

(** After the end of the game [apply_gate] and [shoot] refuse and leave
    the game as it is; in the playing phase the refusal is "Game is over". *)
Lemma apply_gate_after_game_over gt t1 t2 g :
  Game.game_over g = true →
  ∃ m, Game.apply_gate gt t1 t2 g = Some ((false, m), g)
       ∧ (Game.phase g = playing → m = msg_game_is_over).
Proof.
  intros Hover. unfold Game.apply_gate.
  case_decide; [eexists; split; [done|]; intros; done|].
  rewrite Hover. eauto.
Qed.

Lemma shoot_after_game_over shoot_self sample g :
  Game.game_over g = true →
  ∃ m, Game.shoot shoot_self sample g = Some (ShotFailed m, g)
       ∧ (Game.phase g = playing → m = msg_game_is_over).
Proof.
  intros Hover. unfold Game.shoot.
  case_decide; [eexists; split; [done|]; intros; done|].
  rewrite Hover. eauto.
Qed.

(** [use_peek] never looks at [game_over]: in the playing phase it
    succeeds whenever the current player still holds the peek. *)
Lemma use_peek_unguarded g :
  Game.phase g = playing →
  peek_available (Game.deref (Game.current_player g) g) = true →
  (Game.use_peek g).1.1 = true
  ∧ peek_available
      (Game.deref (Game.current_player g) (Game.use_peek g).2) = false.
Proof.
  intros Hph Hpeek. unfold Game.use_peek.
  rewrite decide_False by (by rewrite Hph; intros ?). rewrite Hpeek. simpl.
  split; [done|]. by destruct (Game.current_player g).
Qed.

(** C2, at the input where the code departs from it.  The match below is
    over (player 1 has won, the phase is still playing); [use_peek]
    nevertheless succeeds, hands out the opponent's unused gates and
    spends player 1's peek. *)
Theorem use_peek_succeeds_after_game_over :
  Game.game_over finished_game = true
  ∧ Game.winner finished_game = Some P1
  ∧ Game.phase finished_game = playing
  ∧ Game.current_player finished_game = P1
  ∧ peek_available (Game.player1 finished_game) = true
  ∧ (Game.use_peek finished_game).1 = (true, [new_gate GateType.X])
  ∧ peek_available (Game.player1 (Game.use_peek finished_game).2) = false.
Proof. by vm_compute. Qed.

(** C7.  [submit_gate_selection] returns success only for a list of
    exactly [num_gates] kinds; for any other length it returns failure
    and the game it leaves is the game it found, so the phase, the
    selecting player and both inventories are what they were. *)
Theorem submit_rejects_wrong_length (player_id : Z) (sel : list GateType.t) (g : Game.t) :
  ((Game.submit_gate_selection player_id sel g).1 = true →
   Z.of_nat (length sel) = Game.num_gates g)
  ∧ (Z.of_nat (length sel) ≠ Game.num_gates g →
     Game.submit_gate_selection player_id sel g = (false, g)).
Proof.
  unfold Game.submit_gate_selection.
  destruct (decide (Z.of_nat (length sel) ≠ Game.num_gates g)) as [Hne|Heq]; simpl.
  - split; [done|done].
  - split; [intros _; lia|done].
Qed.

Lemma submit_rejects_wrong_length_witness :
  Game.submit_gate_selection 1 [GateType.X; GateType.H] (Game.init 6 3 3)
  = (false, Game.init 6 3 3).
Proof.
  apply (submit_rejects_wrong_length 1 [GateType.X; GateType.H] (Game.init 6 3 3)).
  simpl. lia.
Defined.

(** C9.  A list of the configured length is accepted whatever the phase,
    the selecting player, the current player or [game_over] are.  For
    [player_id = 1] the gates go to player 1 and the selecting player
    becomes 2; for every other [player_id] they go to player 2 and the
    phase becomes [show_bullets]. *)
Theorem submit_gate_selection_unguarded (player_id : Z) (sel : list GateType.t) (g : Game.t) :
  Z.of_nat (length sel) = Game.num_gates g →
  ∃ g', Game.submit_gate_selection player_id sel g = (true, g')
    ∧ Game.game_over g' = Game.game_over g
    ∧ Game.current_player g' = Game.current_player g
    ∧ (player_id = 1 →
       Game.player1 g' = set_gates sel (Game.player1 g)
       ∧ Game.player2 g' = Game.player2 g
       ∧ Game.gate_selection_player g' = 2
       ∧ Game.phase g' = Game.phase g)
    ∧ (player_id ≠ 1 →
       Game.player2 g' = set_gates sel (Game.player2 g)
       ∧ gates (Game.player2 g') = new_gate <$> sel
       ∧ Game.player1 g' = Game.player1 g
       ∧ Game.phase g' = show_bullets).
Proof.
  intros Hlen. unfold Game.submit_gate_selection.
  rewrite decide_False by (by intros ?).
  eexists. split; [reflexivity|].
  destruct (decide (player_id = 1)); simpl; by split_and!.
Qed.

Lemma submit_gate_selection_unguarded_witness :
  ∃ g', Game.submit_gate_selection 3 [GateType.CNOT] finished_game = (true, g')
    ∧ Game.game_over g' = true
    ∧ gates (Game.player2 g') = [new_gate GateType.CNOT]
    ∧ Game.phase g' = show_bullets.
Proof.
  destruct (submit_gate_selection_unguarded 3 [GateType.CNOT] finished_game)
    as (g' & Hs & Hover & _ & _ & Hp2); [by vm_compute|].
  destruct Hp2 as (_ & Hg & _ & Hph); [lia|].
  vm_compute in Hover.
  exists g'. split_and!; [exact Hs|exact Hover|exact Hg|exact Hph].
Defined.

(** ** Initial labels *)

(** C10.  [initialize_bullets] stores the sorted input list as the
    initial live positions: a sorted rearrangement of the whole input,
    out-of-range positions included, which is what
    [get_initial_bullet_config] reports.  The circuit receives a Pauli-X
    for the in-range positions only. *)
Theorem initialize_keeps_out_of_range_labels (live : list Z) (s : QBS.t) (g : Game.t) :
  let s' := QBS.initialize_bullets live s in
  QBS.initial_live_positions s' = QBS.sorted live
  ∧ Sorted Z.le (QBS.initial_live_positions s')
  ∧ QBS.initial_live_positions s' ≡ₚ live
  ∧ QBS.circuit s'
    = (λ pos, I1 UX pos) <$> filter (λ pos, 0 ≤ pos < QBS.num_bullets s) live
  ∧ (∀ pos, pos ∈ live → ¬ 0 ≤ pos < QBS.num_bullets s →
       pos ∈ QBS.initial_live_positions s' ∧ I1 UX pos ∉ QBS.circuit s')
  ∧ (Game.bullet_system g = Some s' →
     Game.get_initial_bullet_config g = (Game.num_bullets g, QBS.sorted live)).
Proof.
  simpl. split_and!.
  - done.
  - apply Sorted_merge_sort. apply _.
  - apply merge_sort_Permutation.
  - done.
  - intros pos Hin Hout. split.
    + unfold QBS.sorted. by rewrite merge_sort_Permutation.
    + intros Hc. apply list_elem_of_fmap in Hc as (pos' & [= <-] & Hc).
      apply list_elem_of_filter in Hc as [? _]. done.
  - intros Hsys. unfold Game.get_initial_bullet_config. by rewrite Hsys.
Qed.

Lemma initialize_keeps_out_of_range_labels_witness :
  QBS.initial_live_positions (new_chamber 3 [7; 1; -2]) = [-2; 1; 7]
  ∧ QBS.circuit (new_chamber 3 [7; 1; -2]) = [I1 UX 1]
  ∧ 7 ∈ QBS.initial_live_positions (new_chamber 3 [7; 1; -2])
  ∧ I1 UX 7 ∉ QBS.circuit (new_chamber 3 [7; 1; -2]).
Proof.
  destruct (initialize_keeps_out_of_range_labels [7; 1; -2]
              (default (QBS.mk 0 [] ∅ [] [] [] 0 None) (QBS.init 3))
              (Game.init 3 1 1))
    as (Hl & _ & _ & Hc & Hout & _).
  assert (Hin7 : 7 ∈ [7; 1; -2]) by constructor.
  assert (Hr : ¬ 0 ≤ 7 < 3) by lia.
  specialize (Hout 7 Hin7 Hr). destruct Hout as [Hin Hnot].
  split_and!; [exact Hl|exact Hc|exact Hin|exact Hnot].
Defined.

(** ** What a player sees *)

Lemma mapM_seqZ_total {B} (f : Z → option B) n :
  (∀ p, 0 ≤ p < n → is_Some (f p)) →
  ∃ l, mapM f (seqZ 0 n) = Some l ∧ length l = Z.to_nat n.
Proof.
  intros Hf. destruct (mapM f (seqZ 0 n)) as [l|] eqn:Hm.
  - exists l. split; [done|]. apply length_mapM in Hm. by rewrite <- Hm, length_seqZ.
  - apply mapM_None_1, Exists_exists in Hm as (p & Hp & Hnone).
    apply elem_of_seqZ in Hp. destruct (Hf p) as [y Hy]; [lia|]. congruence.
Qed.

Lemma mapM_seqZ_lookup {B} (f : Z → option B) n l p :
  mapM f (seqZ 0 n) = Some l → 0 ≤ p < n →
  ∃ y, l !! Z.to_nat p = Some y ∧ f p = Some y.
Proof.
  intros Hm Hp. apply mapM_Some_1 in Hm.
  destruct (Forall2_lookup_l _ _ _ (Z.to_nat p) p Hm) as (y & Hy & Hf).
  - rewrite lookup_seqZ_lt by lia. f_equal. lia.
  - eauto.
Qed.

Section Visibility.
Context `{Sim : Simulator}.

Lemma prob_entry_total free s q :
  well_sized s → 0 ≤ q < QBS.num_bullets s → is_Some (QBS.prob_entry free s q).
Proof.
  intros (Hn & Hlm & Hlr) Hq. unfold QBS.prob_entry.
  destruct (py_get_total (QBS.measured s) q) as [m ->]; [lia|]. simpl.
  destruct m.
  - destruct (py_get_total (QBS.measurement_results s) q) as [r ->]; [lia|].
    simpl. eauto.
  - destruct (QBS.collapsed_states s ≫= _); eauto.
Qed.

Lemma get_probabilities_total s :
  well_sized s →
  ∃ ps, QBS.get_probabilities s = Some ps
        ∧ length ps = Z.to_nat (QBS.num_bullets s).
Proof.
  intros Hw. unfold QBS.get_probabilities.
  destruct (runs _); apply mapM_seqZ_total; intros p Hp; by apply prob_entry_total.
Qed.

(** The classifier returns on every position of the chamber. *)
Lemma get_bullet_state_category_total s q :
  well_sized s → 0 ≤ q < QBS.num_bullets s →
  is_Some (QBS.get_bullet_state_category q s).
Proof.
  intros Hw Hq. pose proof Hw as (Hn & Hlm & Hlr).
  unfold QBS.get_bullet_state_category.
  destruct (py_get_total (QBS.measured s) q) as [m ->]; [lia|]. simpl.
  destruct m.
  - destruct (py_get_total (QBS.measurement_results s) q) as [r ->]; [lia|].
    simpl. eauto.
  - destruct (QBS.collapsed_states s ≫= _); [eauto|].
    destruct (get_probabilities_total s Hw) as (ps & -> & Hlen). simpl.
    destruct (py_get_total ps q) as [[pb pl] ->]; [lia|]. simpl. eauto.
Qed.

(** The three cases of the loop.  With a chamber in place,
    [get_visible_bullet_states] returns one state per position, and for the requesting player (player 1 for
    id 1, player 2 for any other id) the state of position [p] is:
    the fired outcome where [p] is measured; where [p] is unmeasured and
    the player's own history holds a gate with [p] among its targets,
    what [get_bullet_state_category] returns for [p]; otherwise the
    label [p] was loaded with, live exactly if [p] is among the initial
    live positions.  Nothing else of the game enters: not the
    opponent's history, not the circuit. *)
Lemma visible_states_by_case (for_player_id : Z) (g : Game.t) (sys : QBS.t) :
  chamber_ok g sys →
  let player := if decide (for_player_id = 1) then Game.player1 g else Game.player2 g in
  ∃ states,
    Game.get_visible_bullet_states for_player_id g = Some states
    ∧ length states = Z.to_nat (Game.num_bullets g)
    ∧ ∀ p, 0 ≤ p < Game.num_bullets g →
        ∃ c, states !! Z.to_nat p = Some c
          ∧ (py_get (QBS.measured sys) p = Some true →
             c = if decide (py_get (QBS.measurement_results sys) p = Some (Some 1))
                 then fired_live else fired_blank)
          ∧ (py_get (QBS.measured sys) p = Some false →
             Game.player_modified p player = true →
             QBS.get_bullet_state_category p sys = Some c)
          ∧ (py_get (QBS.measured sys) p = Some false →
             Game.player_modified p player = false →
             c = if decide (p ∈ QBS.initial_live_positions sys) then live else blank).
Proof.
  intros (Hsys & HN & Hw) player. pose proof Hw as (Hn & Hlm & Hlr).
  unfold Game.get_visible_bullet_states. rewrite Hsys. fold player.
  assert (Htot : ∀ p, 0 ≤ p < Game.num_bullets g →
            is_Some (Game.visible_state player sys p)).
  { intros p Hp. unfold Game.visible_state.
    destruct (py_get_total (QBS.measured sys) p) as [m ->]; [lia|]. simpl.
    destruct m.
    - destruct (py_get_total (QBS.measurement_results sys) p) as [r ->]; [lia|].
      simpl. eauto.
    - destruct (Game.player_modified p player); [|eauto].
      apply get_bullet_state_category_total; [done|lia]. }
  destruct (mapM_seqZ_total _ _ Htot) as (states & Hstates & Hlen).
  exists states. split_and!; [done|done|]. intros p Hp.
  destruct (mapM_seqZ_lookup _ _ _ p Hstates Hp) as (c & Hc & Hv).
  exists c. split; [done|]. unfold Game.visible_state in Hv.
  destruct (py_get (QBS.measured sys) p) as [[]|]; simpl in Hv; [| |done].
  - split_and!; [|done|done]. intros _.
    destruct (py_get (QBS.measurement_results sys) p) as [r|]; simpl in Hv; [|done].
    injection Hv as <-. repeat case_decide; congruence.
  - split_and!; [done| |].
    + intros _ Hmod. by rewrite Hmod in Hv.
    + intros _ Hmod. rewrite Hmod in Hv. by injection Hv as <-.
Qed.
End Visibility.

Lemma visible_states_by_case_witness :
  let player := if decide (1 = 1) then Game.player1 midgame else Game.player2 midgame in
  ∃ states,
    @Game.get_visible_bullet_states Exact.simulator 1 midgame = Some states
    ∧ length states = Z.to_nat (Game.num_bullets midgame)
    ∧ ∀ p, 0 ≤ p < Game.num_bullets midgame →
        ∃ c, states !! Z.to_nat p = Some c
          ∧ (py_get (QBS.measured (chamber_of midgame)) p = Some true →
             c = if decide (py_get (QBS.measurement_results (chamber_of midgame)) p
                            = Some (Some 1))
                 then fired_live else fired_blank)
          ∧ (py_get (QBS.measured (chamber_of midgame)) p = Some false →
             Game.player_modified p player = true →
             @QBS.get_bullet_state_category Exact.simulator p (chamber_of midgame)
             = Some c)
          ∧ (py_get (QBS.measured (chamber_of midgame)) p = Some false →
             Game.player_modified p player = false →
             c = if decide (p ∈ QBS.initial_live_positions (chamber_of midgame))
                 then live else blank).
Proof.
  apply (@visible_states_by_case Exact.simulator 1 midgame (chamber_of midgame)).
  unfold chamber_ok, well_sized. split_and!.
  - vm_compute. reflexivity.
  - vm_compute. reflexivity.
  - vm_compute. discriminate.
  - vm_compute. reflexivity.
  - vm_compute. reflexivity.
Defined.

(** What the two players see in that game: player 1 flipped position 1
    and is shown its present category, player 2 still sees the label it
    was loaded with. *)
Example midgame_views :
  @Game.get_visible_bullet_states Exact.simulator 1 midgame
    = Some [fired_blank; blank; blank; live]
  ∧ @Game.get_visible_bullet_states Exact.simulator 2 midgame
    = Some [fired_blank; live; blank; live].
Proof. by vm_compute. Qed.


(** ** The invariant of the game *)

Lemma init_game_inv n k l : game_inv (Game.init n k l).
Proof. split; [by vm_compute|]. intros sys Hsys. done. Qed.

Lemma start_new_round_game_inv live g g' :
  game_inv g → Game.start_new_round live g = Some g' → game_inv g'.
Proof.
  intros [Hd _]. unfold Game.start_new_round. case_decide; [done|].
  destruct (QBS.init (Game.num_bullets g)) as [s0|] eqn:Hi; simpl; [|done].
  intros [= <-]. split; [done|]. simpl. intros sys [= <-].
  split.
  - simpl. unfold QBS.init in Hi. case_decide; [done|]. by injection Hi as <-.
  - apply reachable_inv, reach_initialize. by eapply reach_init.
Qed.

Lemma submit_gate_selection_game_inv player_id sel g :
  game_inv g → game_inv (Game.submit_gate_selection player_id sel g).2.
Proof.
  intros [Hd Hsys]. unfold Game.submit_gate_selection.
  case_decide; [done|]. by repeat case_decide.
Qed.

Lemma start_playing_phase_game_inv g :
  game_inv g → game_inv (Game.start_playing_phase g).
Proof. by intros [Hd Hsys]. Qed.

Lemma use_peek_game_inv g : game_inv g → game_inv (Game.use_peek g).2.
Proof.
  intros [Hd Hsys]. unfold Game.use_peek.
  case_decide; [done|]. destruct (negb _); [done|].
  by destruct (Game.current_player g).
Qed.

Lemma apply_gate_game_inv gt t1 t2 g r g' :
  game_inv g → Game.apply_gate gt t1 t2 g = Some (r, g') → game_inv g'.
Proof.
  intros [Hd Hsys]. unfold Game.apply_gate.
  case_decide; [by intros [= <- <-]|].
  destruct (Game.game_over g); [by intros [= <- <-]|].
  destruct (Game.gate_applied_this_turn g); [by intros [= <- <-]|].
  destruct (negb _); [by intros [= <- <-]|].
  destruct (Game.bullet_system g) as [sys|] eqn:Hb; simpl; [|done].
  destruct (Hsys sys eq_refl) as [HN Hinv].
  destruct (QBS.apply_gate gt t1 t2 sys) as [[ok sys']|] eqn:Hg; simpl; [|done].
  pose proof (apply_gate_chamber_inv _ _ _ _ _ _ Hinv Hg) as Hinv'.
  apply apply_gate_frame in Hg as (HN' & _).
  destruct ok; intros [= <- <-];
    (split; [|simpl; intros ? [= <-]; split; try congruence]).
  - unfold distinct_players, use_gate.
    destruct (Game.current_player g); simpl; by destruct (mark_used _ _).
  - done.
Qed.

Lemma shoot_game_inv shoot_self sample g r g' :
  game_inv g → Game.shoot shoot_self sample g = Some (r, g') → game_inv g'.
Proof.
  intros [Hd Hsys]. unfold Game.shoot.
  case_decide; [by intros [= <- <-]|].
  destruct (Game.game_over g); [by intros [= <- <-]|].
  destruct (Game.bullet_system g) as [sys|] eqn:Hb; simpl; [|done].
  destruct (Hsys sys eq_refl) as [HN Hinv].
  destruct (fire_next_step sample sys Hinv)
    as [[_ ->]|(out & s1 & -> & _ & Hinv1 & HN1 & _)]; simpl.
  { intros [= <- <-]. split; [done|]. simpl. by intros ? [= <-]. }
  destruct out as [idx result]. simpl.
  case_decide.
  { intros [= <- <-]. split; [done|]. simpl. intros ? [= <-]. split; congruence. }
  intros [= <- <-].
  assert (Hkeep : ∀ g0 : Game.t,
            name (Game.player1 g0) = name (Game.player1 g) →
            name (Game.player2 g0) = name (Game.player2 g) →
            Game.bullet_system g0 = Some s1 →
            Game.num_bullets g0 = Game.num_bullets g → game_inv g0).
  { intros g0 H1 H2 Hb0 Hn0. split.
    - unfold distinct_players. by rewrite H1, H2.
    - intros ? Hs. rewrite Hb0 in Hs. injection Hs as <-. split; congruence. }
  apply Hkeep; destruct (bool_decide _), shoot_self;
    try destruct (Game.get_opponent _ _);
    try destruct (Game.current_player g);
    simpl; repeat case_match; done.
Qed.

(** * Further facts about the chamber *)

(** X1.  On a chamber of the right shape [apply_gate] always returns; it
    accepts exactly when the first target is a position of the chamber
    that is not measured and, for the two-position gate, the second
    target is another such position.  A refused gate leaves the chamber
    as it was. *)
Theorem apply_gate_accepts_exactly (gt : GateType.t) (t1 t2 : Z) (s : QBS.t) :
  well_sized s →
  ∃ ok s', QBS.apply_gate gt t1 t2 s = Some (ok, s')
    ∧ (ok = true ↔ valid_targets gt t1 t2 s)
    ∧ (ok = false → s' = s).
Proof.
  intros Hw. destruct (apply_gate_total gt t1 t2 s Hw) as (ok & s' & Hg).
  exists ok, s'. split_and!; [done| |].
  - split.
    + intros ->. apply apply_gate_success in Hg as (? & ? & ? & _). by unfold valid_targets.
    + intros (H1 & Hm & H2).
      rewrite (apply_gate_accepts gt t1 t2 s H1 Hm H2) in Hg. congruence.
  - intros ->. by apply apply_gate_frame in Hg as (_ & _ & _ & _ & _ & _ & ->).
Qed.

Lemma apply_gate_accepts_exactly_witness :
  ∃ ok s', QBS.apply_gate GateType.CNOT 1 1 bell_chamber = Some (ok, s')
    ∧ (ok = true ↔ valid_targets GateType.CNOT 1 1 bell_chamber)
    ∧ (ok = false → s' = bell_chamber).
Proof.
  apply (apply_gate_accepts_exactly GateType.CNOT 1 1 bell_chamber).
  apply reachable_inv. unfold bell_chamber. auto with chamber.
Defined.

(** X2.  An accepted gate adds exactly one instruction to the circuit and
    touches nothing of the measurement bookkeeping: measured flags,
    recorded outcomes, queue pointer, initial labels and deferred
    outcomes stay as they are; a single-position gate leaves the ledger
    alone as well. *)
Theorem gate_never_measures (gt : GateType.t) (t1 t2 : Z) (s s' : QBS.t) :
  QBS.apply_gate gt t1 t2 s = Some (true, s') →
  (∃ ins, QBS.circuit s' = QBS.circuit s ++ [ins])
  ∧ QBS.measured s' = QBS.measured s
  ∧ QBS.measurement_results s' = QBS.measurement_results s
  ∧ QBS.current_bullet_index s' = QBS.current_bullet_index s
  ∧ QBS.initial_live_positions s' = QBS.initial_live_positions s
  ∧ QBS.collapsed_states s' = QBS.collapsed_states s
  ∧ (GateType.is_two_qubit gt = false → QBS.entanglements s' = QBS.entanglements s).
Proof.
  intros Hg. pose proof (apply_gate_frame _ _ _ _ _ _ Hg) as (_ & ? & ? & ? & ? & ? & _).
  apply apply_gate_success in Hg as (_ & _ & _ & ->).
  split_and!; try done.
  - destruct gt; simpl; eauto.
  - intros Hsingle. rewrite dispatch_ledger. by rewrite Hsingle.
Qed.

Lemma gate_never_measures_witness :
  (∃ ins, QBS.circuit (then_gate GateType.H 1 (-1) deferred_one)
          = QBS.circuit deferred_one ++ [ins])
  ∧ QBS.measured (then_gate GateType.H 1 (-1) deferred_one) = QBS.measured deferred_one
  ∧ QBS.measurement_results (then_gate GateType.H 1 (-1) deferred_one)
    = QBS.measurement_results deferred_one
  ∧ QBS.current_bullet_index (then_gate GateType.H 1 (-1) deferred_one)
    = QBS.current_bullet_index deferred_one
  ∧ QBS.initial_live_positions (then_gate GateType.H 1 (-1) deferred_one)
    = QBS.initial_live_positions deferred_one
  ∧ QBS.collapsed_states (then_gate GateType.H 1 (-1) deferred_one)
    = QBS.collapsed_states deferred_one
  ∧ (GateType.is_two_qubit GateType.H = false →
     QBS.entanglements (then_gate GateType.H 1 (-1) deferred_one)
     = QBS.entanglements deferred_one).
Proof.
  apply (gate_never_measures GateType.H 1 (-1) deferred_one). reflexivity.
Defined.

Lemma py_get_insert_norm {A} (l : list A) q k v :
  py_norm (Z.of_nat (length l)) q = Some k →
  py_get (<[Z.to_nat k := v]> l) q = Some v.
Proof.
  intros Hk. unfold py_get. rewrite length_insert, Hk. simpl.
  apply list_lookup_insert_eq.
  unfold py_norm in Hk. repeat case_decide; simplify_eq; lia.
Qed.

Lemma py_get_insert_other {A} (l : list A) q q' k k' v :
  py_norm (Z.of_nat (length l)) q = Some k →
  py_norm (Z.of_nat (length l)) q' = Some k' →
  k ≠ k' →
  py_get (<[Z.to_nat k := v]> l) q' = py_get l q'.
Proof.
  intros Hk Hk' Hne. unfold py_get. rewrite length_insert, Hk'. simpl.
  apply list_lookup_insert_ne.
  unfold py_norm in Hk, Hk'. repeat case_decide; simplify_eq; lia.
Qed.

(** X3.  [measure_bullet] is idempotent: once a call has returned an
    outcome for a position, every later call on the state it left
    returns that outcome again, whatever the simulator would sample, and
    changes nothing. *)
Theorem measure_bullet_idempotent (q : Z) (sample sample' : bool)
    (s s' : QBS.t) (v : option Z) :
  well_sized s →
  QBS.measure_bullet q sample s = Some (v, s') →
  QBS.measure_bullet q sample' s' = Some (v, s').
Proof.
  intros Hw Hm. pose proof Hw as (Hn & Hlm & Hlr).
  destruct (measure_bullet_cases _ _ _ _ _ Hw Hm)
    as [(Ht & -> & Hr)|(_ & k & x & Hk & -> & HN & Hms & Hrs & _)].
  - unfold QBS.measure_bullet. rewrite Ht. simpl. by rewrite Hr.
  - unfold QBS.measure_bullet. rewrite Hms, Hrs.
    rewrite <- Hlm in Hk. rewrite (py_get_insert_norm _ _ _ _ Hk). simpl.
    rewrite Hlm, <- Hlr in Hk. by rewrite (py_get_insert_norm _ _ _ _ Hk).
Qed.

Lemma measure_bullet_idempotent_witness :
  QBS.measure_bullet 0 false (then_measure 0 true bell_chamber)
  = Some (Some 1, then_measure 0 true bell_chamber).
Proof.
  apply (measure_bullet_idempotent 0 true false bell_chamber).
  - apply reachable_inv. unfold bell_chamber. auto with chamber.
  - reflexivity.
Defined.

Lemma py_get_norm {A} (l : list A) q k :
  py_norm (Z.of_nat (length l)) q = Some k → py_get l q = py_get l k.
Proof.
  intros Hk. unfold py_get at 1. rewrite Hk. simpl.
  symmetry. apply py_get_in_range.
  unfold py_norm in Hk. repeat case_decide; simplify_eq; lia.
Qed.

Lemma py_norm_bounds n q k : py_norm n q = Some k → 0 ≤ k < n.
Proof. unfold py_norm. repeat case_decide; intros [= <-]; lia. Qed.

(** Where the outcome of a fresh measurement comes from, and what the
    call does to the deferred outcomes. *)
Lemma measure_bullet_source q sample s v s' :
  py_get (QBS.measured s) q = Some false →
  QBS.measure_bullet q sample s = Some (v, s') →
  (∃ x, QBS.collapsed_states s ≫= (λ c, c !! q) = Some x
        ∧ v = Some x
        ∧ QBS.collapsed_states s' = delete q <$> QBS.collapsed_states s)
  ∨ (QBS.collapsed_states s ≫= (λ c, c !! q) = None
     ∧ v = Some (Z.b2z sample)
     ∧ (QBS.collapsed_states s' = QBS.collapsed_states s
        ∨ ∃ p, QBS.collapsed_states s'
               = Some (<[p := Z.b2z sample]> (default ∅ (QBS.collapsed_states s))))).
Proof.
  intros Hf. unfold QBS.measure_bullet. rewrite Hf. simpl.
  destruct (QBS.collapsed_states s ≫= _) as [x|] eqn:Hc; intros H.
  - left. exists x. split; [done|].
    destruct (py_set _ _ _), (py_set _ _ _); simpl in H; try done.
    destruct (QBS.advance _ _ _); by simplify_eq/=.
  - right. split; [done|].
    destruct (py_norm _ _); simpl in H; [|done].
    destruct (py_set _ _ _), (py_set _ _ _); simpl in H; try done.
    destruct (if _ && _ then _ else _) as [[]|]; simpl in H; try done;
      destruct (QBS.advance _ _ _); simplify_eq/=; eauto.
Qed.

Lemma is_bit_b2z b : is_bit (Z.b2z b).
Proof. destruct b; [by right|by left]. Qed.

Lemma outcomes_are_bits_fresh n s :
  QBS.num_bullets s = n →
  QBS.measured s = replicate (Z.to_nat n) false →
  QBS.measurement_results s = replicate (Z.to_nat n) None →
  (∀ c, QBS.collapsed_states s = Some c → c = ∅) →
  outcomes_are_bits s.
Proof.
  intros HN Hm Hr Hc. split.
  - intros q Hq. rewrite Hm, Hr.
    rewrite !py_get_in_range by (rewrite length_replicate; lia).
    rewrite !lookup_replicate_2 by lia. done.
  - intros c q v Hsome. rewrite (Hc c Hsome), lookup_empty. done.
Qed.

Lemma measure_bullet_bits q sample s v s' :
  well_sized s → outcomes_are_bits s →
  QBS.measure_bullet q sample s = Some (v, s') →
  outcomes_are_bits s' ∧ ∃ x, v = Some x ∧ is_bit x.
Proof.
  intros Hw [Hres Hcache] Hm. pose proof Hw as (Hn & Hlm & Hlr).
  destruct (measure_bullet_cases _ _ _ _ _ Hw Hm)
    as [(Ht & -> & Hr)|(Hf & k & x & Hk & -> & HN & Hms & Hrs & _)].
  { split; [by split|].
    assert (∃ k, py_norm (QBS.num_bullets s) q = Some k) as [k Hk].
    { unfold py_get in Ht. rewrite Hlm in Ht.
      destruct (py_norm _ q); [eauto|done]. }
    pose proof (py_norm_bounds _ _ _ Hk) as Hkb. specialize (Hres k Hkb).
    rewrite <- Hlm in Hk. rewrite <- (py_get_norm _ _ _ Hk), Ht in Hres.
    rewrite Hlm, <- Hlr in Hk. rewrite <- (py_get_norm _ _ _ Hk), Hr in Hres.
    destruct Hres as (x & [= ->] & ?). eauto. }
  assert (Hx : is_bit x).
  { destruct (measure_bullet_source _ _ _ _ _ Hf Hm)
      as [(x' & Hc & [= ->] & _)|(_ & [= ->] & _)]; [|apply is_bit_b2z].
    destruct (QBS.collapsed_states s) as [c|] eqn:Hcs; [|done].
    by eapply Hcache. }
  split; [|eauto]. pose proof (py_norm_bounds _ _ _ Hk) as Hkb. split.
  - intros q' Hq'. rewrite HN in Hq'. rewrite Hms, Hrs.
    destruct (decide (k = q')) as [<-|Hne].
    + rewrite py_get_set_eq by lia. rewrite py_get_set_eq by lia. eauto.
    + rewrite !py_get_set_ne by lia. by apply Hres.
  - intros c q' v' Hc' Hl.
    destruct (measure_bullet_source _ _ _ _ _ Hf Hm)
      as [(_ & _ & _ & Hcs)|(_ & _ & [Hcs|[p Hcs]])]; rewrite Hcs in Hc'.
    + destruct (QBS.collapsed_states s) as [c0|] eqn:Hc0; simplify_eq/=.
      apply lookup_delete_Some in Hl as [_ Hl]. by eapply Hcache.
    + by eapply Hcache.
    + injection Hc' as <-. apply lookup_insert_Some in Hl as [[_ <-]|[_ Hl]].
      * apply is_bit_b2z.
      * destruct (QBS.collapsed_states s) as [c0|] eqn:Hc0; simpl in Hl.
        -- by eapply Hcache.
        -- by rewrite lookup_empty in Hl.
Qed.

Lemma reachable_bits s : reachable s → outcomes_are_bits s.
Proof.
  induction 1 as [n s Hi|live s _ _|gt t1 t2 s ok s' Hr IH Hg|q sample s v s' Hr IH Hm].
  - unfold QBS.init in Hi. case_decide; [done|]. injection Hi as <-.
    by eapply (outcomes_are_bits_fresh n).
  - eapply (outcomes_are_bits_fresh (QBS.num_bullets s)); try done.
    by intros c [= <-].
  - apply apply_gate_frame in Hg as (HN & Hm & Hrs & _ & _ & Hc & _).
    destruct IH as [IH1 IH2]. split.
    + intros q. rewrite HN, Hm, Hrs. apply IH1.
    + intros c q v. rewrite Hc. apply IH2.
  - apply reachable_inv in Hr as (Hw & _). by eapply measure_bullet_bits.
Qed.

(** X4.  In every state the chamber can reach, a measured position has a
    recorded outcome of 0 or 1, an unmeasured one has none, and every
    deferred outcome is 0 or 1; any [measure_bullet] call that returns
    yields 0 or 1. *)
Theorem outcomes_always_bits (s : QBS.t) :
  reachable s →
  outcomes_are_bits s
  ∧ ∀ q sample v s', QBS.measure_bullet q sample s = Some (v, s') →
      v = Some 0 ∨ v = Some 1.
Proof.
  intros Hr. pose proof (reachable_bits s Hr) as Hb. split; [done|].
  intros q sample v s' Hm. apply reachable_inv in Hr as (Hw & _).
  destruct (measure_bullet_bits _ _ _ _ _ Hw Hb Hm) as (_ & x & -> & [->| ->]); auto.
Qed.

Lemma outcomes_always_bits_witness :
  outcomes_are_bits deferred_one
  ∧ ∀ q sample v s', QBS.measure_bullet q sample deferred_one = Some (v, s') →
      v = Some 0 ∨ v = Some 1.
Proof.
  apply (outcomes_always_bits deferred_one). unfold deferred_one. auto with chamber.
Defined.

Lemma evolves_well_sized s s' :
  evolves s s' → well_sized s →
  well_sized s' ∧ QBS.num_bullets s' = QBS.num_bullets s.
Proof.
  induction 1 as [s|gt t1 t2 s s1 ok s' _ IH Hg|q sample s s1 v s' _ IH Hm]; intros Hw.
  - done.
  - destruct (IH Hw) as [Hw1 HN1].
    apply apply_gate_frame in Hg as (HN & Hm & Hr & _).
    unfold well_sized. rewrite HN, Hm, Hr. split; [done|congruence].
  - destruct (IH Hw) as [Hw1 HN1].
    destruct (measure_bullet_cases _ _ _ _ _ Hw1 Hm)
      as [(_ & -> & _)|(_ & k & x & _ & _ & HN & Hms & Hrs & _)]; [done|].
    destruct Hw1 as (? & ? & ?).
    unfold well_sized. rewrite HN, Hms, Hrs, !length_insert. split; [done|congruence].
Qed.

(** X5.  Measurement is final: through any sequence of gates and
    measurements a measured position stays measured and keeps the
    outcome that was recorded for it. *)
Theorem measured_positions_are_final (s s' : QBS.t) (q : Z) :
  evolves s s' → well_sized s →
  0 ≤ q < QBS.num_bullets s →
  py_get (QBS.measured s) q = Some true →
  py_get (QBS.measured s') q = Some true
  ∧ py_get (QBS.measurement_results s') q = py_get (QBS.measurement_results s) q.
Proof.
  intros Hev Hw Hq Ht.
  induction Hev as [s|gt t1 t2 s s1 ok s' Hev IH Hg|q' sample s s1 v s' Hev IH Hm].
  - done.
  - destruct (IH Hw Hq Ht) as [IH1 IH2].
    apply apply_gate_frame in Hg as (_ & Hm & Hr & _). by rewrite Hm, Hr.
  - destruct (IH Hw Hq Ht) as [IH1 IH2].
    destruct (evolves_well_sized _ _ Hev Hw) as [Hw1 HN1].
    destruct (measure_bullet_cases _ _ _ _ _ Hw1 Hm)
      as [(_ & -> & _)|(Hf & k & x & Hk & _ & HN & Hms & Hrs & _)]; [done|].
    pose proof Hw1 as (Hn & Hlm & Hlr).
    pose proof (py_norm_bounds _ _ _ Hk) as Hkb.
    assert (k ≠ q).
    { intros ->. rewrite <- Hlm in Hk. rewrite (py_get_norm _ _ _ Hk) in Hf. congruence. }
    rewrite Hms, Hrs, !py_get_set_ne by lia. done.
Qed.

Lemma measured_positions_are_final_witness :
  py_get (QBS.measured (then_measure 1 false (then_gate GateType.X 2 (-1) deferred_one))) 0
    = Some true
  ∧ py_get (QBS.measurement_results
              (then_measure 1 false (then_gate GateType.X 2 (-1) deferred_one))) 0
    = py_get (QBS.measurement_results deferred_one) 0.
Proof.
  apply (measured_positions_are_final deferred_one).
  - apply (evolves_measure 1 false deferred_one
             (then_gate GateType.X 2 (-1) deferred_one) (Some 1)); [|reflexivity].
    apply (evolves_gate GateType.X 2 (-1) deferred_one deferred_one true);
      [apply evolves_refl|reflexivity].
  - apply reachable_inv. unfold deferred_one. auto with chamber.
  - vm_compute. split; [discriminate|reflexivity].
  - reflexivity.
Defined.

Lemma reachable_ledger_proper s : reachable s → ledger_proper s.
Proof.
  induction 1 as [n s Hi|live s _ _|gt t1 t2 s ok s' Hr IH Hg|q sample s v s' Hr IH Hm].
  - unfold QBS.init in Hi. case_decide; [done|]. injection Hi as <-.
    intros a b. simpl. by rewrite lookup_empty.
  - intros a b. simpl. by rewrite lookup_empty.
  - destruct ok.
    + apply apply_gate_success in Hg as (H1 & _ & H2 & ->).
      intros a b. rewrite dispatch_ledger.
      replace (QBS.num_bullets (QBS.dispatch gt t1 t2 s)) with (QBS.num_bullets s)
        by (by destruct gt).
      destruct (GateType.is_two_qubit gt); [|apply IH].
      destruct H2 as (? & _ & ?); [done|].
      intros Hab. apply lookup_insert_Some in Hab as [[<- <-]|[_ Hab]]; [done|].
      apply lookup_insert_Some in Hab as [[<- <-]|[_ Hab]]; [done|].
      eapply IH, break_ledger_lookup, Hab.
    + by apply apply_gate_frame in Hg as (_ & _ & _ & _ & _ & _ & ->).
  - intros a b Hab. apply reachable_inv in Hr as (Hw & _).
    assert (QBS.num_bullets s' = QBS.num_bullets s) as ->.
    { destruct (measure_bullet_cases _ _ _ _ _ Hw Hm)
        as [(_ & -> & _)|(_ & k & x & _ & _ & HN & _)]; done. }
    destruct (measure_bullet_ledger _ _ _ _ _ Hm) as [He|He]; rewrite He in Hab.
    + by apply IH.
    + eapply IH, break_ledger_lookup, Hab.
Qed.

(** X6.  In every state the chamber can reach, each ledger entry joins
    two different positions of the chamber: no entry has a key or a
    partner out of range and no position is its own partner. *)
Theorem ledger_joins_distinct_positions (s : QBS.t) (a b : Z) :
  reachable s →
  QBS.entanglements s !! a = Some b →
  0 ≤ a < QBS.num_bullets s ∧ 0 ≤ b < QBS.num_bullets s ∧ a ≠ b.
Proof. intros Hr. by apply reachable_ledger_proper. Qed.

Lemma ledger_joins_distinct_positions_witness :
  0 ≤ 1 < QBS.num_bullets twice_controlled
  ∧ 0 ≤ 0 < QBS.num_bullets twice_controlled
  ∧ 1 ≠ 0.
Proof.
  apply (ledger_joins_distinct_positions twice_controlled 1 0).
  - unfold twice_controlled. auto with chamber.
  - reflexivity.
Defined.

(** X7.  [_break_entanglement] on a position without a ledger entry
    changes nothing.  Otherwise it removes the entry of the position and
    the entry held by its partner, keeps every other entry, and touches
    nothing but the ledger; doing it twice is doing it once. *)
Theorem break_entanglement_removes_pair (q : Z) (s : QBS.t) :
  let s' := QBS._break_entanglement q s in
  (QBS.entanglements s !! q = None → s' = s)
  ∧ QBS.entanglements s' !! q = None
  ∧ (∀ p, QBS.entanglements s !! q = Some p → QBS.entanglements s' !! p = None)
  ∧ (∀ c, c ≠ q → QBS.entanglements s !! q ≠ Some c →
       QBS.entanglements s' !! c = QBS.entanglements s !! c)
  ∧ QBS._break_entanglement q s' = s'
  ∧ QBS.circuit s' = QBS.circuit s
  ∧ QBS.measured s' = QBS.measured s
  ∧ QBS.collapsed_states s' = QBS.collapsed_states s.
Proof.
  simpl. unfold QBS._break_entanglement, QBS.break_ledger. simpl.
  destruct (QBS.entanglements s !! q) as [p|] eqn:Hq.
  - split_and!; try done.
    + destruct (decide (p = q)) as [->|Hne]; [apply lookup_delete_eq|].
      rewrite lookup_delete_ne by done. apply lookup_delete_eq.
    + intros p' [= <-]. apply lookup_delete_eq.
    + intros c Hcq Hcp. rewrite !lookup_delete_ne; [done|done|congruence].
    + assert (delete p (delete q (QBS.entanglements s)) !! q = None) as ->; [|done].
      destruct (decide (p = q)) as [->|Hne]; [apply lookup_delete_eq|].
      rewrite lookup_delete_ne by done. apply lookup_delete_eq.
  - split_and!; try done.
    + intros _. by destruct s.
    + by rewrite Hq.
Qed.

Lemma break_entanglement_removes_pair_witness :
  let s' := QBS._break_entanglement 0 twice_controlled in
  (QBS.entanglements twice_controlled !! 0 = None → s' = twice_controlled)
  ∧ QBS.entanglements s' !! 0 = None
  ∧ (∀ p, QBS.entanglements twice_controlled !! 0 = Some p →
       QBS.entanglements s' !! p = None)
  ∧ (∀ c, c ≠ 0 → QBS.entanglements twice_controlled !! 0 ≠ Some c →
       QBS.entanglements s' !! c = QBS.entanglements twice_controlled !! c)
  ∧ QBS._break_entanglement 0 s' = s'
  ∧ QBS.circuit s' = QBS.circuit twice_controlled
  ∧ QBS.measured s' = QBS.measured twice_controlled
  ∧ QBS.collapsed_states s' = QBS.collapsed_states twice_controlled.
Proof. apply (break_entanglement_removes_pair 0 twice_controlled). Defined.

(** * Further facts about probabilities and classification *)

Section Classification.
Context `{Sim : Simulator}.

(** X8.  An unmeasured position without a deferred outcome that holds a
  ledger entry is classified [entangled], whatever its probabilities
  are and whether or not the partner still names it. *)
Theorem ledgered_position_is_entangled (q p : Z) (s : QBS.t) :
well_sized s →
0 ≤ q < QBS.num_bullets s →
py_get (QBS.measured s) q = Some false →
QBS.collapsed_states s ≫= (λ c, c !! q) = None →
QBS.entanglements s !! q = Some p →
QBS.get_bullet_state_category q s = Some entangled.
Proof.
intros Hw Hq Hm Hc He. unfold QBS.get_bullet_state_category.
rewrite Hm. simpl. rewrite Hc.
destruct (get_probabilities_total s Hw) as (ps & -> & Hlen). simpl.
destruct (py_get_total ps q) as [[pb pl] ->]; [lia|]. simpl.
rewrite He. rewrite bool_decide_true by eauto.
by destruct (gt_099 pl), (lt_001 pl).
Qed.

(** X9.  The classifier returns on every position of the chamber; it
  answers [fired_live] or [fired_blank] exactly for measured
  positions, [fired_live] exactly when the recorded outcome is 1. *)
Theorem fired_categories_mean_measured (q : Z) (s : QBS.t) :
well_sized s →
0 ≤ q < QBS.num_bullets s →
∃ c, QBS.get_bullet_state_category q s = Some c
  ∧ (py_get (QBS.measured s) q = Some true ↔ (c = fired_live ∨ c = fired_blank))
  ∧ (c = fired_live ↔
     py_get (QBS.measured s) q = Some true
     ∧ py_get (QBS.measurement_results s) q = Some (Some 1)).
Proof.
intros Hw Hq. pose proof Hw as (Hn & Hlm & Hlr).
destruct (get_bullet_state_category_total s q Hw Hq) as [c Hc]. exists c.
split; [done|]. unfold QBS.get_bullet_state_category in Hc.
destruct (py_get_total (QBS.measured s) q) as [m Hm]; [lia|].
destruct (py_get_total (QBS.measurement_results s) q) as [r Hr]; [lia|].
rewrite Hm in Hc. simpl in Hc. rewrite Hm, Hr. destruct m.
- rewrite Hr in Hc. simpl in Hc. injection Hc as <-.
  case_decide; subst; split; split; intuition congruence.
- assert (c ≠ fired_live ∧ c ≠ fired_blank) as [? ?]; [|split; split; intuition congruence].
  destruct (QBS.collapsed_states s ≫= _).
  { injection Hc as <-. by case_decide. }
  destruct (QBS.get_probabilities s); simpl in Hc; [|done].
  destruct (py_get _ q) as [[pb pl]|]; simpl in Hc; [|done].
  injection Hc as <-.
  by destruct (gt_099 pl), (lt_001 pl), (bool_decide _).
Qed.

(** X10.  A deferred outcome shows before the position is fired: an
  unmeasured position holding the deferred outcome [v] is classified
  [live] if [v] is 1 and [blank] otherwise, ledger entry or not, and
  [measure_bullet] on it returns [v] whatever the simulator samples. *)
Theorem deferred_outcome_is_announced (q v : Z) (sample : bool) (s : QBS.t) :
chamber_inv s →
0 ≤ q < QBS.num_bullets s →
py_get (QBS.measured s) q = Some false →
QBS.collapsed_states s ≫= (λ c, c !! q) = Some v →
QBS.get_bullet_state_category q s = Some (if decide (v = 1) then live else blank)
∧ ∃ s', QBS.measure_bullet q sample s = Some (Some v, s').
Proof.
intros ((Hn & Hlm & Hlr) & (Hp & _) & _) Hq Hm Hc. split.
- unfold QBS.get_bullet_state_category. rewrite Hm. simpl. by rewrite Hc.
- unfold QBS.measure_bullet. rewrite Hm. simpl. rewrite Hc.
  rewrite !py_set_in_range by lia. simpl.
  destruct (advance_total (<[Z.to_nat q := true]> (QBS.measured s))
              (QBS.num_bullets s) (QBS.current_bullet_index s + 1)) as [j ->];
    [lia|rewrite length_insert; lia|].
  simpl. eauto.
Qed.

(** X11.  [get_probabilities] returns one pair per position, and for a
  measured position the pair is the recorded outcome: (1, 0) for
  outcome 0 and (0, 1) for outcome 1, whether the simulator run
  succeeded or the fallback was taken. *)
Theorem measured_probabilities_are_certain (s : QBS.t) :
reachable s →
∃ ps, QBS.get_probabilities s = Some ps
  ∧ length ps = Z.to_nat (QBS.num_bullets s)
  ∧ ∀ q, 0 ≤ q < QBS.num_bullets s →
      (py_get (QBS.measurement_results s) q = Some (Some 0) →
       ps !! Z.to_nat q = Some (prob_one, prob_zero))
      ∧ (py_get (QBS.measurement_results s) q = Some (Some 1) →
         ps !! Z.to_nat q = Some (prob_zero, prob_one)).
Proof.
intros Hr. pose proof (reachable_inv s Hr) as (Hw & _).
pose proof (reachable_bits s Hr) as [Hbits _].
destruct (get_probabilities_total s Hw) as (ps & Hps & Hlen).
exists ps. split_and!; [done|done|]. intros q Hq.
assert (Hentry : ∃ free, QBS.prob_entry free s q = ps !! Z.to_nat q).
{ unfold QBS.get_probabilities in Hps.
  destruct (runs _);
    destruct (mapM_seqZ_lookup _ _ _ q Hps Hq) as (y & -> & <-); eauto. }
destruct Hentry as [free <-]. unfold QBS.prob_entry.
specialize (Hbits q Hq).
destruct (py_get (QBS.measured s) q) as [[]|]; [| |done].
- destruct Hbits as (v & -> & Hv). simpl.
  split; intros [= ->]; done.
- rewrite Hbits. split; intros [=].
Qed.
End Classification.

Lemma ledgered_position_is_entangled_witness :
  @QBS.get_bullet_state_category Exact.simulator 1 twice_controlled = Some entangled.
Proof.
  apply (@ledgered_position_is_entangled Exact.simulator 1 0 twice_controlled).
  - apply reachable_inv. unfold twice_controlled. auto with chamber.
  - vm_compute. split; [discriminate|reflexivity].
  - reflexivity.
  - reflexivity.
  - reflexivity.
Defined.

Lemma fired_categories_mean_measured_witness :
  ∃ c, @QBS.get_bullet_state_category Exact.simulator 0 deferred_one = Some c
    ∧ (py_get (QBS.measured deferred_one) 0 = Some true
       ↔ (c = fired_live ∨ c = fired_blank))
    ∧ (c = fired_live ↔
       py_get (QBS.measured deferred_one) 0 = Some true
       ∧ py_get (QBS.measurement_results deferred_one) 0 = Some (Some 1)).
Proof.
  apply (@fired_categories_mean_measured Exact.simulator 0 deferred_one).
  - apply reachable_inv. unfold deferred_one. auto with chamber.
  - vm_compute. split; [discriminate|reflexivity].
Defined.

Lemma deferred_outcome_is_announced_witness :
  @QBS.get_bullet_state_category Exact.simulator 1 deferred_one
    = Some (if decide (1 = 1) then live else blank)
  ∧ ∃ s', QBS.measure_bullet 1 false deferred_one = Some (Some 1, s').
Proof.
  apply (@deferred_outcome_is_announced Exact.simulator 1 1 false deferred_one).
  - apply reachable_inv. unfold deferred_one. auto with chamber.
  - vm_compute. split; [discriminate|reflexivity].
  - reflexivity.
  - reflexivity.
Defined.

Lemma measured_probabilities_are_certain_witness :
  ∃ ps, @QBS.get_probabilities Exact.simulator deferred_one = Some ps
    ∧ length ps = Z.to_nat (QBS.num_bullets deferred_one)
    ∧ ∀ q, 0 ≤ q < QBS.num_bullets deferred_one →
        (py_get (QBS.measurement_results deferred_one) q = Some (Some 0) →
         ps !! Z.to_nat q = Some (@prob_one Exact.simulator, @prob_zero Exact.simulator))
        ∧ (py_get (QBS.measurement_results deferred_one) q = Some (Some 1) →
           ps !! Z.to_nat q = Some (@prob_zero Exact.simulator, @prob_one Exact.simulator)).
Proof.
  apply (@measured_probabilities_are_certain Exact.simulator deferred_one).
  unfold deferred_one. auto with chamber.
Defined.

(** * A freshly loaded chamber *)

Lemma basis_index_nonneg l : (∀ p, p ∈ l → 0 ≤ p) → 0 ≤ basis_index l.
Proof.
  induction l as [|p l IH]; intros Hl; [done|].
  simpl. unfold flip_bit. apply Z.lxor_nonneg.
  rewrite Z.shiftl_1_l. split; intros _.
  - apply Z.pow_nonneg. lia.
  - apply IH. intros p' Hp'. apply Hl. by right.
Qed.

Lemma flip_bit_testbit p m q :
  0 ≤ p → Z.testbit (flip_bit p m) q = xorb (Z.testbit m q) (p =? q).
Proof.
  intros Hp. unfold flip_bit.
  by rewrite Z.lxor_spec, Z.shiftl_1_l, Z.pow2_bits_eqb.
Qed.

Lemma basis_index_testbit_out l q :
  (∀ p, p ∈ l → 0 ≤ p) → q ∉ l → Z.testbit (basis_index l) q = false.
Proof.
  induction l as [|p l IH]; intros Hl Hq; [apply Z.bits_0|].
  simpl. rewrite flip_bit_testbit by (apply Hl; by left).
  rewrite IH; [|intros p' Hp'; apply Hl; by right|intros ?; apply Hq; by right].
  assert (p ≠ q) by (intros ->; apply Hq; by left).
  by rewrite (proj2 (Z.eqb_neq p q)).
Qed.

Lemma basis_index_testbit_in l q :
  NoDup l → (∀ p, p ∈ l → 0 ≤ p) → q ∈ l → Z.testbit (basis_index l) q = true.
Proof.
  induction 1 as [|p l Hp Hnd IH]; intros Hl Hq; [by inversion Hq|].
  simpl. rewrite flip_bit_testbit by (apply Hl; by left).
  assert (Hl' : ∀ p', p' ∈ l → 0 ≤ p') by (intros p' Hp'; apply Hl; by right).
  apply elem_of_cons in Hq as [->|Hq].
  - rewrite basis_index_testbit_out by done. by rewrite Z.eqb_refl.
  - rewrite IH by done.
    assert (p ≠ q) by (by intros ->).
    by rewrite (proj2 (Z.eqb_neq p q)).
Qed.

Lemma basis_index_bound n l :
  0 ≤ n → (∀ p, p ∈ l → 0 ≤ p < n) → 0 ≤ basis_index l < 2 ^ n.
Proof.
  intros Hn Hl.
  assert (Hnn : 0 ≤ basis_index l).
  { apply basis_index_nonneg. intros p Hp. by apply Hl. }
  apply Z.bounded_iff_bits_nonneg'; [done|done|].
  intros q Hq. apply basis_index_testbit_out.
  - intros p Hp. by apply Hl.
  - intros Hin. apply Hl in Hin. lia.
Qed.

Lemma foldr_flip_bit i l : foldr flip_bit i l = Z.lxor i (basis_index l).
Proof.
  induction l as [|p l IH]; simpl; [by rewrite Z.lxor_0_r|].
  rewrite IH. unfold flip_bit. by rewrite Z.lxor_assoc.
Qed.

Section FreshChamber.
Context `{Sim : Simulator}.

(** The state the loading circuit prepares is the basis state of the
  flipped positions. *)
Lemma run_statevector_loading l i :
run_statevector ((λ pos, I1 UX pos) <$> l) i
= if decide (i = basis_index l) then amp_one else amp_zero.
Proof.
assert (H : run_statevector ((λ pos, I1 UX pos) <$> l) i = ket0 (foldr flip_bit i l)).
{ revert i. induction l as [|p l IH] using rev_ind; intros i; [done|].
  rewrite fmap_app. simpl. rewrite run_statevector_snoc. simpl.
  rewrite IH. by rewrite foldr_app. }
rewrite H, foldr_flip_bit. unfold ket0.
destruct (decide (i = basis_index l)) as [->|Hne].
- by rewrite Z.lxor_nilpotent, decide_True.
- rewrite decide_False; [done|]. intros Hz. by apply Z.lxor_eq in Hz.
Qed.

Lemma marginal_skip (sv : statevec) q l acc :
definite_arithmetic →
(∀ i, i ∈ l → sv i = amp_zero) →
(acc.1 = prob_zero ∨ acc.1 = prob_one) →
(acc.2 = prob_zero ∨ acc.2 = prob_one) →
fold_left
  (λ (acc : prob * prob) i,
     if Z.testbit i q
     then (acc.1, prob_add acc.2 (abs2 (sv i)))
     else (prob_add acc.1 (abs2 (sv i)), acc.2))
  l acc = acc.
Proof.
intros (Ha0 & _ & H00 & _ & H10) Hl. revert acc.
induction l as [|i l IH]; intros [a b] H1 H2; [done|].
simpl in *. rewrite (Hl i) by (by left). rewrite Ha0.
assert (prob_add a prob_zero = a) as Ea by (destruct H1 as [-> | ->]; done).
assert (prob_add b prob_zero = b) as Eb by (destruct H2 as [-> | ->]; done).
destruct (Z.testbit i q); rewrite ?Ea, ?Eb;
  (apply IH; [intros j Hj; apply Hl; by right|done|done]).
Qed.

Lemma marginal_basis n m q (sv : statevec) :
definite_arithmetic →
0 ≤ m < 2 ^ n →
(∀ i, sv i = if decide (i = m) then amp_one else amp_zero) →
marginal n sv q
= if Z.testbit m q then (prob_zero, prob_one) else (prob_one, prob_zero).
Proof.
intros Hd Hm Hsv. pose proof Hd as (Ha0 & Ha1 & H00 & H01 & H10).
unfold marginal.
replace (2 ^ n) with (m + (1 + (2 ^ n - m - 1))) by lia.
rewrite seqZ_app by lia. rewrite (seqZ_app _ 1) by lia.
rewrite !fold_left_app.
rewrite (marginal_skip sv q (seqZ 0 m) (prob_zero, prob_zero));
  [|done| |by left|by left].
2:{ intros i Hi. apply elem_of_seqZ in Hi. rewrite Hsv, decide_False by lia. done. }
replace (seqZ (0 + m) 1) with [m] by (by rewrite seqZ_cons, seqZ_nil by lia).
simpl. rewrite Hsv, decide_True by done. rewrite Ha1, H01.
rewrite marginal_skip; [done|done| | |].
- intros i Hi. apply elem_of_seqZ in Hi. rewrite Hsv, decide_False by lia. done.
- destruct (Z.testbit m q); simpl; auto.
- destruct (Z.testbit m q); simpl; auto.
Qed.

Lemma mapM_fmap_total {A B} (f : A → option B) (g : A → B) (l : list A) :
(∀ x, x ∈ l → f x = Some (g x)) → mapM f l = Some (g <$> l).
Proof.
intros Hf. apply mapM_Some_2. induction l as [|x l IH]; [constructor|].
simpl. constructor; [apply Hf; by left|].
apply IH. intros y Hy. apply Hf. by right.
Qed.

Lemma fresh_prob_entry free live s q :
0 ≤ q < QBS.num_bullets s →
QBS.prob_entry free (QBS.initialize_bullets live s) q = Some (free q).
Proof.
intros Hq. unfold QBS.prob_entry. simpl.
rewrite (py_get_in_range (replicate _ false)) by (rewrite length_replicate; lia).
rewrite lookup_replicate_2 by lia. simpl. by rewrite lookup_empty.
Qed.

Lemma fresh_probabilities (live : list Z) (s : QBS.t) :
definite_arithmetic →
runs (QBS.num_bullets s) = true →
0 ≤ QBS.num_bullets s →
NoDup live →
(∀ p, p ∈ live → 0 ≤ p < QBS.num_bullets s) →
QBS.get_probabilities (QBS.initialize_bullets live s)
= Some ((λ q, if decide (q ∈ live)
              then (prob_zero, prob_one) else (prob_one, prob_zero))
        <$> seqZ 0 (QBS.num_bullets s)).
Proof.
intros Hd Hruns Hn Hnd Hin. unfold QBS.get_probabilities.
change (QBS.num_bullets (QBS.initialize_bullets live s)) with (QBS.num_bullets s).
rewrite Hruns.
apply mapM_fmap_total. intros q Hq. apply elem_of_seqZ in Hq.
rewrite fresh_prob_entry by lia. f_equal. simpl.
assert (Hfilter : filter (λ pos, 0 ≤ pos < QBS.num_bullets s) live = live).
{ clear Hnd. induction live as [|p l IH]; [done|].
  rewrite filter_cons_True by (apply Hin; by left).
  f_equal. apply IH. intros p' Hp'. apply Hin. by right. }
rewrite Hfilter.
assert (Hpos : ∀ p, p ∈ live → 0 ≤ p) by (intros p Hp; apply Hin in Hp; lia).
rewrite (marginal_basis _ (basis_index live) q);
  [|done|by apply basis_index_bound|intros i; apply run_statevector_loading].
destruct (decide (q ∈ live)) as [Hql|Hql].
- by rewrite basis_index_testbit_in.
- by rewrite basis_index_testbit_out.
Qed.

(** X12.  Right after [initialize_bullets] with distinct in-range live
  positions, and before any gate, [get_probabilities] returns (0, 1)
  for every live position and (1, 0) for every other one. *)
Theorem fresh_chamber_is_definite (live : list Z) (s : QBS.t) :
definite_arithmetic →
runs (QBS.num_bullets s) = true →
0 ≤ QBS.num_bullets s →
NoDup live →
(∀ p, p ∈ live → 0 ≤ p < QBS.num_bullets s) →
∃ ps, QBS.get_probabilities (QBS.initialize_bullets live s) = Some ps
  ∧ length ps = Z.to_nat (QBS.num_bullets s)
  ∧ ∀ q, 0 ≤ q < QBS.num_bullets s →
      ps !! Z.to_nat q
      = Some (if decide (q ∈ live)
              then (prob_zero, prob_one) else (prob_one, prob_zero)).
Proof.
intros Hd Hruns Hn Hnd Hin. eexists. split; [by apply fresh_probabilities|].
split; [by rewrite length_fmap, length_seqZ|].
intros q Hq. rewrite list_lookup_fmap, lookup_seqZ_lt by lia. simpl.
by replace (0 + Z.of_nat (Z.to_nat q)) with q by lia.
Qed.

(** X13.  In that freshly loaded chamber the classifier agrees with the
  stored labels: every position is [live] if it is among the initial
  live positions and [blank] otherwise. *)
Theorem fresh_chamber_classifies_as_labelled (loaded : list Z) (s : QBS.t) (q : Z) :
definite_arithmetic → sharp_thresholds →
runs (QBS.num_bullets s) = true →
NoDup loaded →
(∀ p, p ∈ loaded → 0 ≤ p < QBS.num_bullets s) →
0 ≤ q < QBS.num_bullets s →
QBS.get_bullet_state_category q (QBS.initialize_bullets loaded s)
= Some (if decide (q ∈ QBS.initial_live_positions (QBS.initialize_bullets loaded s))
        then live else blank).
Proof.
intros Hd (Hg1 & Hg0 & Hl0) Hruns Hnd Hin Hq.
unfold QBS.get_bullet_state_category.
rewrite fresh_probabilities by (done || lia).
simpl.
rewrite (py_get_in_range (replicate _ false)) by (rewrite length_replicate; lia).
rewrite lookup_replicate_2 by lia. simpl. rewrite !lookup_empty.
rewrite py_get_in_range by (rewrite length_fmap, length_seqZ; lia).
rewrite list_lookup_fmap, lookup_seqZ_lt by lia. simpl.
replace (0 + Z.of_nat (Z.to_nat q)) with q by lia.
assert (Hlab : q ∈ QBS.sorted loaded ↔ q ∈ loaded).
{ unfold QBS.sorted. by rewrite merge_sort_Permutation. }
destruct (decide (q ∈ loaded)) as [Hql|Hql].
- rewrite Hg1. rewrite decide_True by (by apply Hlab). done.
- rewrite Hg0, Hl0. rewrite decide_False by (by rewrite Hlab). done.
Qed.
End FreshChamber.

Lemma exact_definite_arithmetic : @definite_arithmetic Exact.simulator.
Proof. by vm_compute. Qed.

Lemma exact_sharp_thresholds : @sharp_thresholds Exact.simulator.
Proof. by vm_compute. Qed.

Lemma fresh_chamber_is_definite_witness :
  ∃ ps, @QBS.get_probabilities Exact.simulator
          (QBS.initialize_bullets [3; 1] (new_chamber 4 [])) = Some ps
    ∧ length ps = Z.to_nat (QBS.num_bullets (new_chamber 4 []))
    ∧ ∀ q, 0 ≤ q < QBS.num_bullets (new_chamber 4 []) →
        ps !! Z.to_nat q
        = Some (if decide (q ∈ [3; 1])
                then (@prob_zero Exact.simulator, @prob_one Exact.simulator)
                else (@prob_one Exact.simulator, @prob_zero Exact.simulator)).
Proof.
  apply (@fresh_chamber_is_definite Exact.simulator [3; 1] (new_chamber 4 [])).
  - exact exact_definite_arithmetic.
  - reflexivity.
  - vm_compute. discriminate.
  - apply (bool_decide_eq_true_1 (NoDup [3; 1])). by vm_compute.
  - intros p Hp. vm_compute.
    apply elem_of_cons in Hp as [->|Hp]; [split; [discriminate|reflexivity]|].
    apply elem_of_cons in Hp as [->|Hp]; [split; [discriminate|reflexivity]|].
    inversion Hp.
Defined.

Lemma fresh_chamber_classifies_as_labelled_witness :
  @QBS.get_bullet_state_category Exact.simulator 3
     (QBS.initialize_bullets [3; 1] (new_chamber 4 []))
  = Some (if decide (3 ∈ QBS.initial_live_positions
                          (QBS.initialize_bullets [3; 1] (new_chamber 4 [])))
          then live else blank).
Proof.
  apply (@fresh_chamber_classifies_as_labelled Exact.simulator [3; 1]
           (new_chamber 4 []) 3).
  - exact exact_definite_arithmetic.
  - exact exact_sharp_thresholds.
  - reflexivity.
  - apply (bool_decide_eq_true_1 (NoDup [3; 1])). by vm_compute.
  - intros p Hp. vm_compute.
    apply elem_of_cons in Hp as [->|Hp]; [split; [discriminate|reflexivity]|].
    apply elem_of_cons in Hp as [->|Hp]; [split; [discriminate|reflexivity]|].
    inversion Hp.
  - vm_compute. split; [discriminate|reflexivity].
Defined.

(** * Further facts about players *)

Lemma stock_in_cons gt g gs :
  stock_in gt (g :: gs) = ((if matches gt g then 1 else 0) + stock_in gt gs)%nat.
Proof.
  unfold stock_in. destruct (matches gt g) eqn:Hm.
  - by rewrite filter_cons_True.
  - rewrite filter_cons_False; [done|]. by rewrite Hm.
Qed.

Lemma existsb_stock gt gs : existsb (matches gt) gs = true ↔ (0 < stock_in gt gs)%nat.
Proof.
  induction gs as [|g gs IH]; simpl; [unfold stock_in; simpl; split; [done|lia]|].
  rewrite stock_in_cons. destruct (matches gt g); simpl; [split; [lia|done]|].
  rewrite IH. lia.
Qed.

Lemma matches_kind gt gt' g : matches gt g = true → gt' ≠ gt → matches gt' g = false.
Proof.
  unfold matches. intros [Hk _]%andb_true_iff Hne.
  apply bool_decide_eq_true in Hk.
  rewrite bool_decide_false; [done|congruence].
Qed.

Lemma mark_used_spec gt gs :
  (mark_used gt gs).1 = existsb (matches gt) gs
  ∧ (existsb (matches gt) gs = false → (mark_used gt gs).2 = gs)
  ∧ gate_type <$> (mark_used gt gs).2 = gate_type <$> gs
  ∧ (existsb (matches gt) gs = true →
     (stock_in gt (mark_used gt gs).2 + 1 = stock_in gt gs)%nat
     ∧ ∀ gt', gt' ≠ gt → stock_in gt' (mark_used gt gs).2 = stock_in gt' gs).
Proof.
  induction gs as [|g gs (IH1 & IH2 & IH3 & IH4)]; [done|].
  simpl. destruct (matches gt g) eqn:Hm; simpl.
  - split_and!; try done. intros _. rewrite !stock_in_cons, Hm.
    assert (matches gt (mkGate (gate_type g) true) = false) as ->.
    { unfold matches. simpl. apply andb_false_r. }
    split; [lia|]. intros gt' Hne. rewrite !stock_in_cons.
    rewrite (matches_kind gt gt' g Hm Hne).
    assert (matches gt' (mkGate (gate_type g) true) = false) as ->; [|done].
    unfold matches. simpl. apply andb_false_r.
  - destruct (mark_used gt gs) as [found rest] eqn:Hmu. simpl in *.
    split_and!; [done| |by f_equal|].
    + intros Hno. by rewrite IH2.
    + intros Hyes. destruct (IH4 Hyes) as [IHa IHb].
      rewrite !stock_in_cons, Hm. split; [lia|].
      intros gt' Hne. rewrite !stock_in_cons. by rewrite IHb.
Qed.

(** X14.  [use_gate] succeeds exactly when [has_gate] holds.  A failed
    call leaves the player as it was.  A successful call takes one
    unused gate of that kind out of the stock, leaves the stock of every
    other kind, keeps the kinds and their order in the inventory, and
    touches nothing else of the player. *)
Theorem use_gate_consumes_one (gt : GateType.t) (p : Player) :
  let p' := (use_gate gt p).2 in
  (use_gate gt p).1 = has_gate gt p
  ∧ (has_gate gt p = true ↔ (0 < stock gt p)%nat)
  ∧ (has_gate gt p = false → p' = p)
  ∧ (has_gate gt p = true →
     (stock gt p' + 1 = stock gt p)%nat
     ∧ ∀ gt', gt' ≠ gt → stock gt' p' = stock gt' p)
  ∧ gate_type <$> gates p' = gate_type <$> gates p
  ∧ name p' = name p ∧ lives p' = lives p
  ∧ peek_available p' = peek_available p
  ∧ applied_gates_history p' = applied_gates_history p.
Proof.
  simpl. unfold use_gate, has_gate, stock.
  destruct (mark_used_spec gt (gates p)) as (H1 & H2 & H3 & H4).
  destruct (mark_used gt (gates p)) as [found gs]. simpl in *.
  split_and!; try done.
  - apply existsb_stock.
  - intros Hno. rewrite (H2 Hno). by destruct p.
Qed.

Lemma use_gate_consumes_one_witness :
  let p := set_gates [GateType.X; GateType.H; GateType.X] (mkPlayer "Player 1" 1 3 [] true []) in
  let p' := (use_gate GateType.X p).2 in
  (use_gate GateType.X p).1 = has_gate GateType.X p
  ∧ (has_gate GateType.X p = true ↔ (0 < stock GateType.X p)%nat)
  ∧ (has_gate GateType.X p = false → p' = p)
  ∧ (has_gate GateType.X p = true →
     (stock GateType.X p' + 1 = stock GateType.X p)%nat
     ∧ ∀ gt', gt' ≠ GateType.X → stock gt' p' = stock gt' p)
  ∧ gate_type <$> gates p' = gate_type <$> gates p
  ∧ name p' = name p ∧ lives p' = lives p
  ∧ peek_available p' = peek_available p
  ∧ applied_gates_history p' = applied_gates_history p.
Proof.
  apply (use_gate_consumes_one GateType.X
           (set_gates [GateType.X; GateType.H; GateType.X]
              (mkPlayer "Player 1" 1 3 [] true []))).
Defined.

Lemma use_gate_stock_step gt p :
  ((use_gate gt p).1 = true ∧ (stock gt (use_gate gt p).2 + 1 = stock gt p)%nat)
  ∨ ((use_gate gt p).1 = false ∧ stock gt p = O ∧ (use_gate gt p).2 = p).
Proof.
  unfold use_gate, stock.
  destruct (mark_used_spec gt (gates p)) as (H1 & H2 & _ & H4).
  destruct (mark_used gt (gates p)) as [found gs]. simpl in *.
  destruct found.
  - left. split; [done|]. by destruct (H4 (eq_sym H1)).
  - right. split; [done|]. split.
    + pose proof (existsb_stock gt (gates p)) as He.
      destruct (stock_in gt (gates p)); [done|].
      assert (existsb (matches gt) (gates p) = true) by (apply He; lia). congruence.
    + rewrite (H2 (eq_sym H1)). by destruct p.
Qed.

Lemma use_times_stock k gt p :
  (use_times k gt p).1
  = replicate (min k (stock gt p)) true ++ replicate (k - stock gt p) false.
Proof.
  revert p. induction k as [|k IH]; intros p; [done|].
  simpl. destruct (use_gate gt p) as [ok p1] eqn:Hu.
  pose proof (use_gate_stock_step gt p) as Hstep. rewrite Hu in Hstep. simpl in Hstep.
  specialize (IH p1). destruct (use_times k gt p1) as [oks p2]. simpl in *.
  rewrite IH. destruct Hstep as [(-> & Hs)|(-> & Hs & ->)].
  - rewrite <- Hs, Nat.add_1_r. done.
  - rewrite Hs. replace (k `min` 0)%nat with O by lia.
    by rewrite !Nat.sub_0_r.
Qed.

(** X15.  After [set_gates], a kind can be used exactly as many times as
    it was selected: of any number of successive [use_gate] calls for
    the kind, the first as many as the kind occurs in the selection
    succeed and all later ones fail. *)
Theorem selected_kind_is_usable_that_often (k : nat) (gt : GateType.t)
    (sel : list GateType.t) (p : Player) :
  let c := length (filter (λ g, g = gt) sel) in
  (use_times k gt (set_gates sel p)).1
  = replicate (min k c) true ++ replicate (k - c) false.
Proof.
  simpl. rewrite use_times_stock.
  assert (Hc : ∀ l, stock_in gt (new_gate <$> l) = length (filter (λ g, g = gt) l)).
  { induction l as [|g l IH]; [done|].
    rewrite fmap_cons, stock_in_cons, IH. unfold matches. simpl.
    rewrite andb_true_r. destruct (decide (g = gt)) as [->|Hne].
    - rewrite bool_decide_true by done. by rewrite filter_cons_True.
    - rewrite bool_decide_false by done. by rewrite filter_cons_False. }
  unfold stock. simpl. by rewrite Hc.
Qed.

Lemma selected_kind_is_usable_that_often_witness :
  (use_times 3 GateType.X
     (set_gates [GateType.X; GateType.H; GateType.X]
        (mkPlayer "Player 1" 1 3 [] true []))).1
  = [true; true; false].
Proof.
  apply (selected_kind_is_usable_that_often 3 GateType.X
           [GateType.X; GateType.H; GateType.X]
           (mkPlayer "Player 1" 1 3 [] true [])).
Defined.

(** * The firing order of a round *)

Lemma all_measured_iff s :
  well_sized s →
  QBS.all_measured s = true
  ↔ ∀ q, 0 ≤ q < QBS.num_bullets s → py_get (QBS.measured s) q = Some true.
Proof.
  intros (Hn & Hlm & _). split.
  - intros Hall q Hq. apply all_measured_lookup; [done|lia].
  - intros Hall. unfold QBS.all_measured. apply forallb_forall.
    intros b Hb. apply list_elem_of_In, list_elem_of_lookup in Hb as [i Hi].
    pose proof (lookup_lt_Some _ _ _ Hi) as Hlt.
    specialize (Hall (Z.of_nat i) ltac:(lia)).
    rewrite py_get_in_range, Nat2Z.id in Hall by lia. unfold id. congruence.
Qed.

Lemma prefix_all_measured s :
  well_sized s → prefix_measured s →
  QBS.all_measured s = true ↔ QBS.num_bullets s ≤ QBS.current_bullet_index s.
Proof.
  intros Hw [Hp Hpre]. rewrite (all_measured_iff s Hw). split.
  - intros Hall.
    destruct (decide (QBS.num_bullets s ≤ QBS.current_bullet_index s)) as [|Hlt]; [done|].
    specialize (Hall (QBS.current_bullet_index s) ltac:(lia)).
    rewrite Hpre in Hall by lia. rewrite bool_decide_false in Hall by lia. done.
  - intros Hge q Hq. rewrite Hpre by done. by rewrite bool_decide_true by lia.
Qed.

Lemma fire_next_prefix sample s :
  chamber_inv s → prefix_measured s →
  (QBS.num_bullets s ≤ QBS.current_bullet_index s
   ∧ QBS.fire_next_bullet sample s = Some (sentinel, s))
  ∨ (∃ v s1, QBS.fire_next_bullet sample s
             = Some ((QBS.current_bullet_index s, v), s1)
       ∧ QBS.current_bullet_index s < QBS.num_bullets s
       ∧ QBS.current_bullet_index s1 = QBS.current_bullet_index s + 1
       ∧ QBS.num_bullets s1 = QBS.num_bullets s
       ∧ chamber_inv s1 ∧ prefix_measured s1).
Proof.
  intros Hinv [Hp Hpre].
  destruct (fire_next_step sample s Hinv)
    as [?|(out & s1 & Hs & Hstep & Hinv1 & HN1 & Hframe)]; [by left|right].
  destruct Hstep as (Hout & Hin & Hfresh & Hset & Hadv & Hbetween & Hstop).
  destruct out as [idx v]. simpl in Hout. subst idx.
  set (p := QBS.current_bullet_index s) in *.
  assert (Hnext : QBS.current_bullet_index s1 = p + 1).
  { destruct (decide (QBS.current_bullet_index s1 = p + 1)) as [|Hne]; [done|].
    specialize (Hbetween (p + 1) ltac:(lia)).
    rewrite Hframe, Hpre in Hbetween by lia.
    rewrite bool_decide_false in Hbetween by (unfold p; lia). done. }
  exists v, s1. split_and!; try done; [lia|]. split; [lia|].
  intros q Hq. rewrite Hnext. destruct (decide (q = p)) as [->|Hne].
  - rewrite Hset. by rewrite bool_decide_true by lia.
  - rewrite Hframe, Hpre by lia. f_equal. apply bool_decide_ext. unfold p. lia.
Qed.

Lemma count_fires_cons c calls :
  count_fires (c :: calls) = (if is_fire c then 1 else 0) + count_fires calls.
Proof.
  unfold count_fires. destruct c.
  - rewrite filter_cons_True by done. simpl. lia.
  - rewrite filter_cons_False by (by intros ?). simpl. lia.
Qed.

Lemma count_fires_nonneg calls : 0 ≤ count_fires calls.
Proof. unfold count_fires. lia. Qed.

Lemma run_calls_in_order calls s :
  chamber_inv s → prefix_measured s →
  ∃ outs s', run_calls calls s = Some (outs, s')
    ∧ fired outs
      = seqZ (QBS.current_bullet_index s)
             (Z.min (count_fires calls) (QBS.num_bullets s - QBS.current_bullet_index s))
    ∧ QBS.current_bullet_index s'
      = Z.min (QBS.current_bullet_index s + count_fires calls) (QBS.num_bullets s)
    ∧ QBS.num_bullets s' = QBS.num_bullets s
    ∧ well_sized s' ∧ prefix_measured s'.
Proof.
  revert s. induction calls as [|[r|gt t1 t2] rest IH]; intros s Hinv Hpre.
  - exists [], s. pose proof Hpre as [Hp _]. split_and!; try done; try apply Hinv.
    + unfold count_fires. simpl. by rewrite seqZ_nil by lia.
    + unfold count_fires. simpl. lia.
  - pose proof (count_fires_nonneg rest) as Hk.
    rewrite count_fires_cons. simpl is_fire. cbv iota.
    destruct (fire_next_prefix r s Hinv Hpre)
      as [[Hge Hs]|(v & s1 & Hs & Hlt & Hnext & HN1 & Hinv1 & Hpre1)].
    + destruct (IH s Hinv Hpre) as (outs & s' & Hrun & Hf & Hp' & HN' & Hw' & Hpre').
      pose proof Hpre as [Hp _].
      exists (sentinel :: outs), s'. simpl. rewrite Hs. simpl. rewrite Hrun. simpl.
      rewrite fired_cons. simpl. split_and!; try done.
      * rewrite Hf. rewrite !seqZ_nil by lia. done.
      * lia.
    + destruct (IH s1 Hinv1 Hpre1) as (outs & s' & Hrun & Hf & Hp' & HN' & Hw' & Hpre').
      pose proof Hpre as [Hp _].
      exists ((QBS.current_bullet_index s, v) :: outs), s'.
      simpl. rewrite Hs. simpl. rewrite Hrun. simpl.
      rewrite fired_cons. simpl. rewrite decide_True by lia.
      split_and!; try done; [| |congruence].
      * rewrite Hf, Hnext, HN1.
        rewrite (seqZ_cons (QBS.current_bullet_index s)) by lia.
        f_equal. f_equal; lia.
      * rewrite Hp', Hnext, HN1. lia.
  - rewrite count_fires_cons. simpl is_fire. cbv iota.
    destruct (apply_gate_total gt t1 t2 s) as (ok & s1 & Hg); [apply Hinv|].
    pose proof (apply_gate_chamber_inv _ _ _ _ _ _ Hinv Hg) as Hinv1.
    apply apply_gate_frame in Hg as Hfr. destruct Hfr as (HN & Hm & _ & _ & Hp & _).
    assert (Hpre1 : prefix_measured s1).
    { unfold prefix_measured. by rewrite HN, Hm, Hp. }
    destruct (IH s1 Hinv1 Hpre1) as (outs & s' & Hrun & Hf & Hp' & HN' & Hw' & Hpre').
    exists outs, s'. simpl. rewrite Hg. simpl. rewrite Hrun.
    rewrite <- HN, <- Hp. split_and!; try done.
Qed.

(** X16.  In a freshly initialised chamber, whatever gates are applied in
    between, successive [fire_next_bullet] calls fire the positions in
    chamber order 0, 1, 2, ...: [k] calls fire exactly the first [k]
    positions (all of them once [k] reaches the size), the pointer ends
    at the number of positions fired, and every position is measured
    exactly when at least as many calls were made as the chamber holds. *)
Theorem fresh_chamber_fires_in_order (positions : list Z) (calls : list Call) (s0 : QBS.t) :
  0 ≤ QBS.num_bullets s0 →
  ∃ outs s',
    run_calls calls (QBS.initialize_bullets positions s0) = Some (outs, s')
    ∧ fired outs = seqZ 0 (Z.min (count_fires calls) (QBS.num_bullets s0))
    ∧ QBS.current_bullet_index s' = Z.min (count_fires calls) (QBS.num_bullets s0)
    ∧ (QBS.all_measured s' = true ↔ QBS.num_bullets s0 ≤ count_fires calls).
Proof.
  intros Hn. set (s := QBS.initialize_bullets positions s0).
  assert (Hinv : chamber_inv s).
  { destruct (initialize_inv positions s0 Hn). split_and!; [done|done|].
    intros a b. simpl. by rewrite lookup_empty. }
  assert (Hpre : prefix_measured s).
  { split; [simpl; lia|]. intros q Hq. simpl in *.
    rewrite py_get_in_range by (rewrite length_replicate; lia).
    rewrite lookup_replicate_2 by lia. by rewrite bool_decide_false by lia. }
  destruct (run_calls_in_order calls s Hinv Hpre)
    as (outs & s' & Hrun & Hf & Hp & HN & Hw & Hpre').
  exists outs, s'. simpl in Hf, Hp, HN. rewrite Z.sub_0_r in Hf.
  split_and!; [done|done|lia|].
  rewrite (prefix_all_measured s' Hw Hpre'), HN, Hp. simpl. lia.
Qed.

Lemma fresh_chamber_fires_in_order_witness :
  ∃ outs s',
    run_calls [Fire true; ApplyGate GateType.H 2 (-1); Fire false]
      (QBS.initialize_bullets [1] (new_chamber 3 [])) = Some (outs, s')
    ∧ fired outs
      = seqZ 0 (Z.min (count_fires [Fire true; ApplyGate GateType.H 2 (-1); Fire false])
                      (QBS.num_bullets (new_chamber 3 [])))
    ∧ QBS.current_bullet_index s'
      = Z.min (count_fires [Fire true; ApplyGate GateType.H 2 (-1); Fire false])
              (QBS.num_bullets (new_chamber 3 []))
    ∧ (QBS.all_measured s' = true
       ↔ QBS.num_bullets (new_chamber 3 [])
         ≤ count_fires [Fire true; ApplyGate GateType.H 2 (-1); Fire false]).
Proof.
  apply (fresh_chamber_fires_in_order [1]
           [Fire true; ApplyGate GateType.H 2 (-1); Fire false] (new_chamber 3 [])).
  vm_compute. discriminate.
Defined.

(** * Further facts about the controller *)

Lemma same_score_refl g : same_score g g.
Proof. by unfold same_score. Qed.

Lemma same_score_consistent g g' :
  same_score g g' → score_consistent g → score_consistent g'.
Proof.
  intros (Hi & H1 & H2 & Ho & Hw) (Hl1 & Hl2 & Hs).
  unfold score_consistent. rewrite Hi, H1, H2, Ho, Hw.
  split; [done|]. split; [done|].
  destruct (Game.game_over g); [|done].
  destruct Hs as (w & Hw' & Ha & Hd). exists w.
  split; [done|]. by destruct w; simpl in *; rewrite ?H1, ?H2.
Qed.

Lemma start_new_round_same_score positions g g' :
  Game.start_new_round positions g = Some g' → same_score g g'.
Proof.
  unfold Game.start_new_round. case_decide; [done|].
  destruct (QBS.init _); simpl; [|done]. by intros [= <-].
Qed.

Lemma submit_same_score player_id sel g :
  same_score g (Game.submit_gate_selection player_id sel g).2.
Proof.
  unfold Game.submit_gate_selection. case_decide; [apply same_score_refl|].
  by repeat case_decide.
Qed.

Lemma use_peek_same_score g : same_score g (Game.use_peek g).2.
Proof.
  unfold Game.use_peek. case_decide; [apply same_score_refl|].
  destruct (negb _); [apply same_score_refl|].
  by destruct (Game.current_player g).
Qed.

Lemma apply_gate_same_score gt t1 t2 g r g' :
  Game.apply_gate gt t1 t2 g = Some (r, g') → same_score g g'.
Proof.
  unfold Game.apply_gate.
  case_decide; [intros [= <- <-]; apply same_score_refl|].
  destruct (Game.game_over g) eqn:Hover; [intros [= <- <-]; apply same_score_refl|].
  destruct (Game.gate_applied_this_turn g); [intros [= <- <-]; apply same_score_refl|].
  destruct (negb _); [intros [= <- <-]; apply same_score_refl|].
  destruct (Game.bullet_system g) as [sys|]; simpl; [|done].
  destruct (QBS.apply_gate gt t1 t2 sys) as [[ok sys']|]; simpl; [|done].
  destruct ok; intros [= <- <-]; unfold same_score, use_gate; simpl;
    [|by rewrite Hover].
  rewrite Hover.
  destruct (Game.current_player g); simpl; by destruct (mark_used _ _).
Qed.

(** X17.  Only [shoot] touches the score.  [start_new_round],
    [submit_gate_selection], [start_playing_phase], [apply_gate] and
    [use_peek] leave both players' lives, [game_over] and the winner as
    they are, whether they succeed or fail: lives carry over from round
    to round, and a new round does not clear the end of the game. *)
Theorem only_shoot_changes_the_score (g : Game.t) :
  (∀ positions g', Game.start_new_round positions g = Some g' → same_score g g')
  ∧ (∀ player_id sel, same_score g (Game.submit_gate_selection player_id sel g).2)
  ∧ same_score g (Game.start_playing_phase g)
  ∧ (∀ gt t1 t2 r g', Game.apply_gate gt t1 t2 g = Some (r, g') → same_score g g')
  ∧ same_score g (Game.use_peek g).2.
Proof.
  split_and!.
  - intros positions g'. apply start_new_round_same_score.
  - intros player_id sel. apply submit_same_score.
  - done.
  - intros gt t1 t2 r g'. apply apply_gate_same_score.
  - apply use_peek_same_score.
Qed.

Lemma shoot_score shoot_self sample g r g' :
  distinct_players g → score_consistent g →
  Game.shoot shoot_self sample g = Some (r, g') →
  Game.initial_lives g' = Game.initial_lives g ∧ score_consistent g'.
Proof.
  intros Hd Hsc. unfold Game.shoot.
  case_decide; [by intros [= <- <-]|].
  destruct (Game.game_over g) eqn:Hover; [by intros [= <- <-]|].
  destruct (Game.bullet_system g) as [sys|]; simpl; [|done].
  destruct (QBS.fire_next_bullet sample sys) as [[[idx result] sys']|]; simpl; [|done].
  assert (Hsc0 : score_consistent (Game.set_bullet_system sys' g)).
  { apply (same_score_consistent g); [by unfold same_score|done]. }
  case_decide; [by intros [= <- <-]|].
  rewrite !get_opponent_other by done.
  intros [= <- <-].
  destruct Hsc as (Hl1 & Hl2 & Hs). rewrite Hover in Hs. destruct Hs as (Hw & Hp1 & Hp2).
  destruct (bool_decide (result = Some 1)).
  - set (tgt := if shoot_self then _ else _).
    unfold take_damage, is_alive. simpl.
    destruct (bool_decide (0 < Z.max 0 _)) eqn:Halive; simpl.
    + apply bool_decide_eq_true in Halive. split; [done|].
      unfold score_consistent. simpl. rewrite Hover.
      destruct tgt; simpl in *; repeat split; try done; lia.
    + apply bool_decide_eq_false in Halive.
      rewrite get_opponent_other by (by destruct tgt).
      split; [done|]. unfold score_consistent. simpl.
      destruct tgt; simpl in *; (split; [lia|]); (split; [lia|]);
        eexists; (split; [done|]); simpl; lia.
  - split; [by destruct shoot_self|].
    apply (same_score_consistent g); [|by unfold score_consistent; rewrite Hover].
    unfold same_score. by destruct shoot_self.
Qed.

Lemma start_new_round_round_chamber positions g g' :
  Game.start_new_round positions g = Some g' → round_chamber g'.
Proof.
  unfold Game.start_new_round. case_decide; [done|].
  destruct (QBS.init (Game.num_bullets g)) as [s0|] eqn:Hi; simpl; [|done].
  intros [= <-] sys. simpl. intros [= <-].
  assert (HN : QBS.num_bullets s0 = Game.num_bullets g).
  { unfold QBS.init in Hi. case_decide; [done|]. by injection Hi as <-. }
  split_and!; [done| |].
  - apply reachable_inv, reach_initialize. by eapply reach_init.
  - split; [simpl; lia|]. intros q Hq. simpl in *.
    rewrite py_get_in_range by (rewrite length_replicate; lia).
    rewrite lookup_replicate_2 by lia. by rewrite bool_decide_false by lia.
Qed.

Lemma apply_gate_round_chamber gt t1 t2 g r g' :
  round_chamber g → Game.apply_gate gt t1 t2 g = Some (r, g') → round_chamber g'.
Proof.
  intros Hrc. unfold Game.apply_gate.
  case_decide; [by intros [= <- <-]|].
  destruct (Game.game_over g); [by intros [= <- <-]|].
  destruct (Game.gate_applied_this_turn g); [by intros [= <- <-]|].
  destruct (negb _); [by intros [= <- <-]|].
  destruct (Game.bullet_system g) as [sys|] eqn:Hb; simpl; [|done].
  destruct (Hrc sys Hb) as (HN & Hinv & Hpre).
  destruct (QBS.apply_gate gt t1 t2 sys) as [[ok sys']|] eqn:Hg; simpl; [|done].
  pose proof (apply_gate_chamber_inv _ _ _ _ _ _ Hinv Hg) as Hinv'.
  apply apply_gate_frame in Hg as (HN' & Hm & _ & _ & Hp & _).
  assert (Hpre' : prefix_measured sys').
  { unfold prefix_measured. by rewrite HN', Hm, Hp. }
  destruct ok; intros [= <- <-] ? [= <-]; (split_and!; [simpl; congruence|done|done]).
Qed.

Lemma shoot_round_chamber shoot_self sample g r g' :
  round_chamber g → Game.shoot shoot_self sample g = Some (r, g') → round_chamber g'.
Proof.
  intros Hrc. unfold Game.shoot.
  case_decide; [by intros [= <- <-]|].
  destruct (Game.game_over g); [by intros [= <- <-]|].
  destruct (Game.bullet_system g) as [sys|] eqn:Hb; simpl; [|done].
  destruct (Hrc sys Hb) as (HN & Hinv & Hpre).
  assert (Hkeep : ∀ (g0 : Game.t) s1,
            Game.bullet_system g0 = Some s1 →
            Game.num_bullets g0 = Game.num_bullets g →
            QBS.num_bullets s1 = QBS.num_bullets sys →
            chamber_inv s1 → prefix_measured s1 → round_chamber g0).
  { intros g0 s1 Hb0 Hn0 HN1 ? ? ? Hs. rewrite Hb0 in Hs. injection Hs as <-.
    split_and!; [congruence|done|done]. }
  destruct (fire_next_prefix sample sys Hinv Hpre)
    as [[_ ->]|(v & s1 & -> & _ & _ & HN1 & Hinv1 & Hpre1)]; simpl.
  { intros [= <- <-]. by apply (Hkeep _ sys). }
  case_decide.
  { intros [= <- <-]. by apply (Hkeep _ s1). }
  intros [= <- <-].
  apply (Hkeep _ s1); try done; destruct (bool_decide _), shoot_self;
    try destruct (Game.get_opponent _ _);
    try destruct (Game.current_player g);
    simpl; repeat case_match; done.
Qed.

Lemma game_reachable_inv g :
  game_reachable g →
  game_inv g ∧ round_chamber g ∧ (0 < Game.initial_lives g → score_consistent g).
Proof.
  induction 1 as [n k l|positions g g' _ (IHi & IHr & IHs) _ Hr
                 |player_id sel g _ (IHi & IHr & IHs)|g _ (IHi & IHr & IHs)
                 |gt t1 t2 g r g' _ (IHi & IHr & IHs) Hg
                 |shoot_self sample g r g' _ (IHi & IHr & IHs) Hs
                 |g _ (IHi & IHr & IHs)].
  - split_and!; [apply init_game_inv|by intros sys|].
    intros Hl. simpl in Hl. unfold score_consistent. simpl.
    repeat split; (done || lia).
  - pose proof (start_new_round_same_score _ _ _ Hr) as Hsame.
    split_and!; [by eapply start_new_round_game_inv
                |by eapply start_new_round_round_chamber|].
    intros Hl. apply (same_score_consistent g); [done|].
    apply IHs. destruct Hsame as (<- & _). done.
  - pose proof (submit_same_score player_id sel g) as Hsame.
    split_and!; [by apply submit_gate_selection_game_inv| |].
    + unfold Game.submit_gate_selection. case_decide; [done|]. by repeat case_decide.
    + intros Hl. apply (same_score_consistent g); [done|].
      apply IHs. destruct Hsame as (<- & _). done.
  - split_and!; [by apply start_playing_phase_game_inv|done|done].
  - pose proof (apply_gate_same_score _ _ _ _ _ _ Hg) as Hsame.
    split_and!; [by eapply apply_gate_game_inv|by eapply apply_gate_round_chamber|].
    intros Hl. apply (same_score_consistent g); [done|].
    apply IHs. destruct Hsame as (<- & _). done.
  - split_and!; [by eapply shoot_game_inv|by eapply shoot_round_chamber|].
    intros Hl.
    destruct (decide (0 < Game.initial_lives g)) as [Hl0|Hl0].
    + by destruct (shoot_score _ _ _ _ _ (proj1 IHi) (IHs Hl0) Hs).
    + exfalso. apply Hl0.
      assert (Game.initial_lives g' = Game.initial_lives g) as <-; [|done].
      revert Hs. unfold Game.shoot.
      case_decide; [by intros [= <- <-]|].
      destruct (Game.game_over g); [by intros [= <- <-]|].
      destruct (Game.bullet_system g) as [sys|]; simpl; [|done].
      destruct (QBS.fire_next_bullet sample sys) as [[[idx result] sys']|]; simpl; [|done].
      case_decide; [by intros [= <- <-]|].
      intros [= <- <-].
      destruct (bool_decide _), shoot_self; simpl; repeat case_match; done.
  - pose proof (use_peek_same_score g) as Hsame.
    split_and!; [by apply use_peek_game_inv| |].
    + unfold Game.use_peek. case_decide; [done|]. destruct (negb _); [done|].
      by destruct (Game.current_player g).
    + intros Hl. apply (same_score_consistent g); [done|].
      apply IHs. destruct Hsame as (<- & _). done.
Qed.

(** X18.  In every game the commands can lead to, started with at least
    one life each: lives stay between 0 and the initial number; as long
    as the game is not over both players are alive and no winner is set;
    once it is over a winner is set, the winner is alive and the other
    player has no life left. *)
Theorem score_is_always_consistent (g : Game.t) :
  game_reachable g → 0 < Game.initial_lives g → score_consistent g.
Proof. intros Hr Hl. by apply game_reachable_inv. Qed.

Lemma set_bullet_system_same sys g :
  Game.bullet_system g = Some sys → Game.set_bullet_system sys g = g.
Proof. intros Hb. destruct g. simpl in *. by rewrite Hb. Qed.

(** X19.  A refused [apply_gate] leaves the whole game as it was,
    whatever the reason for the refusal: wrong phase, game over, a gate
    already applied this turn, no unused gate of the kind, or targets
    the chamber rejects. *)
Theorem refused_gate_changes_nothing (gt : GateType.t) (t1 t2 : Z)
    (g g' : Game.t) (m : Message) :
  Game.apply_gate gt t1 t2 g = Some ((false, m), g') → g' = g.
Proof.
  unfold Game.apply_gate.
  case_decide; [by intros [= _ <-]|].
  destruct (Game.game_over g); [by intros [= _ <-]|].
  destruct (Game.gate_applied_this_turn g); [by intros [= _ <-]|].
  destruct (negb _); [by intros [= _ <-]|].
  destruct (Game.bullet_system g) as [sys|] eqn:Hb; simpl; [|done].
  destruct (QBS.apply_gate gt t1 t2 sys) as [[ok sys']|] eqn:Hg; simpl; [|done].
  destruct ok; [done|]. intros [= _ <-].
  apply apply_gate_frame in Hg as (_ & _ & _ & _ & _ & _ & ->); [|done].
  by apply set_bullet_system_same.
Qed.

Lemma refused_gate_changes_nothing_witness :
  (then_apply GateType.Z 0 (-1) midgame) = midgame.
Proof.
  apply (refused_gate_changes_nothing GateType.Z 0 (-1) midgame _
           msg_one_gate_per_turn).
  vm_compute. reflexivity.
Defined.

Lemma accepted_gate_shape (gt : GateType.t) (t1 t2 : Z)
    (g g' : Game.t) (m : Message) :
  Game.apply_gate gt t1 t2 g = Some ((true, m), g') →
  let c := Game.current_player g in
  Game.phase g = playing
  ∧ Game.current_player g' = c
  ∧ Game.gate_applied_this_turn g' = true
  ∧ Game.deref (other c) g' = Game.deref (other c) g
  ∧ (stock gt (Game.deref c g') + 1 = stock gt (Game.deref c g))%nat
  ∧ applied_gates_history (Game.deref c g')
    = applied_gates_history (Game.deref c g) ++ [(gt, t1, t2)]
  ∧ ∃ sys sys', Game.bullet_system g = Some sys
      ∧ QBS.apply_gate gt t1 t2 sys = Some (true, sys')
      ∧ Game.bullet_system g' = Some sys'.
Proof.
  unfold Game.apply_gate.
  case_decide as Hph; [done|].
  destruct (Game.game_over g); [done|].
  destruct (Game.gate_applied_this_turn g); [done|].
  destruct (negb _) eqn:Hhas; [done|]. apply negb_false_iff in Hhas.
  destruct (Game.bullet_system g) as [sys|] eqn:Hb; simpl; [|done].
  destruct (QBS.apply_gate gt t1 t2 sys) as [[ok sys']|] eqn:Hg; simpl; [|done].
  destruct ok; [|done]. intros [= _ <-].
  destruct (use_gate_stock_step gt (Game.deref (Game.current_player g) g))
    as [[_ Hs]|[Hf _]].
  2:{ unfold use_gate, has_gate in *.
      destruct (mark_used_spec gt (gates (Game.deref (Game.current_player g) g)))
        as (H1 & _).
      destruct (mark_used _ _); simpl in *. congruence. }
  split; [by destruct (decide (Game.phase g = playing))|].
  destruct (Game.current_player g); simpl in *; (split_and!; try done; eauto).
  all: unfold use_gate; by destruct (mark_used _ _).
Qed.

(** X20.  An accepted [apply_gate] is charged to the current player
    alone: the turn stays with that player and the gate flag is set; the
    player's stock of the kind drops by one and the application is
    appended to the player's history; the other player is untouched;
    and the chamber is the one the engine's [apply_gate] returned. *)
Theorem accepted_gate_is_charged_to_current_player (gt : GateType.t) (t1 t2 : Z)
    (g g' : Game.t) (m : Message) :
  Game.apply_gate gt t1 t2 g = Some ((true, m), g') →
  let c := Game.current_player g in
  Game.phase g = playing
  ∧ Game.current_player g' = c
  ∧ Game.gate_applied_this_turn g' = true
  ∧ Game.deref (other c) g' = Game.deref (other c) g
  ∧ (stock gt (Game.deref c g') + 1 = stock gt (Game.deref c g))%nat
  ∧ applied_gates_history (Game.deref c g')
    = applied_gates_history (Game.deref c g) ++ [(gt, t1, t2)]
  ∧ ∃ sys sys', Game.bullet_system g = Some sys
      ∧ QBS.apply_gate gt t1 t2 sys = Some (true, sys')
      ∧ Game.bullet_system g' = Some sys'.
Proof. apply accepted_gate_shape. Qed.

Lemma accepted_gate_is_charged_to_current_player_witness :
  let c := Game.current_player midgame_before in
  Game.phase midgame_before = playing
  ∧ Game.current_player midgame = c
  ∧ Game.gate_applied_this_turn midgame = true
  ∧ Game.deref (other c) midgame = Game.deref (other c) midgame_before
  ∧ (stock GateType.X (Game.deref c midgame) + 1
     = stock GateType.X (Game.deref c midgame_before))%nat
  ∧ applied_gates_history (Game.deref c midgame)
    = applied_gates_history (Game.deref c midgame_before) ++ [(GateType.X, 1, -1)]
  ∧ ∃ sys sys', Game.bullet_system midgame_before = Some sys
      ∧ QBS.apply_gate GateType.X 1 (-1) sys = Some (true, sys')
      ∧ Game.bullet_system midgame = Some sys'.
Proof.
  apply (accepted_gate_is_charged_to_current_player GateType.X 1 (-1)
           midgame_before midgame (msg_applied_one GateType.X 1)).
  vm_compute. reflexivity.
Defined.

(** X21.  One gate per turn: after an accepted [apply_gate] every further
    [apply_gate], with any kind and any targets, is refused with "You
    can only apply one gate per turn" and changes nothing; [use_peek]
    in between does not lift the restriction. *)
Theorem one_gate_per_turn (gt : GateType.t) (t1 t2 : Z) (g g' : Game.t) (m : Message) :
  Game.apply_gate gt t1 t2 g = Some ((true, m), g') →
  (∀ gt' a b,
     Game.apply_gate gt' a b g' = Some ((false, msg_one_gate_per_turn), g'))
  ∧ (∀ gt' a b,
       Game.apply_gate gt' a b (Game.use_peek g').2
       = Some ((false, msg_one_gate_per_turn), (Game.use_peek g').2)).
Proof.
  intros Happ.
  assert (Hst : Game.phase g' = playing ∧ Game.game_over g' = false
                ∧ Game.gate_applied_this_turn g' = true).
  { revert Happ. unfold Game.apply_gate.
    case_decide as Hph; [done|].
    destruct (Game.game_over g) eqn:Hover; [done|].
    destruct (Game.gate_applied_this_turn g); [done|].
    destruct (negb _); [done|].
    destruct (Game.bullet_system g) as [sys|]; simpl; [|done].
    destruct (QBS.apply_gate gt t1 t2 sys) as [[ok sys']|]; simpl; [|done].
    destruct ok; [|done]. intros [= _ <-]. simpl.
    split_and!; [by destruct (decide (Game.phase g = playing))|done|done]. }
  destruct Hst as (Hph & Hover & Hflag).
  assert (Hrefuse : ∀ g0, Game.phase g0 = playing → Game.game_over g0 = false →
            Game.gate_applied_this_turn g0 = true →
            ∀ gt' a b, Game.apply_gate gt' a b g0
                       = Some ((false, msg_one_gate_per_turn), g0)).
  { intros g0 H1 H2 H3 gt' a b. unfold Game.apply_gate.
    rewrite decide_False by (by rewrite H1; intros ?). by rewrite H2, H3. }
  split; [by apply Hrefuse|].
  apply Hrefuse; unfold Game.use_peek;
    (case_decide; [done|]); (destruct (negb _); [done|]); done.
Qed.

Lemma one_gate_per_turn_witness :
  (∀ gt' a b,
     Game.apply_gate gt' a b midgame = Some ((false, msg_one_gate_per_turn), midgame))
  ∧ (∀ gt' a b,
       Game.apply_gate gt' a b (Game.use_peek midgame).2
       = Some ((false, msg_one_gate_per_turn), (Game.use_peek midgame).2)).
Proof.
  apply (one_gate_per_turn GateType.X 1 (-1) midgame_before midgame
           (msg_applied_one GateType.X 1)).
  vm_compute. reflexivity.
Defined.

(** X22.  A failed [shoot] leaves the whole game as it was.  In the
    playing phase of a game that is not over it fails exactly when every
    position of the chamber has been fired, with "No more bullets to
    fire". *)
Theorem failed_shot_changes_nothing (shoot_self sample : bool) (g : Game.t) (sys : QBS.t) :
  game_reachable g →
  Game.bullet_system g = Some sys →
  (∀ m g', Game.shoot shoot_self sample g = Some (ShotFailed m, g') → g' = g)
  ∧ (Game.phase g = playing → Game.game_over g = false →
     (QBS.all_measured sys = true
      ↔ Game.shoot shoot_self sample g = Some (ShotFailed msg_no_more_bullets, g))).
Proof.
  intros Hr Hb. destruct (game_reachable_inv g Hr) as (_ & Hrc & _).
  destruct (Hrc sys Hb) as (HN & Hinv & Hpre).
  pose proof (prefix_all_measured sys (proj1 Hinv) Hpre) as Hall.
  split.
  - intros m g'. unfold Game.shoot.
    case_decide; [by intros [= _ <-]|].
    destruct (Game.game_over g); [by intros [= _ <-]|].
    rewrite Hb. simpl.
    destruct (fire_next_prefix sample sys Hinv Hpre)
      as [[_ ->]|(v & s1 & -> & _)]; simpl.
    + intros [= _ <-]. by apply set_bullet_system_same.
    + destruct Hpre as [? _]. by rewrite decide_False by lia.
  - intros Hph Hover. rewrite Hall. unfold Game.shoot.
    rewrite decide_False by (by rewrite Hph; intros ?). rewrite Hover, Hb. simpl.
    destruct (fire_next_prefix sample sys Hinv Hpre)
      as [[Hge ->]|(v & s1 & -> & Hlt & _)]; simpl.
    + by rewrite set_bullet_system_same.
    + destruct Hpre as [? _]. rewrite decide_False by lia. split; [lia|done].
Qed.

Lemma then_round_reachable positions g :
  game_reachable g → valid_draw (Game.num_bullets g) positions →
  game_reachable (then_round positions g).
Proof.
  intros Hr Hv. unfold then_round.
  destruct (Game.start_new_round positions g) as [g'|] eqn:Hs; simpl; [|done].
  by eapply greach_round.
Qed.

Lemma then_apply_reachable gt t1 t2 g :
  game_reachable g → game_reachable (then_apply gt t1 t2 g).
Proof.
  intros Hr. unfold then_apply.
  destruct (Game.apply_gate gt t1 t2 g) as [[r g']|] eqn:Hs; simpl; [|done].
  by eapply greach_apply.
Qed.

Lemma then_shoot_reachable shoot_self sample g :
  game_reachable g → game_reachable (then_shoot shoot_self sample g).
Proof.
  intros Hr. unfold then_shoot.
  destruct (Game.shoot shoot_self sample g) as [[r g']|] eqn:Hs; simpl; [|done].
  by eapply greach_shoot.
Qed.

Lemma playing_game_reachable n l positions sel1 sel2 :
  valid_draw n positions → game_reachable (playing_game n l positions sel1 sel2).
Proof.
  intros Hv. unfold playing_game, then_submit.
  apply greach_playing, greach_submit, greach_submit, then_round_reachable;
    [apply greach_init|done].
Qed.

#[local] Hint Resolve then_apply_reachable then_shoot_reachable
  playing_game_reachable : chamber.

Lemma valid_draw_two : valid_draw 2 [0].
Proof.
  split; [apply (bool_decide_eq_true_1 (NoDup [0])); by vm_compute|split; [|simpl; lia]].
  intros p Hp. apply list_elem_of_singleton in Hp as ->. lia.
Qed.

Lemma valid_draw_four : valid_draw 4 [1; 3].
Proof.
  split; [apply (bool_decide_eq_true_1 (NoDup [1; 3])); by vm_compute|split; [|simpl; lia]].
  intros p Hp. apply elem_of_cons in Hp as [->|Hp]; [lia|].
  apply list_elem_of_singleton in Hp as ->. lia.
Qed.

#[local] Hint Resolve valid_draw_two valid_draw_four : chamber.

Lemma only_shoot_changes_the_score_witness :
  (∀ positions g', Game.start_new_round positions midgame = Some g' →
     same_score midgame g')
  ∧ (∀ player_id sel,
       same_score midgame (Game.submit_gate_selection player_id sel midgame).2)
  ∧ same_score midgame (Game.start_playing_phase midgame)
  ∧ (∀ gt t1 t2 r g', Game.apply_gate gt t1 t2 midgame = Some (r, g') →
       same_score midgame g')
  ∧ same_score midgame (Game.use_peek midgame).2.
Proof. apply (only_shoot_changes_the_score midgame). Defined.

Lemma score_is_always_consistent_witness : score_consistent finished_game.
Proof.
  apply (score_is_always_consistent finished_game).
  - unfold finished_game. auto with chamber.
  - vm_compute. reflexivity.
Defined.

Lemma failed_shot_changes_nothing_witness :
  (∀ m g', Game.shoot false true spent_round = Some (ShotFailed m, g') →
     g' = spent_round)
  ∧ (Game.phase spent_round = playing → Game.game_over spent_round = false →
     (QBS.all_measured (chamber_of spent_round) = true
      ↔ Game.shoot false true spent_round
        = Some (ShotFailed msg_no_more_bullets, spent_round))).
Proof.
  apply (failed_shot_changes_nothing false true spent_round (chamber_of spent_round)).
  - unfold spent_round. auto with chamber.
  - vm_compute. reflexivity.
Defined.

Lemma use_peek_cases g :
  let c := Game.current_player g in
  let g1 := Game.set_player c (spend_peek (Game.deref c g)) g in
  ((Game.phase g ≠ playing ∨ peek_available (Game.deref c g) = false)
   ∧ Game.use_peek g = ((false, []), g))
  ∨ (Game.phase g = playing
     ∧ peek_available (Game.deref c g) = true
     ∧ Game.use_peek g
       = ((true, get_available_gates (Game.deref (Game.get_opponent c g) g1)), g1)).
Proof.
  simpl. unfold Game.use_peek.
  destruct (decide (Game.phase g ≠ playing)) as [Hph|Hph]; [left; auto|].
  destruct (peek_available (Game.deref (Game.current_player g) g)) eqn:Hpeek;
    simpl; [right|left; auto].
  split_and!; [|done|done]. by destruct (decide (Game.phase g = playing)).
Qed.

(** X23.  The peek is spent once: a [use_peek] that succeeds returns the
    unused gates of the opponent, clears the current player's peek and
    changes nothing else, so that the same player's next [use_peek]
    fails; a [use_peek] that fails returns no gates and leaves the game
    as it was. *)
Theorem peek_is_spent_once (g : Game.t) :
  distinct_players g →
  let c := Game.current_player g in
  let r := Game.use_peek g in
  (r.1.1 = true →
   Game.phase g = playing
   ∧ r.1.2 = get_available_gates (Game.deref (other c) g)
   ∧ r.2 = Game.set_player c (spend_peek (Game.deref c g)) g
   ∧ Game.use_peek r.2 = ((false, []), r.2))
  ∧ (r.1.1 = false → r = ((false, []), g)).
Proof.
  intros Hd. simpl.
  destruct (use_peek_cases g) as [[_ ->]|(Hph & Hpeek & ->)]; simpl; [done|].
  split; [|done]. intros _. rewrite get_opponent_other by done.
  split_and!; try done.
  - by destruct (Game.current_player g).
  - match goal with |- Game.use_peek ?g1 = _ =>
      destruct (use_peek_cases g1) as [[_ ->]|(_ & Hpeek1 & _)]; [done|] end.
    simpl in Hpeek1. by destruct (Game.current_player g); simpl in Hpeek1.
Qed.

Lemma peek_is_spent_once_witness :
  let c := Game.current_player midgame in
  let r := Game.use_peek midgame in
  (r.1.1 = true →
   Game.phase midgame = playing
   ∧ r.1.2 = get_available_gates (Game.deref (other c) midgame)
   ∧ r.2 = Game.set_player c (spend_peek (Game.deref c midgame)) midgame
   ∧ Game.use_peek r.2 = ((false, []), r.2))
  ∧ (r.1.1 = false → r = ((false, []), midgame)).
Proof.
  apply (peek_is_spent_once midgame). by vm_compute.
Defined.

(** X24.  [shoot] fires the position under the queue pointer, and it
    reports the round as over exactly when that was the last position of
    the chamber and the shot did not end the game. *)
Theorem round_over_on_last_bullet (shoot_self sample : bool) (g g' : Game.t)
    (sys : QBS.t) (info : ShotInfo) :
  game_reachable g →
  Game.bullet_system g = Some sys →
  Game.shoot shoot_self sample g = Some (ShotOk info, g') →
  bullet_index info = QBS.current_bullet_index sys
  ∧ (round_over info = true
     ↔ bullet_index info = Game.num_bullets g - 1 ∧ Game.game_over g' = false).
Proof.
  intros Hr Hb. destruct (game_reachable_inv g Hr) as (_ & Hrc & _).
  destruct (Hrc sys Hb) as (HN & Hinv & Hpre).
  unfold Game.shoot.
  case_decide; [done|].
  destruct (Game.game_over g); [done|].
  rewrite Hb. simpl.
  destruct (fire_next_prefix sample sys Hinv Hpre)
    as [[_ ->]|(v & s1 & -> & Hlt & Hnext & HN1 & Hinv1 & Hpre1)]; simpl; [done|].
  case_decide; [done|].
  intros [= <- <-]. simpl. split; [done|].
  pose proof (prefix_all_measured s1 (proj1 Hinv1) Hpre1) as Hall.
  rewrite andb_true_iff, negb_true_iff, Hall, Hnext, HN1, <- HN. 
  split; intros [? ?]; (split; [lia|done]).
Qed.

Lemma round_over_on_last_bullet_witness :
  match Game.shoot true false
          (then_shoot true false (playing_game 2 3 [0] [GateType.X] [GateType.X])) with
  | Some (ShotOk info, g') =>
      bullet_index info
      = QBS.current_bullet_index
          (chamber_of (then_shoot true false
                         (playing_game 2 3 [0] [GateType.X] [GateType.X])))
      ∧ (round_over info = true
         ↔ bullet_index info
           = Game.num_bullets (then_shoot true false
                                 (playing_game 2 3 [0] [GateType.X] [GateType.X])) - 1
           ∧ Game.game_over g' = false)
  | _ => False
  end.
Proof.
  destruct (Game.shoot true false
              (then_shoot true false (playing_game 2 3 [0] [GateType.X] [GateType.X])))
    as [[[m|info] g']|] eqn:Hshot;
    [vm_compute in Hshot; discriminate Hshot| |vm_compute in Hshot; discriminate Hshot].
  apply (round_over_on_last_bullet true false
           (then_shoot true false (playing_game 2 3 [0] [GateType.X] [GateType.X])) g').
  - auto with chamber.
  - vm_compute. reflexivity.
  - exact Hshot.
Defined.

Section Views.
Context `{Sim : Simulator}.

(** X25.  A round set up the regular way - [start_new_round], both
  players' selections of the configured length, [start_playing_phase] -
  starts in the playing phase with player 1 to move, the gate flag
  clear, each inventory holding the selected kinds unused, both peeks
  available and empty histories; and each player is shown exactly the
  loaded labels: live where the draw put a live bullet, blank
  elsewhere. *)
Theorem regular_round_starts_with_the_labels (positions : list Z)
  (sel1 sel2 : list GateType.t) (g g1 : Game.t) (for_player_id : Z) :
Game.start_new_round positions g = Some g1 →
Z.of_nat (length sel1) = Game.num_gates g →
Z.of_nat (length sel2) = Game.num_gates g →
let g4 := Game.start_playing_phase
            (Game.submit_gate_selection 2 sel2
               (Game.submit_gate_selection 1 sel1 g1).2).2 in
Game.phase g4 = playing
∧ Game.current_player g4 = P1
∧ Game.gate_applied_this_turn g4 = false
∧ Game.round_number g4 = Game.round_number g + 1
∧ gates (Game.player1 g4) = new_gate <$> sel1
∧ gates (Game.player2 g4) = new_gate <$> sel2
∧ peek_available (Game.player1 g4) = true
∧ peek_available (Game.player2 g4) = true
∧ applied_gates_history (Game.player1 g4) = []
∧ applied_gates_history (Game.player2 g4) = []
∧ Game.get_visible_bullet_states for_player_id g4
  = Some ((λ q, if decide (q ∈ positions) then live else blank)
          <$> seqZ 0 (Game.num_bullets g)).
Proof.
unfold Game.start_new_round. case_decide as HN; [done|].
destruct (QBS.init (Game.num_bullets g)) as [s0|] eqn:Hi; simpl; [|done].
assert (HN0 : QBS.num_bullets s0 = Game.num_bullets g).
{ unfold QBS.init in Hi. case_decide; [done|]. by injection Hi as <-. }
intros [= <-] Hl1 Hl2. unfold Game.submit_gate_selection. simpl.
destruct (decide (Z.of_nat (length sel1) ≠ Game.num_gates g)) as [|_]; [done|].
simpl.
destruct (decide (Z.of_nat (length sel2) ≠ Game.num_gates g)) as [|_]; [done|].
simpl. split_and!; try done.
unfold Game.get_visible_bullet_states. simpl.
apply mapM_fmap_total. intros q Hq. apply elem_of_seqZ in Hq.
assert (Hvis : ∀ player, applied_gates_history player = [] →
          Game.visible_state player (QBS.initialize_bullets positions s0) q
          = Some (if decide (q ∈ positions) then live else blank)).
{ intros player Hh. unfold Game.visible_state, Game.player_modified. simpl.
  rewrite (py_get_in_range (replicate _ false)) by (rewrite length_replicate; lia).
  rewrite lookup_replicate_2 by lia. simpl. rewrite Hh. simpl. f_equal.
  assert (q ∈ QBS.sorted positions ↔ q ∈ positions).
  { unfold QBS.sorted. by rewrite merge_sort_Permutation. }
  by repeat case_decide; intuition. }
by destruct (decide (for_player_id = 1)); apply Hvis.
Qed.

(** X26.  A gate applied by one player does not change what the other
  player sees on positions the other player never touched: the other
  player's record is untouched, and for every such position the
  visible state is the same before and after the gate - the fired
  outcome if measured, the loaded label otherwise. *)
Theorem opponent_gate_keeps_untouched_views (gt : GateType.t) (t1 t2 p : Z)
  (g g' : Game.t) (m : Message) (sys sys' : QBS.t) :
Game.apply_gate gt t1 t2 g = Some ((true, m), g') →
Game.bullet_system g = Some sys →
Game.bullet_system g' = Some sys' →
let o := other (Game.current_player g) in
Game.player_modified p (Game.deref o g) = false →
Game.deref o g' = Game.deref o g
∧ Game.visible_state (Game.deref o g') sys' p
  = Game.visible_state (Game.deref o g) sys p
∧ (py_get (QBS.measured sys) p = Some false →
   Game.visible_state (Game.deref o g') sys' p
   = Some (if decide (p ∈ QBS.initial_live_positions sys) then live else blank)).
Proof.
intros Happ Hb Hb' o Hmod.
destruct (accepted_gate_shape _ _ _ _ _ _ Happ)
  as (_ & _ & _ & Ho & _ & _ & s & s' & Hs & Hg & Hs').
rewrite Hb in Hs. injection Hs as <-. rewrite Hb' in Hs'. injection Hs' as <-.
apply apply_gate_frame in Hg as (_ & Hm & Hr & Hl & _).
fold o in Ho. rewrite Ho. split; [done|].
unfold Game.visible_state. rewrite Hm, Hr, Hl, Hmod. split; [done|].
intros ->. done.
Qed.
End Views.

Lemma regular_round_starts_with_the_labels_witness :
  let g4 := Game.start_playing_phase
              (Game.submit_gate_selection 2 [GateType.CNOT; GateType.Z]
                 (Game.submit_gate_selection 1 [GateType.H; GateType.X]
                    (then_round [1; 3] (Game.init 4 2 3))).2).2 in
  Game.phase g4 = playing
  ∧ Game.current_player g4 = P1
  ∧ Game.gate_applied_this_turn g4 = false
  ∧ Game.round_number g4 = Game.round_number (Game.init 4 2 3) + 1
  ∧ gates (Game.player1 g4) = new_gate <$> [GateType.H; GateType.X]
  ∧ gates (Game.player2 g4) = new_gate <$> [GateType.CNOT; GateType.Z]
  ∧ peek_available (Game.player1 g4) = true
  ∧ peek_available (Game.player2 g4) = true
  ∧ applied_gates_history (Game.player1 g4) = []
  ∧ applied_gates_history (Game.player2 g4) = []
  ∧ @Game.get_visible_bullet_states Exact.simulator 2 g4
    = Some ((λ q, if decide (q ∈ [1; 3]) then live else blank)
            <$> seqZ 0 (Game.num_bullets (Game.init 4 2 3))).
Proof.
  apply (@regular_round_starts_with_the_labels Exact.simulator [1; 3]
           [GateType.H; GateType.X] [GateType.CNOT; GateType.Z]
           (Game.init 4 2 3) (then_round [1; 3] (Game.init 4 2 3)) 2).
  - vm_compute. reflexivity.
  - reflexivity.
  - reflexivity.
Defined.

Lemma opponent_gate_keeps_untouched_views_witness :
  Game.deref (other (Game.current_player midgame_before)) midgame
  = Game.deref (other (Game.current_player midgame_before)) midgame_before
  ∧ @Game.visible_state Exact.simulator
      (Game.deref (other (Game.current_player midgame_before)) midgame)
      (chamber_of midgame) 1
    = @Game.visible_state Exact.simulator
        (Game.deref (other (Game.current_player midgame_before)) midgame_before)
        (chamber_of midgame_before) 1
  ∧ (py_get (QBS.measured (chamber_of midgame_before)) 1 = Some false →
     @Game.visible_state Exact.simulator
       (Game.deref (other (Game.current_player midgame_before)) midgame)
       (chamber_of midgame) 1
     = Some (if decide (1 ∈ QBS.initial_live_positions (chamber_of midgame_before))
             then live else blank)).
Proof.
  apply (@opponent_gate_keeps_untouched_views Exact.simulator GateType.X 1 (-1) 1
           midgame_before midgame (msg_applied_one GateType.X 1)
           (chamber_of midgame_before) (chamber_of midgame)).
  - vm_compute. reflexivity.
  - vm_compute. reflexivity.
  - vm_compute. reflexivity.
  - vm_compute. reflexivity.
Defined.

(** X27.  The commands need a chamber.  In a game the commands can lead
    to, once a round has created the chamber [shoot] and [apply_gate]
    always return.  Without a chamber - the playing phase entered before
    any round - [shoot] raises, [apply_gate] raises as soon as its own
    checks pass, and [get_visible_bullet_states] returns the empty
    list. *)
Theorem commands_need_a_chamber `{Sim : Simulator} (shoot_self sample : bool)
    (gt : GateType.t) (t1 t2 for_player_id : Z) (g : Game.t) :
  game_reachable g →
  (is_Some (Game.bullet_system g) →
   is_Some (Game.shoot shoot_self sample g)
   ∧ is_Some (Game.apply_gate gt t1 t2 g))
  ∧ (Game.bullet_system g = None →
     Game.get_visible_bullet_states for_player_id g = Some []
     ∧ (Game.phase g = playing → Game.game_over g = false →
        Game.shoot shoot_self sample g = None
        ∧ (Game.gate_applied_this_turn g = false →
           has_gate gt (Game.deref (Game.current_player g) g) = true →
           Game.apply_gate gt t1 t2 g = None))).
Proof.
  intros Hr. destruct (game_reachable_inv g Hr) as (_ & Hrc & _). split.
  - intros [sys Hb]. destruct (Hrc sys Hb) as (HN & Hinv & Hpre). split.
    + unfold Game.shoot. case_decide; [by eauto|].
      destruct (Game.game_over g); [by eauto|]. rewrite Hb. simpl.
      destruct (fire_next_prefix sample sys Hinv Hpre)
        as [[_ ->]|(v & s1 & -> & _)]; simpl; [by eauto|].
      case_decide; by eauto.
    + unfold Game.apply_gate. case_decide; [by eauto|].
      destruct (Game.game_over g); [by eauto|].
      destruct (Game.gate_applied_this_turn g); [by eauto|].
      destruct (negb _); [by eauto|]. rewrite Hb. simpl.
      destruct (apply_gate_total gt t1 t2 sys (proj1 Hinv)) as (ok & s' & ->).
      simpl. destruct ok; by eauto.
  - intros Hb. split.
    + unfold Game.get_visible_bullet_states. by rewrite Hb.
    + intros Hph Hover. split.
      * unfold Game.shoot. rewrite decide_False by (by rewrite Hph; intros ?).
        by rewrite Hover, Hb.
      * intros Hflag Hhas. unfold Game.apply_gate.
        rewrite decide_False by (by rewrite Hph; intros ?).
        by rewrite Hover, Hflag, Hhas, Hb.
Qed.

Lemma commands_need_a_chamber_witness :
  (is_Some (Game.bullet_system roundless_game) →
   is_Some (Game.shoot false true roundless_game)
   ∧ is_Some (Game.apply_gate GateType.X 0 (-1) roundless_game))
  ∧ (Game.bullet_system roundless_game = None →
     @Game.get_visible_bullet_states Exact.simulator 1 roundless_game = Some []
     ∧ (Game.phase roundless_game = playing → Game.game_over roundless_game = false →
        Game.shoot false true roundless_game = None
        ∧ (Game.gate_applied_this_turn roundless_game = false →
           has_gate GateType.X
             (Game.deref (Game.current_player roundless_game) roundless_game) = true →
           Game.apply_gate GateType.X 0 (-1) roundless_game = None))).
Proof.
  apply (@commands_need_a_chamber Exact.simulator false true GateType.X 0 (-1) 1
           roundless_game).
  unfold roundless_game, then_submit. apply greach_playing, greach_submit, greach_init.
Defined.

(** X28.  A single-position gate applied with a second target given:
    the chamber acts on the first target only - one instruction on it is
    appended, the ledger is unchanged - but the second target is written
    to the player's history, so [get_visible_bullet_states] treats it as
    touched by that player just like the first. *)
Theorem stray_second_target_counts_as_touched (gt : GateType.t) (t1 t2 : Z)
    (g g' : Game.t) (m : Message) :
  Game.apply_gate gt t1 t2 g = Some ((true, m), g') →
  GateType.is_two_qubit gt = false →
  Game.player_modified t1 (Game.deref (Game.current_player g) g') = true
  ∧ Game.player_modified t2 (Game.deref (Game.current_player g) g') = true
  ∧ ∃ sys sys' u, Game.bullet_system g = Some sys
      ∧ Game.bullet_system g' = Some sys'
      ∧ QBS.circuit sys' = QBS.circuit sys ++ [I1 u t1]
      ∧ QBS.entanglements sys' = QBS.entanglements sys.
Proof.
  intros Happ Hsingle.
  destruct (accepted_gate_shape _ _ _ _ _ _ Happ)
    as (_ & _ & _ & _ & _ & Hhist & sys & sys' & Hb & Hg & Hb').
  assert (Hmod : ∀ p, p = t1 ∨ p = t2 →
            Game.player_modified p (Game.deref (Game.current_player g) g') = true).
  { intros p Hp. unfold Game.player_modified. rewrite Hhist, existsb_app. simpl.
    rewrite bool_decide_true by (simpl; intuition). by rewrite orb_true_r. }
  split_and!; [apply Hmod; auto|apply Hmod; auto|].
  apply apply_gate_success in Hg as (_ & _ & _ & ->).
  destruct gt; try done; eexists sys, _, _; (split_and!; [done|done|done|done]).
Qed.

Lemma stray_second_target_counts_as_touched_witness :
  Game.player_modified 1
    (Game.deref (Game.current_player midgame_before)
       (then_apply GateType.X 1 3 midgame_before)) = true
  ∧ Game.player_modified 3
      (Game.deref (Game.current_player midgame_before)
         (then_apply GateType.X 1 3 midgame_before)) = true
  ∧ ∃ sys sys' u, Game.bullet_system midgame_before = Some sys
      ∧ Game.bullet_system (then_apply GateType.X 1 3 midgame_before) = Some sys'
      ∧ QBS.circuit sys' = QBS.circuit sys ++ [I1 u 1]
      ∧ QBS.entanglements sys' = QBS.entanglements sys.
Proof.
  apply (stray_second_target_counts_as_touched GateType.X 1 3 midgame_before
           (then_apply GateType.X 1 3 midgame_before) (msg_applied_one GateType.X 1)).
  - vm_compute. reflexivity.
  - reflexivity.
Defined.
